(** * Verification of the genetic-algorithm optimizer of [heuristica.py]

    The development embeds [AlgoritmoGenetico] (src/heuristica.py) in Rocq.

    - Python [int] is [Z].  In the model of the optimizer a [float] is an
      exact rational [Q] and [float('inf')] is the extra point [Inf] of
      [fit]: the optimizer only compares fitness values and passes them on.
      What the evaluator computes is modelled a second time, in the module
      [Binario64], in IEEE 754 binary64 and with the workers as objects
      held by reference.
    - A solution is a [Dict[int, List[int]]].  The inner lists are mutable
      objects that may be shared between several dictionaries ([dict.copy]
      is shallow), so each list lives in a store ([heap]) and a dictionary maps
      a worker id to the location of its list, in insertion order.  No
      dictionary is modified after it is built: only the lists are.
    - [random.random()] and [random.choice] read an oracle: the whole run is a
      function of the successive outcomes, and "for every random outcome"
      quantifies over the oracle.
    - Exceptions are values of [exn]; the store survives an exception.
    - Timing, memory metrics and [print] have no effect on the optimizer's
      state and are left out. *)

From Stdlib Require Import QArith Qminmax Lqa Floats.
From stdpp Require Import base list gmap sets sorting.

Open Scope Z_scope.

(** ** Domain model *)

Record Processo := mkProcesso {
  p_id : Z;
  categoria : Z;
  peso : Q;
  urgencia : Z;
  tempo_estimado : Q
}.

Record Funcionario := mkFuncionario {
  f_id : Z;
  especialidades : gset Z;
  carga_horaria : Q;
  senioridade : Z;
  carga_atual : Q
}.

Definition set_carga_atual (f : Funcionario) (c : Q) : Funcionario :=
  {| f_id := f_id f; especialidades := especialidades f;
     carga_horaria := carga_horaria f; senioridade := senioridade f;
     carga_atual := c |}.

(** Exceptions the code can raise. *)
Inductive exn := IndexError | KeyError | StopIteration | ValueError.

(** [float] extended with [float('inf')]. *)
Inductive fit := Inf | Fin (q : Q).

Definition Qltb (a b : Q) : bool := negb (Qle_bool b a).

(** [a < b] on floats, [b] possibly infinite. *)
Definition fit_ltb (a : Q) (b : fit) : bool :=
  match b with Inf => true | Fin q => Qltb a q end.

(** [a <= b] as a proposition, on the extended line. *)
Definition fit_le (a b : fit) : Prop :=
  match a, b with
  | _, Inf => True
  | Inf, Fin _ => False
  | Fin x, Fin y => (x <= y)%Q
  end.

(** ** Store, dictionaries and the optimizer object *)

(** Locations, the store of list objects, and a dictionary from worker id
    to (a reference to) its list of item ids. *)
Abbreviation loc := nat (only parsing).
Abbreviation Heap := (list (list Z)) (only parsing).
Abbreviation Solucao := (list (Z * nat)) (only parsing).

Record AlgoritmoGenetico := mkAG {
  num_geracoes : Z;
  tamanho_populacao : Z;
  taxa_mutacao : Q;
  taxa_crossover : Q;
  funcionarios : list Funcionario;
  processos : list Processo;
  melhor_solucao : option Solucao;
  melhor_fitness : fit
}.

(** [AlgoritmoGenetico.__init__]: no check of any kind. *)
Definition init (g p : Z) (tm tc : Q) : AlgoritmoGenetico :=
  mkAG g p tm tc [] [] None Inf.

Definition adicionar_funcionario (f : Funcionario) (a : AlgoritmoGenetico) :=
  mkAG (num_geracoes a) (tamanho_populacao a) (taxa_mutacao a) (taxa_crossover a)
       (funcionarios a ++ [f]) (processos a) (melhor_solucao a) (melhor_fitness a).

Definition adicionar_processo (p : Processo) (a : AlgoritmoGenetico) :=
  mkAG (num_geracoes a) (tamanho_populacao a) (taxa_mutacao a) (taxa_crossover a)
       (funcionarios a) (processos a ++ [p]) (melhor_solucao a) (melhor_fitness a).

Definition set_funcionarios (fs : list Funcionario) (a : AlgoritmoGenetico) :=
  mkAG (num_geracoes a) (tamanho_populacao a) (taxa_mutacao a) (taxa_crossover a)
       fs (processos a) (melhor_solucao a) (melhor_fitness a).

Definition set_melhor (s : Solucao) (f : Q) (a : AlgoritmoGenetico) :=
  mkAG (num_geracoes a) (tamanho_populacao a) (taxa_mutacao a) (taxa_crossover a)
       (funcionarios a) (processos a) (Some s) (Fin f).

(** The random oracle: the outcome of the [n]-th call, and how many calls
    have been made. *)
Record Rng := mkRng {
  uniforme : nat -> Q;
  indice : nat -> nat;
  consumidos : nat
}.

Record Mundo := mkMundo {
  self : AlgoritmoGenetico;
  heap : Heap;
  rng : Rng
}.

(** ** State and exception monad *)

Definition M (A : Type) : Type := Mundo -> Mundo * (exn + A).

Definition ret {A} (a : A) : M A := fun w => (w, inr a).
Definition raise {A} (e : exn) : M A := fun w => (w, inl e).
Definition bind {A B} (m : M A) (k : A -> M B) : M B :=
  fun w => match m w with
           | (w', inr a) => k a w'
           | (w', inl e) => (w', inl e)
           end.

Notation "x <- m ;; k" := (bind m (fun x => k))
  (at level 100, m at next level, right associativity).
Notation "m ;;; k" := (bind m (fun _ => k))
  (at level 100, right associativity).

Definition get_self : M AlgoritmoGenetico := fun w => (w, inr (self w)).
Definition put_self (a : AlgoritmoGenetico) : M unit :=
  fun w => (mkMundo a (heap w) (rng w), inr tt).
Definition get_heap : M Heap := fun w => (w, inr (heap w)).
Definition put_heap (h : Heap) : M unit :=
  fun w => (mkMundo (self w) h (rng w), inr tt).
Definition lift {A} (r : exn + A) : M A := fun w => (w, r).

(** The list stored at a location. *)
Definition deref (h : Heap) (l : loc) : list Z := default [] (h !! l).

(** What a dictionary holds in a store: worker id and item ids. *)
Definition conteudo (h : Heap) (s : Solucao) : list (Z * list Z) :=
  map (fun e => (e.1, deref h e.2)) s.

(** [for processos in s.values(): todos.extend(processos)]. *)
Definition atribuidos (h : Heap) (s : Solucao) : list Z :=
  concat (map (fun e => deref h e.2) s).

(** ** Python primitives *)

(** [random.random()]. *)
Definition random : M Q :=
  fun w => let r := rng w in
    (mkMundo (self w) (heap w) (mkRng (uniforme r) (indice r) (S (consumidos r))),
     inr (uniforme r (consumidos r))).

(** [random.choice(xs)]: [IndexError] on an empty sequence. *)
Definition choice {A} (xs : list A) : M A :=
  fun w => let r := rng w in
    match xs !! (indice r (consumidos r) mod length xs)%nat with
    | Some x =>
        (mkMundo (self w) (heap w)
                 (mkRng (uniforme r) (indice r) (S (consumidos r))), inr x)
    | None => (w, inl IndexError)
    end.

(** [xs[i]] with Python's negative indices. *)
Definition py_index {A} (xs : list A) (i : Z) : exn + A :=
  let n := Z.of_nat (length xs) in
  if (0 <=? i) && (i <? n) then
    match xs !! Z.to_nat i with Some x => inr x | None => inl IndexError end
  else if (- n <=? i) && (i <? 0) then
    match xs !! Z.to_nat (n + i) with Some x => inr x | None => inl IndexError end
  else inl IndexError.

(** [xs[:k]]. *)
Definition py_take {A} (k : Z) (xs : list A) : list A :=
  if 0 <=? k then take (Z.to_nat k) xs
  else take (Z.to_nat (Z.of_nat (length xs) + k)) xs.

(** [x in xs] and [xs.remove(x)] (first occurrence). *)
Definition py_in (x : Z) (xs : list Z) : bool := bool_decide (x ∈ xs).

Fixpoint py_remove (x : Z) (xs : list Z) : list Z :=
  match xs with
  | [] => []
  | y :: ys => if decide (x = y) then ys else y :: py_remove x ys
  end.

(** Stable sort ([sorted], [list.sort]); [lt a b] is [key a < key b]. *)
Fixpoint insere {A} (lt : A -> A -> bool) (x : A) (l : list A) : list A :=
  match l with
  | [] => [x]
  | y :: l' => if lt y x then y :: insere lt x l' else x :: y :: l'
  end.

Definition py_sorted {A} (lt : A -> A -> bool) (l : list A) : list A :=
  foldr (insere lt) [] l.

(** [max(xs)], [min(xs)]: [ValueError] on an empty sequence; the first
    extreme element is returned. *)
Definition py_max (xs : list Q) : exn + Q :=
  match xs with
  | [] => inl ValueError
  | x :: xs' => inr (fold_left (fun m y => if Qltb m y then y else m) xs' x)
  end.

Definition py_min (xs : list Q) : exn + Q :=
  match xs with
  | [] => inl ValueError
  | x :: xs' => inr (fold_left (fun m y => if Qltb y m then y else m) xs' x)
  end.

(** [next(x for x in xs if p x)]. *)
Definition py_next {A} (p : A -> bool) (xs : list A) : exn + A :=
  match List.find p xs with Some x => inr x | None => inl StopIteration end.

(** ** Fitness evaluation ([calcular_fitness], lines 87-110) *)

(** Inner loop: [funcionario.carga_atual += processo.peso] for each item id;
    [idx] is the position of the worker object found by [next]. *)
Fixpoint acumula_itens (procs : list Processo) (idx : nat) (ids : list Z)
    (fs : list Funcionario) : list Funcionario * (exn + unit) :=
  match ids with
  | [] => (fs, inr tt)
  | i :: ids' =>
      match py_next (fun p => bool_decide (p_id p = i)) procs with
      | inl e => (fs, inl e)
      | inr p =>
          acumula_itens procs idx ids'
            (alter (fun f => set_carga_atual f (carga_atual f + peso p)%Q) idx fs)
      end
  end.

(** Outer loop over [solucao.items()]. *)
Fixpoint acumula (procs : list Processo) (cont : list (Z * list Z))
    (fs : list Funcionario) : list Funcionario * (exn + unit) :=
  match cont with
  | [] => (fs, inr tt)
  | (fid, ids) :: cont' =>
      match list_find (fun f => f_id f = fid) fs with
      | None => (fs, inl StopIteration)
      | Some (idx, _) =>
          match acumula_itens procs idx ids fs with
          | (fs', inr _) => acumula procs cont' fs'
          | r => r
          end
      end
  end.

Definition penalidade (fs : list Funcionario) : Q :=
  fold_left (fun acc f =>
               if Qltb (carga_horaria f) (carga_atual f)
               then (acc + (carga_atual f - carga_horaria f) * 1000)%Q
               else acc) fs 0%Q.

Definition calcular_fitness (s : Solucao) : M Q := fun w =>
  let a := self w in
  let fs0 := map (fun f => set_carga_atual f 0%Q) (funcionarios a) in
  let '(fs1, r) := acumula (processos a) (conteudo (heap w) s) fs0 in
  let w1 := mkMundo (set_funcionarios fs1 a) (heap w) (rng w) in
  match r with
  | inl e => (w1, inl e)
  | inr _ =>
      let cargas := map carga_atual fs1 in
      match py_max cargas with
      | inl e => (w1, inl e)
      | inr mx =>
          match py_min cargas with
          | inl e => (w1, inl e)
          | inr mn => (w1, inr (mx - mn + penalidade fs1)%Q)
          end
      end
  end.

(** ** Building a solution *)

(** [d[k]] on a dictionary. *)
Fixpoint dict_get (d : Solucao) (k : Z) : option loc :=
  match d with
  | [] => None
  | (k', l) :: d' => if decide (k' = k) then Some l else dict_get d' k
  end.

(** [d[k].append(v)] on a [defaultdict(list)]: a missing key is inserted
    last, with a fresh list. *)
Definition dd_append (d : Solucao) (k v : Z) : M Solucao := fun w =>
  let h := heap w in
  match dict_get d k with
  | Some l => (mkMundo (self w) (<[l := deref h l ++ [v]]> h) (rng w), inr d)
  | None => (mkMundo (self w) (h ++ [[v]]) (rng w), inr (d ++ [(k, length h)]))
  end.

(** [[f for f in fs if cat in f.especialidades]]. *)
Definition compativeis (cat : Z) (fs : list Funcionario) : list Funcionario :=
  filter (fun f => cat ∈ especialidades f) fs.

(** [gerar_solucao_aleatoria] (lines 63-85): the loop over the sorted items. *)
Fixpoint distribuir_processos (ps : list Processo) (fs : list Funcionario)
    (d : Solucao) : M Solucao :=
  match ps with
  | [] => ret d
  | p :: ps' =>
      match compativeis (categoria p) fs with
      | [] => distribuir_processos ps' fs d
      | comp =>
          f <- choice comp ;;
          d' <- dd_append d (f_id f) (p_id p) ;;
          distribuir_processos ps' fs d'
      end
  end.

Definition gerar_solucao_aleatoria : M Solucao :=
  a <- get_self ;;
  let ordenados :=
    py_sorted (fun p q => - urgencia p <? - urgencia q) (processos a) in
  distribuir_processos ordenados (funcionarios a) [].

(** ** Variation operators *)

(** The comprehension of [crossover] indexes [self.processos[processo_id]]
    once per worker: no worker, no [IndexError]. *)
Fixpoint compativeis_pos (procs : list Processo) (pid : Z)
    (fs : list Funcionario) : exn + list Funcionario :=
  match fs with
  | [] => inr []
  | f :: fs' =>
      match py_index procs pid with
      | inl e => inl e
      | inr p =>
          match compativeis_pos procs pid fs' with
          | inl e => inl e
          | inr rest =>
              inr (if decide (categoria p ∈ especialidades f)
                   then f :: rest else rest)
          end
      end
  end.

Fixpoint distribuir_ids (ids : list Z) (d : Solucao) : M Solucao :=
  match ids with
  | [] => ret d
  | i :: ids' =>
      a <- get_self ;;
      comp <- lift (compativeis_pos (processos a) i (funcionarios a)) ;;
      match comp with
      | [] => distribuir_ids ids' d
      | _ =>
          f <- choice comp ;;
          d' <- dd_append d (f_id f) i ;;
          distribuir_ids ids' d'
      end
  end.

(** The removal loop of [mutacao] (lines 156-159): [for func_id in solucao]
    visits the entries in order and [solucao[func_id]] is the list of the
    entry visited; the first list that holds the item loses its first
    occurrence, and the loop stops. *)
Fixpoint remover (pid : Z) (s : Solucao) (h : Heap) : Heap :=
  match s with
  | [] => h
  | (_, l) :: s' =>
      if py_in pid (deref h l) then <[l := py_remove pid (deref h l)]> h
      else remover pid s' h
  end.

(** [mutacao] (lines 139-169).  [solucao] is a plain [dict]: reading a
    missing key raises [KeyError]. *)
Definition mutacao (s : Solucao) : M unit :=
  r <- random ;;
  a <- get_self ;;
  if Qltb (taxa_mutacao a) r then ret tt
  else
    h <- get_heap ;;
    match atribuidos h s with
    | [] => ret tt
    | todos =>
        pid <- choice todos ;;
        processo <- lift (py_index (processos a) pid) ;;
        put_heap (remover pid s h) ;;;
        match compativeis (categoria processo) (funcionarios a) with
        | [] => ret tt
        | comp =>
            f <- choice comp ;;
            match dict_get s (f_id f) with
            | None => raise KeyError
            | Some l =>
                h' <- get_heap ;;
                put_heap (<[l := deref h' l ++ [pid]]> h')
            end
        end
    end.

Section Optimizer.

(** The order in which Python enumerates a [set] is not specified; in
    CPython it depends on the elements and on the order in which they were
    inserted.  [set_iter] maps the sequence of insertions to the
    enumeration. *)
Variable set_iter : list Z -> list Z.

(** [crossover] (lines 112-137).  [pai1.copy()] is a shallow copy: a new
    dictionary with the same references to the same lists. *)
Definition crossover (pai1 pai2 : Solucao) : M Solucao :=
  r <- random ;;
  a <- get_self ;;
  if Qltb (taxa_crossover a) r then ret pai1
  else
    h <- get_heap ;;
    let todos_processos := atribuidos h pai1 ++ atribuidos h pai2 in
    distribuir_ids (set_iter todos_processos) [].

(** ** The generational loop ([executar], lines 171-211) *)

Fixpoint repetir {A} (n : nat) (m : M A) : M (list A) :=
  match n with
  | O => ret []
  | S n' => x <- m ;; xs <- repetir n' m ;; ret (x :: xs)
  end.

Fixpoint avaliar (pop : list Solucao) : M (list (Solucao * Q)) :=
  match pop with
  | [] => ret []
  | sol :: pop' =>
      f <- calcular_fitness sol ;;
      rest <- avaliar pop' ;;
      ret ((sol, f) :: rest)
  end.

(** The [while] loop: each round appends one child, so it runs
    [tamanho_populacao - len(nova_populacao)] times. *)
Fixpoint gerar_filhos (n : nat) (melhores nova : list Solucao)
    : M (list Solucao) :=
  match n with
  | O => ret nova
  | S n' =>
      pai1 <- choice melhores ;;
      pai2 <- choice melhores ;;
      filho <- crossover pai1 pai2 ;;
      mutacao filho ;;;
      gerar_filhos n' melhores (nova ++ [filho])
  end.

Definition atualiza_melhor (s0 : Solucao) (f0 : Q) : M unit :=
  a <- get_self ;;
  if fit_ltb f0 (melhor_fitness a) then put_self (set_melhor s0 f0 a)
  else ret tt.

Definition sobreviventes (p : Z) (fp : list (Solucao * Q)) : list Solucao :=
  map fst (py_take (p / 2) fp).

(** One round of the [for geracao in range(num_geracoes)] loop. *)
Definition geracao (populacao : list Solucao) : M (list Solucao) :=
  avaliada <- avaliar populacao ;;
  let fitness_populacao := py_sorted (fun x y => Qltb x.2 y.2) avaliada in
  match fitness_populacao with
  | [] => raise IndexError
  | (s0, f0) :: _ =>
      atualiza_melhor s0 f0 ;;;
      a <- get_self ;;
      let melhores_solucoes :=
        sobreviventes (tamanho_populacao a) fitness_populacao in
      gerar_filhos
        (Z.to_nat (tamanho_populacao a - Z.of_nat (length melhores_solucoes)))
        melhores_solucoes melhores_solucoes
  end.

Fixpoint geracoes (n : nat) (populacao : list Solucao) : M (list Solucao) :=
  match n with
  | O => ret populacao
  | S n' => p' <- geracao populacao ;; geracoes n' p'
  end.

Definition populacao_inicial : M (list Solucao) :=
  a <- get_self ;;
  repetir (Z.to_nat (tamanho_populacao a)) gerar_solucao_aleatoria.

Definition executar : M (option Solucao) :=
  populacao <- populacao_inicial ;;
  a <- get_self ;;
  geracoes (Z.to_nat (num_geracoes a)) populacao ;;;
  a' <- get_self ;;
  ret (melhor_solucao a').

End Optimizer.


From Stdlib Require Import Sorted.

(** ** The demonstration driver ([gerar_dados_teste], [main], lines 213-273) *)

(** Exceptions of the driver: those of the optimizer, the division by a
    zero duration, and the attribute access on [None]. *)
Inductive excecao := Exn (e : exn) | ZeroDivisionError | AttributeError.

Definition avanca_rng (r : Rng) : Rng :=
  mkRng (uniforme r) (indice r) (S (consumidos r)).

(** [random.randint(a, b)], for [a <= b]. *)
Definition randint (a b : Z) (r : Rng) : Rng * Z :=
  (avanca_rng r, a + Z.of_nat (indice r (consumidos r)) mod (b - a + 1)).

(** [random.uniform(a, b)], that is [a + (b - a) * random()]. *)
Definition uniform (a b : Q) (r : Rng) : Rng * Q :=
  (avanca_rng r, (a + (b - a) * uniforme r (consumidos r))%Q).

(** The nine workers of the demonstration. *)
Definition funcionarios_teste : list Funcionario :=
  [ mkFuncionario 1 {[1; 2]} 44 3 0;
    mkFuncionario 2 {[2; 3]} 40 4 0;
    mkFuncionario 3 {[3; 4]} 36 2 0;
    mkFuncionario 4 {[4; 5]} 44 5 0;
    mkFuncionario 5 {[1; 5]} 40 3 0;
    mkFuncionario 6 {[1; 3]} 44 4 0;
    mkFuncionario 7 {[2; 4]} 36 3 0;
    mkFuncionario 8 {[3; 5]} 40 2 0;
    mkFuncionario 9 {[1; 4]} 44 5 0 ].

(** The loop [for i in range(100)], [n] rounds from index [i]. *)
Fixpoint gerar_processos (n : nat) (i : Z) (acc : list Processo) (r : Rng)
    : Rng * (excecao + list Processo) :=
  match n with
  | O => (r, inr acc)
  | S n' =>
      let '(r1, cat) := randint 1 5 r in
      let '(r2, urg) := randint 1 5 r1 in
      let '(r3, tempo) := uniform (1#2) 5 r2 in
      if Qeq_bool tempo 0 then (r3, inl ZeroDivisionError)
      else
        let peso := (inject_Z (urg * 10) / tempo)%Q in
        gerar_processos n' (i + 1)
          (acc ++ [mkProcesso i cat peso urg tempo]) r3
  end.

Definition gerar_dados_teste (r : Rng)
    : Rng * (excecao + list Funcionario * list Processo) :=
  match gerar_processos 100 0 [] r with
  | (r', inr procs) => (r', inr (funcionarios_teste, procs))
  | (r', inl e) => (r', inl e)
  end.

(** What [main] prints for one worker of the best solution. *)
Record Linha := mkLinha {
  l_funcionario : Z;
  l_senioridade : Z;
  l_total : nat;
  l_carga_total : Q;
  l_processos : list (Z * Z * Z * Q)
}.

(** [sum(processos[pid].peso for pid in processos_ids)]. *)
Fixpoint soma_por_posicao (procs : list Processo) (ids : list Z) (acc : Q)
    : exn + Q :=
  match ids with
  | [] => inr acc
  | pid :: ids' =>
      match py_index procs pid with
      | inl e => inl e
      | inr p => soma_por_posicao procs ids' (acc + peso p)%Q
      end
  end.

(** The inner loop that prints the items of a worker. *)
Fixpoint detalhes (procs : list Processo) (ids : list Z)
    : exn + list (Z * Z * Z * Q) :=
  match ids with
  | [] => inr []
  | pid :: ids' =>
      match py_index procs pid with
      | inl e => inl e
      | inr p =>
          match detalhes procs ids' with
          | inl e => inl e
          | inr rest => inr ((pid, categoria p, urgencia p, peso p) :: rest)
          end
      end
  end.

(** The loop over [melhor_solucao.items()]. *)
Fixpoint relatorio (fs : list Funcionario) (procs : list Processo)
    (cont : list (Z * list Z)) : exn + list Linha :=
  match cont with
  | [] => inr []
  | (fid, ids) :: cont' =>
      match py_next (fun f => bool_decide (f_id f = fid)) fs with
      | inl e => inl e
      | inr f =>
          match soma_por_posicao procs ids 0%Q with
          | inl e => inl e
          | inr total =>
              match detalhes procs ids with
              | inl e => inl e
              | inr ds =>
                  match relatorio fs procs cont' with
                  | inl e => inl e
                  | inr rest =>
                      inr (mkLinha fid (senioridade f) (length ids) total ds
                           :: rest)
                  end
              end
          end
      end
  end.

(** The two loops of [main] that fill the optimizer. *)
Definition preparar (fs : list Funcionario) (ps : list Processo)
    (a : AlgoritmoGenetico) : AlgoritmoGenetico :=
  fold_left (fun a p => adicionar_processo p a) ps
    (fold_left (fun a f => adicionar_funcionario f a) fs a).

Section Main.
Variable set_iter : list Z -> list Z.

(** [main], from a fresh process: an empty store and the oracle [r].  The
    local lists [funcionarios] and [processos] hold the objects the
    optimizer holds, so the report reads them from the optimizer.  The
    lines a completed run prints are returned. *)
Definition main (r : Rng) : Mundo * (excecao + list Linha) :=
  let ag := init 100 50 (1#10) (8#10) in
  match gerar_dados_teste r with
  | (r1, inl e) => (mkMundo ag [] r1, inl e)
  | (r1, inr (funcs, procs)) =>
      let w := mkMundo (preparar funcs procs ag) [] r1 in
      match executar set_iter w with
      | (w', inl e) => (w', inl (Exn e))
      | (w', inr None) => (w', inl AttributeError)
      | (w', inr (Some melhor_solucao)) =>
          match relatorio (funcionarios (self w')) (processos (self w'))
                          (conteudo (heap w') melhor_solucao) with
          | inl e => (w', inl (Exn e))
          | inr linhas => (w', inr linhas)
          end
      end
  end.

End Main.
(** * Properties *)

(** ** How operations change the world *)

(** [m] relates every world to the world it leaves, also on an exception. *)
Definition preserva {A} (R : Mundo -> Mundo -> Prop) (m : M A) : Prop :=
  forall w, R w (m w).1.

(** [m] never raises. *)
Definition total {A} (m : M A) : Prop :=
  forall w, exists a, (m w).2 = inr a.

Definition mesmo_self (w w' : Mundo) : Prop := self w' = self w.
Definition mesmo_heap (w w' : Mundo) : Prop := heap w' = heap w.
Definition mesmo_melhor (w w' : Mundo) : Prop :=
  melhor_solucao (self w') = melhor_solucao (self w) /\
  melhor_fitness (self w') = melhor_fitness (self w).
(** Only [carga_atual] of the workers may differ. *)
Definition mesmo_dominio (w w' : Mundo) : Prop :=
  num_geracoes (self w') = num_geracoes (self w) /\
  tamanho_populacao (self w') = tamanho_populacao (self w) /\
  taxa_mutacao (self w') = taxa_mutacao (self w) /\
  taxa_crossover (self w') = taxa_crossover (self w) /\
  processos (self w') = processos (self w).


(** ** Concrete domains used in examples *)

(** Two workers with the same specialty; three items of that category. *)
Definition func1 : Funcionario := mkFuncionario 1 {[1]} 10 3 0.
Definition func2 : Funcionario := mkFuncionario 2 {[1]} 10 3 0.
Definition proc0 : Processo := mkProcesso 0 1 2 1 1.
Definition proc1 : Processo := mkProcesso 1 1 4 1 1.
Definition proc2 : Processo := mkProcesso 2 1 2 1 1.

Definition oraculo (u : nat -> Q) (i : nat -> nat) : Rng := mkRng u i 0.

(** No worker. *)
Definition w_sem_funcionarios : Mundo :=
  mkMundo (mkAG 1 2 (1#10) (8#10) [] [proc0] None Inf) [[0]]
          (oraculo (fun _ => 1#2) (fun n => n)).

(** Both rates 0, every draw 1/2. *)
Definition w_taxa_zero : Mundo :=
  mkMundo (mkAG 1 2 0 0 [func1; func2] [proc0] None Inf) [[0]]
          (oraculo (fun _ => 1#2) (fun n => n)).

(** Rates outside [0,1], one member, a negative number of generations. *)
Definition w_sem_geracoes : Mundo :=
  mkMundo (mkAG (-1) 1 2 (-1) [func1; func2] [proc0] None Inf) []
          (oraculo (fun _ => 1#2) (fun n => n)).

(** A negative population size. *)
Definition w_sem_populacao : Mundo :=
  mkMundo (mkAG 3 (-4) (1#10) (8#10) [func1; func2] [proc0] None Inf) []
          (oraculo (fun _ => 1#2) (fun n => n)).

(** ** The fitness formula, as the specification words it *)

(** The worker an id denotes: the first one carrying it. *)
Definition posicao (fs : list Funcionario) (fid : Z) : option nat :=
  fst <$> list_find (fun f => f_id f = fid) fs.

(** The weight of the item an id denotes (0 for an unknown id). *)
Definition peso_de (procs : list Processo) (i : Z) : Q :=
  match List.find (fun p => bool_decide (p_id p = i)) procs with
  | Some p => peso p
  | None => 0%Q
  end.

Definition soma_pesos (procs : list Processo) (ids : list Z) : Q :=
  foldr (fun i acc => (peso_de procs i + acc)%Q) 0%Q ids.

(** Load of the [j]-th worker under a solution: total weight of the items
    of the entries whose worker id denotes it. *)
Definition carga (fs : list Funcionario) (procs : list Processo)
    (cont : list (Z * list Z)) (j : nat) : Q :=
  foldr (fun e acc =>
           if decide (posicao fs e.1 = Some j)
           then (soma_pesos procs e.2 + acc)%Q else acc) 0%Q cont.

Definition excesso (cap load : Q) : Q :=
  if Qltb cap load then ((load - cap) * 1000)%Q else 0%Q.

(** The ids of a solution all occur in the domain data. *)
Definition ids_conhecidos (fs : list Funcionario) (procs : list Processo)
    (cont : list (Z * list Z)) : Prop :=
  forall fid ids, (fid, ids) ∈ cont ->
    (exists f, f ∈ fs /\ f_id f = fid) /\
    (forall i, i ∈ ids -> exists p, p ∈ procs /\ p_id p = i).

(** The worker records hold the loads [L] and are otherwise those of [fs0]. *)
Definition estado (fs0 fs : list Funcionario) (L : nat -> Q) : Prop :=
  f_id <$> fs = f_id <$> fs0 /\
  carga_horaria <$> fs = carga_horaria <$> fs0 /\
  forall j f, fs !! j = Some f -> (carga_atual f == L j)%Q.

(** ** Solutions in a store *)

(** The (worker id, item id) assignments of a solution, in dictionary order. *)
Definition pares (h : Heap) (s : Solucao) : list (Z * Z) :=
  s ≫= (fun e => (fun i => (e.1, i)) <$> deref h e.2).

(** A dictionary as Python builds it: distinct keys, each with a list of
    its own that exists in the store. *)
Definition bem_formada (h : Heap) (s : Solucao) : Prop :=
  NoDup s.*1 /\ NoDup s.*2 /\ forall l, l ∈ s.*2 -> (l < length h)%nat.

(** Assignment exclusivity: no item id occurs twice in a solution. *)
Definition exclusiva (h : Heap) (s : Solucao) : Prop :=
  NoDup (atribuidos h s).

(** The assignments a run of random choices produces for a sequence of item
    ids, from the domain data and the oracle alone: the [n]-th outcome picks
    among the workers compatible with the item, an item without compatible
    worker is skipped and uses no outcome. *)
Fixpoint sorteio (procs : list Processo) (fs : list Funcionario)
    (idx : nat -> nat) (n : nat) (ids : list Z) : exn + list (Z * Z) :=
  match ids with
  | [] => inr []
  | i :: ids' =>
      match compativeis_pos procs i fs with
      | inl e => inl e
      | inr comp =>
          match comp !! (idx n mod length comp)%nat with
          | None => sorteio procs fs idx n ids'
          | Some f =>
              match sorteio procs fs idx (S n) ids' with
              | inl e => inl e
              | inr r => inr ((f_id f, i) :: r)
              end
          end
      end
  end.

(** The world after [k] more random outcomes have been read. *)
Definition avanca (k : nat) (w : Mundo) : Mundo :=
  mkMundo (self w) (heap w)
    (mkRng (uniforme (rng w)) (indice (rng w)) (k + consumidos (rng w))).

(** Solution [s] assigns item [i] to worker [k]: the list stored under the
    key [k] holds [i]. *)
Definition atribui (h : list (list Z)) (s : list (Z * nat)) (k i : Z) : Prop :=
  exists l itens, (k, l) ∈ s /\ h !! l = Some itens /\ i ∈ itens.

(** Solution [s] holds item [i], under some worker. *)
Definition detem (h : list (list Z)) (s : list (Z * nat)) (i : Z) : Prop :=
  exists k, atribui h s k i.

(** An enumeration is faithful when it lists every inserted element once. *)
Definition enumera (set_iter : list Z -> list Z) : Prop :=
  forall l, NoDup (set_iter l) /\ forall i, i ∈ set_iter l <-> i ∈ l.

(** The enumeration in ascending order, which is CPython's for a handful
    of small non-negative integers. *)
Definition ordem_crescente (l : list Z) : list Z :=
  merge_sort Z.le (remove_dups l).

(** An item id is its own position in the item list, and some worker is
    compatible with the item. *)
Definition id_posicional (a : AlgoritmoGenetico) (i : Z) : Prop :=
  exists p, 0 <= i /\ processos a !! Z.to_nat i = Some p /\ p_id p = i /\
            compativeis (categoria p) (funcionarios a) <> [].

(** One parent in the store, two workers and three items, every draw 0. *)
Definition w_recombina : Mundo :=
  mkMundo (mkAG 1 2 (1#10) (8#10) [func1; func2] [proc0; proc1; proc2] None Inf)
          [[0; 2]; [1]] (oraculo (fun _ => 0%Q) (fun n => n)).

Definition pai_exemplo : list (Z * nat) := [(1, 0%nat); (2, 1%nat)].

(** Two workers compatible with both items, whose ids are their positions;
    default rates, every rate draw 0.05; every choice takes the first
    candidate, except the fifth and the twelfth draws, which take the
    second. *)
Definition w_chave_ausente : Mundo :=
  mkMundo (mkAG 1 2 (1#10) (8#10) [func1; func2] [proc0; proc1] None Inf)
          []
          (oraculo (fun _ => 1#20)
                   (fun n => if (n =? 4)%nat || (n =? 11)%nat then 1%nat
                             else 0%nat)).

(** Two compatible workers, of which the solution has an entry for one. *)
Definition w_sem_entrada : Mundo :=
  mkMundo (mkAG 1 2 (1#10) (8#10) [func1; func2] [proc0] None Inf)
          [[0]] (oraculo (fun _ => 0%Q) (fun _ => 1%nat)).

(** Both rates 0 and every draw exactly 0.0; the second worker has
    capacity 1. *)
Definition func2_pequeno : Funcionario := mkFuncionario 2 {[1]} 1 3 0.

Definition w_sorteio_zero : Mundo :=
  mkMundo (mkAG 1 2 0 0 [func1; func2_pequeno] [proc0; proc1] None Inf)
          [[0]; [1]] (oraculo (fun _ => 0%Q) (fun n => n)).

(** Rates outside [0,1], run for one generation. *)
Definition w_taxas_invalidas : Mundo :=
  mkMundo (mkAG 1 2 (3#2) (-1#2) [func1; func2] [proc0; proc1; proc2] None Inf)
          [] (oraculo (fun _ => 1#2) (fun n => n)).

(** A population of one, run for one generation. *)
Definition w_populacao_um : Mundo :=
  mkMundo (mkAG 1 1 (1#10) (8#10) [func1; func2] [proc0; proc1; proc2] None Inf)
          [] (oraculo (fun _ => 1#2) (fun n => n)).

(** One generation of a population of two, with default rates.  The
    outcomes: the first member gets items 0 and 1 on worker 1 and item 2 on
    worker 2, the second gets all three on worker 1; the crossover draw is
    0.9 (no recombination), the mutation draw 0.05 (mutation), the item
    picked is the first one and the worker picked is the second one. *)
Definition w_elitismo : Mundo :=
  mkMundo (mkAG 1 2 (1#10) (8#10) [func1; func2] [proc0; proc1; proc2] None Inf)
          []
          (oraculo (fun n => if (n =? 8)%nat then 9#10 else 1#20)
                   (fun n => if (n =? 2)%nat || (n =? 11)%nat then 1%nat
                             else 0%nat)).

Definition membro_a : list (Z * nat) := [(1, 0%nat); (2, 1%nat)].
Definition membro_b : list (Z * nat) := [(1, 2%nat)].

(** ** Notions used by the properties beyond the claims *)

(** Some worker's specialties hold the item's category. *)
Definition tem_compativel (fs : list Funcionario) (p : Processo) : Prop :=
  (0 < length (compativeis (categoria p) fs))%nat.

(** A worker record with its scratch load cleared. *)
Definition sem_carga (f : Funcionario) : Funcionario := set_carga_atual f 0%Q.

(** What a run may not change: the configuration, the items, and the
    workers up to their scratch load. *)
Definition estavel (w w' : Mundo) : Prop :=
  num_geracoes (self w') = num_geracoes (self w) /\
  tamanho_populacao (self w') = tamanho_populacao (self w) /\
  taxa_mutacao (self w') = taxa_mutacao (self w) /\
  taxa_crossover (self w') = taxa_crossover (self w) /\
  processos (self w') = processos (self w) /\
  sem_carga <$> funcionarios (self w') = sem_carga <$> funcionarios (self w).

(** Every item id stored in the lists of a store is a position below [n]. *)
Definition itens_validos (n : nat) (h : list (list Z)) : Prop :=
  forall l items i, h !! l = Some items -> i ∈ items -> 0 <= i < Z.of_nat n.

(** Every item id stored in the world's lists is a position of the item
    list. *)
Definition heap_valido (w : Mundo) : Prop :=
  itens_validos (length (processos (self w))) (heap w).

(** Every key of a dictionary is the id of a worker. *)
Definition chaves_validas (w : Mundo) (s : list (Z * nat)) : Prop :=
  forall k, k ∈ s.*1 -> k ∈ f_id <$> funcionarios (self w).

(** Item ids are positions: the [i]-th item of the list has id [i]. *)
Definition posicional (procs : list Processo) : Prop :=
  forall i p, procs !! i = Some p -> p_id p = Z.of_nat i.

(** The tracker holds no solution only while its fitness is infinite, and a
    solution it holds has worker ids for keys. *)
Definition tracker_ok (w : Mundo) : Prop :=
  (melhor_solucao (self w) = None -> melhor_fitness (self w) = Inf) /\
  (forall s, melhor_solucao (self w) = Some s -> chaves_validas w s).

(** The standing assumptions on a world in which a run is safe: a worker
    exists, item ids are positions, and the store holds valid ids only. *)
Definition mundo_ok (w : Mundo) : Prop :=
  funcionarios (self w) <> [] /\
  posicional (processos (self w)) /\
  heap_valido w.

(** What every generated item satisfies. *)
Definition dado_ok (p : Processo) : Prop :=
  1 <= categoria p <= 5 /\ 1 <= urgencia p <= 5 /\
  (1#2 <= tempo_estimado p)%Q /\ (tempo_estimado p < 5)%Q /\
  (peso p == inject_Z (urgencia p * 10) / tempo_estimado p)%Q /\
  (2 < peso p)%Q /\ (peso p <= 100)%Q /\
  tem_compativel funcionarios_teste p.

(** Outcomes of [random.random()] lie in [0, 1). *)
Definition oraculo_unitario (r : Rng) : Prop :=
  forall k, (0 <= uniforme r k)%Q /\ (uniforme r k < 1)%Q.

(** A parent that holds an item id beyond the item list. *)
Definition w_indice_invalido : Mundo :=
  mkMundo (mkAG 1 2 (1#10) (8#10) [func1] [proc0] None Inf)
          [[7]] (oraculo (fun _ => 0%Q) (fun n => n)).

(** ** The evaluator in machine arithmetic

    The model above idealises [float] as exact rationals and keeps each
    worker as a record of [self.funcionarios]; that is enough where fitness
    values are only compared or passed on.  What [calcular_fitness] returns
    depends on more: Python computes in IEEE 754 binary64 and rounds after
    every operation, and [self.funcionarios] holds references to worker
    objects, which the evaluator mutates.  [Binario64] embeds
    [calcular_fitness] (lines 87-110) with both: [float] is the primitive
    binary64 type, and the workers are objects in a store, named by
    addresses.  The evaluator only reads the solution, which is given as its
    items. *)

Module Binario64.

Record Processo := mkProcesso {
  p_id : Z;
  categoria : Z;
  peso : float;
  urgencia : Z;
  tempo_estimado : float
}.

Record Funcionario := mkFuncionario {
  f_id : Z;
  especialidades : gset Z;
  carga_horaria : float;
  senioridade : Z;
  carga_atual : float
}.

Definition set_carga_atual (f : Funcionario) (c : float) : Funcionario :=
  {| f_id := f_id f; especialidades := especialidades f;
     carga_horaria := carga_horaria f; senioridade := senioridade f;
     carga_atual := c |}.

(** The worker object at each address, the references held by
    [self.funcionarios] (an object added twice is referenced twice) and
    [self.processos]. *)
Record Mundo := mkMundo {
  objetos : nat -> Funcionario;
  funcionarios : list nat;
  processos : list Processo
}.

(** Assignment to an attribute of the object at [r]. *)
Definition escreve (st : nat -> Funcionario) (r : nat) (f : Funcionario)
    : nat -> Funcionario :=
  fun r' => if decide (r' = r) then f else st r'.

(** [max(xs)], [min(xs)] with the comparisons of binary64: every comparison
    with a NaN is false. *)
Definition py_max (xs : list float) : exn + float :=
  match xs with
  | [] => inl ValueError
  | x :: xs' =>
      inr (fold_left (fun m y => if PrimFloat.ltb m y then y else m) xs' x)
  end.

Definition py_min (xs : list float) : exn + float :=
  match xs with
  | [] => inl ValueError
  | x :: xs' =>
      inr (fold_left (fun m y => if PrimFloat.ltb y m then y else m) xs' x)
  end.

(** [for f in self.funcionarios: f.carga_atual = 0.0]. *)
Definition reinicia (refs : list nat) (st : nat -> Funcionario)
    : nat -> Funcionario :=
  fold_left (fun st r => escreve st r (set_carga_atual (st r) 0%float)) refs st.

(** Inner loop: [funcionario.carga_atual += processo.peso] on the object
    at [r]. *)
Fixpoint acumula_itens (procs : list Processo) (r : nat) (ids : list Z)
    (st : nat -> Funcionario) : (nat -> Funcionario) * (exn + unit) :=
  match ids with
  | [] => (st, inr tt)
  | i :: ids' =>
      match py_next (fun p => bool_decide (p_id p = i)) procs with
      | inl e => (st, inl e)
      | inr p =>
          acumula_itens procs r ids'
            (escreve st r
               (set_carga_atual (st r)
                  (PrimFloat.add (carga_atual (st r)) (peso p))))
      end
  end.

(** Outer loop over [solucao.items()]; [next] yields the first reference
    of [self.funcionarios] whose object carries the id. *)
Fixpoint acumula (procs : list Processo) (refs : list nat)
    (cont : list (Z * list Z)) (st : nat -> Funcionario)
    : (nat -> Funcionario) * (exn + unit) :=
  match cont with
  | [] => (st, inr tt)
  | (fid, ids) :: cont' =>
      match py_next (fun r => bool_decide (f_id (st r) = fid)) refs with
      | inl e => (st, inl e)
      | inr r =>
          match acumula_itens procs r ids st with
          | (st', inr _) => acumula procs refs cont' st'
          | res => res
          end
      end
  end.

(** The penalty loop; [penalidade] starts as the integer 0, which the first
    addition converts to 0.0. *)
Definition penalidade (st : nat -> Funcionario) (refs : list nat) : float :=
  fold_left (fun acc r =>
               if PrimFloat.ltb (carga_horaria (st r)) (carga_atual (st r))
               then PrimFloat.add acc
                      (PrimFloat.mul
                         (PrimFloat.sub (carga_atual (st r))
                                        (carga_horaria (st r)))
                         1000%float)
               else acc) refs 0%float.

Definition calcular_fitness (cont : list (Z * list Z)) (w : Mundo)
    : Mundo * (exn + float) :=
  let st0 := reinicia (funcionarios w) (objetos w) in
  let '(st1, r) := acumula (processos w) (funcionarios w) cont st0 in
  let w1 := mkMundo st1 (funcionarios w) (processos w) in
  match r with
  | inl e => (w1, inl e)
  | inr _ =>
      let cargas := map (fun r => carga_atual (st1 r)) (funcionarios w) in
      match py_max cargas with
      | inl e => (w1, inl e)
      | inr mx =>
          match py_min cargas with
          | inl e => (w1, inl e)
          | inr mn =>
              (w1, inr (PrimFloat.add (PrimFloat.sub mx mn)
                                      (penalidade st1 (funcionarios w))))
          end
      end
  end.

(** *** What the statements about the evaluator say *)

(** The object a worker id denotes: the first one registered with it. *)
Definition dono (w : Mundo) (fid : Z) : option nat :=
  snd <$> list_find (fun r => f_id (objetos w r) = fid) (funcionarios w).

(** The weight an item id denotes: that of the first item carrying it. *)
Definition peso_de (w : Mundo) (i : Z) : float :=
  match list_find (fun p => p_id p = i) (processos w) with
  | Some (_, p) => peso p
  | None => 0%float
  end.

(** The load of the object at [r] under a solution: the weights of the
    items held under its id, added one by one in the order of the
    solution, with a rounding after each addition. *)
Definition carga (w : Mundo) (cont : list (Z * list Z)) (r : nat) : float :=
  fold_left (fun acc e =>
               if decide (dono w e.1 = Some r)
               then fold_left (fun a i => PrimFloat.add a (peso_de w i)) e.2 acc
               else acc) cont 0%float.

(** The loads of all workers, one per reference of [self.funcionarios]. *)
Definition cargas (w : Mundo) (cont : list (Z * list Z)) : list float :=
  carga w cont <$> funcionarios w.

(** The capacity penalty: 1000 times the excess of each overloaded worker,
    added in the order of [self.funcionarios]. *)
Definition penalidade_total (w : Mundo) (cont : list (Z * list Z)) : float :=
  fold_left (fun acc r =>
               if PrimFloat.ltb (carga_horaria (objetos w r)) (carga w cont r)
               then PrimFloat.add acc
                      (PrimFloat.mul
                         (PrimFloat.sub (carga w cont r)
                                        (carga_horaria (objetos w r)))
                         1000%float)
               else acc) (funcionarios w) 0%float.

(** The ids of a solution all occur in the domain data. *)
Definition ids_conhecidos (w : Mundo) (cont : list (Z * list Z)) : Prop :=
  forall fid ids, (fid, ids) ∈ cont ->
    (exists r, r ∈ funcionarios w /\ f_id (objetos w r) = fid) /\
    (forall i, i ∈ ids -> exists p, p ∈ processos w /\ p_id p = i).

(** *** The formula over the reals, as the specification words it *)

(** The real number a finite binary64 value stands for. *)
Definition valor (x : float) : Q :=
  match Prim2SF x with
  | S754_finite s m e =>
      (inject_Z (if s then Z.neg m else Z.pos m) * Qpower 2 e)%Q
  | _ => 0%Q
  end.

Definition carga_real (w : Mundo) (cont : list (Z * list Z)) (r : nat) : Q :=
  fold_left (fun acc e =>
               if decide (dono w e.1 = Some r)
               then fold_left (fun a i => (a + valor (peso_de w i))%Q) e.2 acc
               else acc) cont 0%Q.

Definition fitness_real (w : Mundo) (cont : list (Z * list Z)) : Q :=
  let cs := carga_real w cont <$> funcionarios w in
  (foldr Qmax (hd 0%Q cs) cs - foldr Qmin (hd 0%Q cs) cs
   + foldr (fun r acc =>
              (excesso (valor (carga_horaria (objetos w r)))
                       (carga_real w cont r) + acc)%Q)
           0%Q (funcionarios w))%Q.

(** *** Concrete domains *)

(** One worker of capacity 5.0 and one item of weight 8.0. *)
Definition w_cenario : Mundo :=
  mkMundo (fun _ => mkFuncionario 7 {[1]} 5 3 0) [0%nat]
          [mkProcesso 0 1 8 2 1].

(** One worker; two items of weight 2^1023, the sum of which is beyond the
    largest binary64 number. *)
Definition w_estouro : Mundo :=
  mkMundo (fun _ => mkFuncionario 1 {[1]} 5 3 0) [0%nat]
          [mkProcesso 0 1 0x1p+1023 1 1; mkProcesso 1 1 0x1p+1023 1 1].

(** Two workers of capacity 10^17; items of weight 10^16, 1 and 10^16. *)
Definition w_absorve : Mundo :=
  mkMundo (fun r => mkFuncionario (Z.of_nat r + 1) {[1]} 1e17 3 0)
          [0%nat; 1%nat]
          [mkProcesso 0 1 1e16 1 1; mkProcesso 1 1 1 1 1;
           mkProcesso 2 1 1e16 1 1].

(** One worker object of capacity 5.0 registered twice, and one item of
    weight 8.0. *)
Definition w_duplicado : Mundo :=
  mkMundo (fun _ => mkFuncionario 1 {[1]} 5 3 0) [0%nat; 0%nat]
          [mkProcesso 0 1 8 2 1].

End Binario64.

(** *** Signs of binary64 values *)

(** A value of the binary64 specification that is a number without a
    negative sign: a zero, a positive number or plus infinity. *)
Definition sem_sinal (x : spec_float) : Prop :=
  match x with
  | S754_zero _ => True
  | S754_nan => False
  | S754_infinity s | S754_finite s _ _ => s = false
  end.

(** A value that is a number with the sign [s]. *)
Definition com_sinal (s : bool) (x : spec_float) : Prop :=
  match x with
  | S754_nan => False
  | S754_zero s' | S754_infinity s' | S754_finite s' _ _ => s' = s
  end.

(** The store holds the loads [L] on the objects of [self.funcionarios]
    and is otherwise that of [w]. *)
Definition estado_b64 (w : Binario64.Mundo) (st : nat -> Binario64.Funcionario)
    (L : nat -> float) : Prop :=
  forall r, st r = if decide (r ∈ Binario64.funcionarios w)
                   then Binario64.set_carga_atual (Binario64.objetos w r) (L r)
                   else Binario64.objetos w r.
(** * Proofs *)

(** ** The ascending enumeration *)

Lemma ordem_crescente_enumera : enumera ordem_crescente.
Proof.
  intros l. unfold ordem_crescente. split.
  - rewrite merge_sort_Permutation. apply NoDup_remove_dups.
  - intros i. rewrite merge_sort_Permutation. apply elem_of_remove_dups.
Qed.

Lemma ordem_crescente_elem (l : list Z) (i : Z) :
  i ∈ ordem_crescente l -> i ∈ l.
Proof. apply ordem_crescente_enumera. Qed.

Create HintDb preserva.

#[local] Instance mesmo_self_po : PreOrder mesmo_self.
Proof. split; unfold mesmo_self; [intros w | intros a b c]; congruence. Qed.
#[local] Instance mesmo_heap_po : PreOrder mesmo_heap.
Proof. split; unfold mesmo_heap; [intros w | intros a b c]; congruence. Qed.
#[local] Instance mesmo_melhor_po : PreOrder mesmo_melhor.
Proof.
  split; unfold mesmo_melhor; [intros w | intros a b c]; intuition congruence.
Qed.
#[local] Instance mesmo_dominio_po : PreOrder mesmo_dominio.
Proof.
  split; unfold mesmo_dominio; [intros w | intros a b c]; intuition congruence.
Qed.

Section Preserva.
Context (R : Mundo -> Mundo -> Prop) `{!PreOrder R}.

Lemma preserva_ret {A} (a : A) : preserva R (ret a).
Proof. intros w. simpl. reflexivity. Qed.

Lemma preserva_raise {A} e : preserva R (@raise A e).
Proof. intros w. simpl. reflexivity. Qed.

Lemma preserva_lift {A} (r : exn + A) : preserva R (lift r).
Proof. intros w. simpl. reflexivity. Qed.

Lemma preserva_bind {A B} (m : M A) (k : A -> M B) :
  preserva R m -> (forall a, preserva R (k a)) -> preserva R (bind m k).
Proof.
  intros Hm Hk w. unfold bind. specialize (Hm w).
  destruct (m w) as [w1 [e | a]]; simpl in *; [exact Hm |].
  etransitivity; [exact Hm | apply Hk].
Qed.
End Preserva.

Lemma total_ret {A} (a : A) : total (ret a).
Proof. intros w. by exists a. Qed.

Lemma total_bind {A B} (m : M A) (k : A -> M B) :
  total m -> (forall a, total (k a)) -> total (bind m k).
Proof.
  intros Hm Hk w. unfold bind. destruct (Hm w) as [a Ha].
  destruct (m w) as [w1 r]; simpl in *; subst r. apply Hk.
Qed.

Lemma choice_spec {A} (xs : list A) w :
  xs <> [] ->
  exists x, xs !! (indice (rng w) (consumidos (rng w)) mod length xs)%nat = Some x /\
    choice xs w =
      (mkMundo (self w) (heap w)
         (mkRng (uniforme (rng w)) (indice (rng w)) (S (consumidos (rng w)))),
       inr x).
Proof.
  intros Hne. unfold choice.
  destruct (lookup_lt_is_Some_2 xs
              (indice (rng w) (consumidos (rng w)) mod length xs)%nat) as [x Hx].
  { apply Nat.mod_upper_bound. destruct xs; [done | simpl; lia]. }
  exists x. by rewrite Hx.
Qed.

Lemma choice_empty {A} w : @choice A [] w = (w, inl IndexError).
Proof. reflexivity. Qed.

Lemma total_choice {A} (xs : list A) : xs <> [] -> total (choice xs).
Proof.
  intros Hne w. destruct (choice_spec xs w Hne) as (x & _ & ->). by exists x.
Qed.

Lemma preserva_choice {A} R (xs : list A) :
  (forall w, R w (mkMundo (self w) (heap w)
       (mkRng (uniforme (rng w)) (indice (rng w)) (S (consumidos (rng w)))))) ->
  (forall w, R w w) ->
  preserva R (choice xs).
Proof.
  intros HR Hrefl w. unfold choice.
  destruct (xs !! _); simpl; [apply HR | apply Hrefl].
Qed.

Lemma self_choice {A} (xs : list A) : preserva mesmo_self (choice xs).
Proof. by apply preserva_choice. Qed.

Lemma heap_choice {A} (xs : list A) : preserva mesmo_heap (choice xs).
Proof. by apply preserva_choice. Qed.

Lemma self_random : preserva mesmo_self random.
Proof. by intros w. Qed.

Lemma self_get_self : preserva mesmo_self get_self.
Proof. by intros w. Qed.

Lemma self_get_heap : preserva mesmo_self get_heap.
Proof. by intros w. Qed.

Lemma self_put_heap h : preserva mesmo_self (put_heap h).
Proof. by intros w. Qed.

Lemma self_dd_append d k v : preserva mesmo_self (dd_append d k v).
Proof. intros w. unfold dd_append. by destruct (dict_get d k). Qed.

Lemma total_dd_append d k v : total (dd_append d k v).
Proof. intros w. unfold dd_append. destruct (dict_get d k); eauto. Qed.

#[local] Hint Resolve preserva_ret preserva_raise preserva_lift self_choice
  self_random self_get_self self_get_heap self_put_heap self_dd_append
  : preserva.

Ltac preserva_step :=
  first [ solve [eauto with preserva]
        | apply preserva_bind; [typeclasses eauto | | intros ?] ].

(** ** Comparisons *)

Lemma Qltb_lt (a b : Q) : Qltb a b = true <-> (a < b)%Q.
Proof.
  unfold Qltb. rewrite negb_true_iff, <- not_true_iff_false, Qle_bool_iff.
  split; [apply Qnot_le_lt | apply Qlt_not_le].
Qed.

Lemma Qltb_ge (a b : Q) : Qltb a b = false <-> (b <= a)%Q.
Proof.
  unfold Qltb. rewrite negb_false_iff. apply Qle_bool_iff.
Qed.

(** ** The evaluator reads the optimizer object and the store only *)

Lemma calcular_fitness_ext (s : Solucao) (w1 w2 : Mundo) :
  self w1 = self w2 -> heap w1 = heap w2 ->
  (calcular_fitness s w1).2 = (calcular_fitness s w2).2.
Proof.
  intros Hs Hh. unfold calcular_fitness. rewrite Hs, Hh.
  destruct (acumula _ _ _) as [fs1 [e | []]]; simpl; [done |].
  destruct (py_max _); simpl; [done |].
  by destruct (py_min _).
Qed.

Lemma melhor_calcular_fitness s : preserva mesmo_melhor (calcular_fitness s).
Proof.
  intros w. unfold calcular_fitness.
  destruct (acumula _ _ _) as [fs1 [e | []]]; simpl; [done |].
  destruct (py_max _); simpl; [done |].
  by destruct (py_min _).
Qed.

Lemma dominio_calcular_fitness s : preserva mesmo_dominio (calcular_fitness s).
Proof.
  intros w. unfold calcular_fitness.
  destruct (acumula _ _ _) as [fs1 [e | []]]; simpl; [done |].
  destruct (py_max _); simpl; [done |].
  by destruct (py_min _).
Qed.

Lemma heap_calcular_fitness s : preserva mesmo_heap (calcular_fitness s).
Proof.
  intros w. unfold calcular_fitness.
  destruct (acumula _ _ _) as [fs1 [e | []]]; simpl; [done |].
  destruct (py_max _); simpl; [done |].
  by destruct (py_min _).
Qed.

(** ** The initializer never raises and leaves the optimizer object alone *)

Lemma self_distribuir_processos ps fs d :
  preserva mesmo_self (distribuir_processos ps fs d).
Proof.
  revert d. induction ps as [| p ps IH]; intros d; simpl.
  - eauto with preserva.
  - destruct (compativeis (categoria p) fs); [apply IH |].
    repeat preserva_step.
Qed.

Lemma total_distribuir_processos ps fs d :
  total (distribuir_processos ps fs d).
Proof.
  revert d. induction ps as [| p ps IH]; intros d; simpl.
  - apply total_ret.
  - destruct (compativeis (categoria p) fs) eqn:E; [apply IH |].
    apply total_bind; [by apply total_choice | intros f'].
    apply total_bind; [apply total_dd_append | intros d']. apply IH.
Qed.

Lemma self_gerar_solucao_aleatoria : preserva mesmo_self gerar_solucao_aleatoria.
Proof.
  unfold gerar_solucao_aleatoria. repeat preserva_step.
  apply self_distribuir_processos.
Qed.

Lemma total_gerar_solucao_aleatoria : total gerar_solucao_aleatoria.
Proof.
  unfold gerar_solucao_aleatoria.
  apply total_bind; [intros w; by eexists | intros a].
  apply total_distribuir_processos.
Qed.

Lemma self_repetir {A} n (m : M A) :
  preserva mesmo_self m -> preserva mesmo_self (repetir n m).
Proof.
  intros Hm. induction n as [| n IH]; simpl; repeat preserva_step; done.
Qed.

Lemma total_repetir {A} n (m : M A) : total m -> total (repetir n m).
Proof.
  intros Hm. induction n as [| n IH]; simpl; [apply total_ret |].
  apply total_bind; [done | intros x].
  apply total_bind; [done | intros xs]. apply total_ret.
Qed.

Lemma self_populacao_inicial : preserva mesmo_self populacao_inicial.
Proof.
  unfold populacao_inicial. repeat preserva_step.
  apply self_repetir, self_gerar_solucao_aleatoria.
Qed.

Lemma total_populacao_inicial : total populacao_inicial.
Proof.
  unfold populacao_inicial.
  apply total_bind; [intros w; by eexists | intros a].
  apply total_repetir, total_gerar_solucao_aleatoria.
Qed.

(** C9: with no worker at all, [calcular_fitness] returns no value: it raises
    [ValueError] ([max] of an empty sequence) on an empty solution and
    [StopIteration] (worker lookup) on any other. *)
Theorem calcular_fitness_sem_funcionarios (s : Solucao) (w : Mundo) :
  funcionarios (self w) = [] ->
  (calcular_fitness s w).2 =
    inl (match s with [] => ValueError | _ => StopIteration end).
Proof.
  intros Hf. unfold calcular_fitness. rewrite Hf. simpl.
  destruct s as [| [k l] s]; reflexivity.
Qed.

Lemma calcular_fitness_sem_funcionarios_witness :
  (calcular_fitness [(1, 0%nat)] w_sem_funcionarios).2 = inl StopIteration.
Proof.
  apply (calcular_fitness_sem_funcionarios [(1, 0%nat)] w_sem_funcionarios).
  reflexivity.
Defined.

Section Rates.
Variable set_iter : list Z -> list Z.

(** C8 (amended): with a rate of 0 and a draw other than exactly 0.0,
    [crossover] returns a copy of the first parent (same entries, same
    lists, hence the same fitness) and [mutacao] changes nothing. *)
Theorem taxa_zero_sem_efeito (w : Mundo) (pai1 pai2 s : Solucao) :
  (0 < uniforme (rng w) (consumidos (rng w)))%Q ->
  ((taxa_crossover (self w) == 0)%Q ->
     exists w', crossover set_iter pai1 pai2 w = (w', inr pai1) /\
       heap w' = heap w /\ self w' = self w /\
       (calcular_fitness pai1 w').2 = (calcular_fitness pai1 w).2) /\
  ((taxa_mutacao (self w) == 0)%Q ->
     exists w', mutacao s w = (w', inr tt) /\
       heap w' = heap w /\ self w' = self w).
Proof.
  intros Hr. split; intros Ht.
  - unfold crossover, bind, random, get_self. simpl.
    assert (Qltb (taxa_crossover (self w))
              (uniforme (rng w) (consumidos (rng w))) = true) as ->.
    { apply Qltb_lt. by rewrite Ht. }
    eexists. split; [reflexivity |]. simpl.
    repeat split. by apply calcular_fitness_ext.
  - unfold mutacao, bind, random, get_self. simpl.
    assert (Qltb (taxa_mutacao (self w))
              (uniforme (rng w) (consumidos (rng w))) = true) as ->.
    { apply Qltb_lt. by rewrite Ht. }
    eexists. split; [reflexivity |]. done.
Qed.

(** C3 (amended): nothing validates the configuration.  [__init__] stores
    the four parameters as given; with a generation count of 0 or less the
    run returns the initial tracked solution without raising, whatever the
    rates and the population size; with a population size of 0 or less and
    at least one generation it fails in the first generation, with
    [IndexError]. *)
Theorem configuracao_nao_validada (g p : Z) (tm tc : Q) (w : Mundo) :
  init g p tm tc = mkAG g p tm tc [] [] None Inf /\
  (num_geracoes (self w) <= 0 ->
     exists w', executar set_iter w = (w', inr (melhor_solucao (self w))) /\
                self w' = self w) /\
  (tamanho_populacao (self w) <= 0 -> 0 < num_geracoes (self w) ->
     executar set_iter w = (w, inl IndexError)).
Proof.
  split; [reflexivity | split].
  - intros Hg. unfold executar, bind.
    pose proof (self_populacao_inicial w) as Hs.
    destruct (total_populacao_inicial w) as [pop Hp].
    destruct (populacao_inicial w) as [w1 r]; simpl in *; subst r.
    unfold mesmo_self in Hs. rewrite Hs.
    replace (Z.to_nat (num_geracoes (self w))) with O by lia. simpl.
    rewrite Hs. eauto.
  - intros Hp Hg. unfold executar, bind, populacao_inicial, bind, get_self.
    replace (Z.to_nat (tamanho_populacao (self w))) with O by lia. simpl.
    destruct (Z.to_nat (num_geracoes (self w))) as [| n] eqn:E; [lia |].
    reflexivity.
Qed.

End Rates.

Lemma taxa_zero_sem_efeito_witness :
  (exists w', crossover ordem_crescente [(1, 0%nat)] [(1, 0%nat)] w_taxa_zero
              = (w', inr [(1, 0%nat)]) /\
     heap w' = heap w_taxa_zero /\ self w' = self w_taxa_zero /\
     (calcular_fitness [(1, 0%nat)] w').2
       = (calcular_fitness [(1, 0%nat)] w_taxa_zero).2) /\
  (exists w', mutacao [(1, 0%nat)] w_taxa_zero = (w', inr tt) /\
     heap w' = heap w_taxa_zero /\ self w' = self w_taxa_zero).
Proof.
  destruct (taxa_zero_sem_efeito ordem_crescente w_taxa_zero
              [(1, 0%nat)] [(1, 0%nat)] [(1, 0%nat)]) as [H1 H2].
  - reflexivity.
  - split; [apply H1 | apply H2]; reflexivity.
Defined.

Lemma configuracao_nao_validada_witness :
  (exists w', executar ordem_crescente w_sem_geracoes = (w', inr None) /\
              self w' = self w_sem_geracoes) /\
  executar ordem_crescente w_sem_populacao = (w_sem_populacao, inl IndexError).
Proof.
  split.
  - apply (configuracao_nao_validada ordem_crescente 0 0 0 0 w_sem_geracoes).
    vm_compute. discriminate.
  - apply (configuracao_nao_validada ordem_crescente 0 0 0 0 w_sem_populacao).
    + vm_compute. discriminate.
    + reflexivity.
Defined.

(** ** Sorting *)

Lemma insere_perm {A} (lt : A -> A -> bool) x l : insere lt x l ≡ₚ x :: l.
Proof.
  induction l as [| y l IH]; simpl; [done |].
  destruct (lt y x); [| done].
  rewrite IH. apply Permutation_swap.
Qed.

Lemma py_sorted_perm {A} (lt : A -> A -> bool) l : py_sorted lt l ≡ₚ l.
Proof.
  induction l as [| x l IH]; simpl; [done |].
  by rewrite insere_perm, IH.
Qed.

(** The head of the population sorted by fitness is a best member. *)
Lemma py_sorted_cabeca (l : list (Solucao * Q)) s0 f0 t :
  py_sorted (fun x y => Qltb x.2 y.2) l = (s0, f0) :: t ->
  (s0, f0) ∈ l /\ forall s f, (s, f) ∈ l -> (f0 <= f)%Q.
Proof.
  intros Hs. split.
  { rewrite <- (py_sorted_perm (fun x y => Qltb x.2 y.2) l), Hs. left. }
  revert s0 f0 t Hs. induction l as [| [sx fx] l IH]; intros s0 f0 t Hs s f Hin.
  { by apply elem_of_nil in Hin. }
  simpl in Hs. fold (py_sorted (fun x y : Solucao * Q => Qltb x.2 y.2) l) in Hs.
  destruct (py_sorted (fun x y : Solucao * Q => Qltb x.2 y.2) l)
    as [| [sh fh] t'] eqn:E.
  - assert (l = []) as ->.
    { apply Permutation_nil_r. by rewrite <- E, py_sorted_perm. }
    simpl in Hs. injection Hs as <- <- <-.
    apply list_elem_of_singleton in Hin. injection Hin as -> ->. apply Qle_refl.
  - simpl in Hs. destruct (Qltb fh fx) eqn:Hlt; injection Hs as <- <- <-.
    + apply elem_of_cons in Hin as [Heq | Hin].
      * injection Heq as -> ->. apply Qlt_le_weak. by apply Qltb_lt.
      * eapply (IH _ _ _ eq_refl). exact Hin.
    + apply Qltb_ge in Hlt.
      apply elem_of_cons in Hin as [Heq | Hin].
      * injection Heq as -> ->. apply Qle_refl.
      * eapply Qle_trans; [exact Hlt |]. eapply (IH _ _ _ eq_refl). exact Hin.
Qed.

(** ** Variation never touches the optimizer object *)

Lemma self_distribuir_ids ids d : preserva mesmo_self (distribuir_ids ids d).
Proof.
  revert d. induction ids as [| i ids IH]; intros d; simpl.
  - eauto with preserva.
  - repeat preserva_step. destruct a0; repeat preserva_step.
Qed.

Lemma self_mutacao s : preserva mesmo_self (mutacao s).
Proof.
  unfold mutacao. repeat preserva_step.
  destruct (Qltb _ _); repeat preserva_step.
  destruct (atribuidos _ _); repeat preserva_step.
  destruct (compativeis _ _); repeat preserva_step.
  destruct (dict_get _ _); repeat preserva_step.
Qed.

Lemma self_crossover set_iter p1 p2 :
  preserva mesmo_self (crossover set_iter p1 p2).
Proof.
  unfold crossover. repeat preserva_step.
  destruct (Qltb _ _); repeat preserva_step.
  apply self_distribuir_ids.
Qed.

Lemma self_gerar_filhos set_iter n melhores nova :
  preserva mesmo_self (gerar_filhos set_iter n melhores nova).
Proof.
  revert nova. induction n as [| n IH]; intros nova; simpl.
  - eauto with preserva.
  - pose proof (self_crossover set_iter). pose proof self_mutacao.
    repeat preserva_step.
Qed.

Lemma melhor_avaliar pop : preserva mesmo_melhor (avaliar pop).
Proof.
  induction pop as [| s pop IH]; simpl.
  - apply preserva_ret. typeclasses eauto.
  - apply preserva_bind; [typeclasses eauto | apply melhor_calcular_fitness |].
    intros f. apply preserva_bind; [typeclasses eauto | exact IH |].
    intros r. apply preserva_ret. typeclasses eauto.
Qed.

Lemma dominio_avaliar pop : preserva mesmo_dominio (avaliar pop).
Proof.
  induction pop as [| s pop IH]; simpl.
  - apply preserva_ret. typeclasses eauto.
  - apply preserva_bind; [typeclasses eauto | apply dominio_calcular_fitness |].
    intros f. apply preserva_bind; [typeclasses eauto | exact IH |].
    intros r. apply preserva_ret. typeclasses eauto.
Qed.

Lemma heap_avaliar pop : preserva mesmo_heap (avaliar pop).
Proof.
  induction pop as [| s pop IH]; simpl.
  - apply preserva_ret. typeclasses eauto.
  - apply preserva_bind; [typeclasses eauto | apply heap_calcular_fitness |].
    intros f. apply preserva_bind; [typeclasses eauto | exact IH |].
    intros r. apply preserva_ret. typeclasses eauto.
Qed.

Lemma fit_le_refl a : fit_le a a.
Proof. destruct a; simpl; [done | apply Qle_refl]. Qed.

Lemma fit_ltb_le f0 b : fit_ltb f0 b = true -> fit_le (Fin f0) b.
Proof.
  destruct b as [| q]; simpl; [done |]. intros H.
  apply Qlt_le_weak. by apply Qltb_lt.
Qed.

Lemma fit_le_trans a b c : fit_le a b -> fit_le b c -> fit_le a c.
Proof.
  destruct a, b, c; simpl; try done. apply Qle_trans.
Qed.

(** The loop unrolled from its last round. *)
Lemma geracoes_S set_iter n pop w :
  geracoes set_iter (S n) pop w =
  match geracoes set_iter n pop w with
  | (w1, inr p1) => geracao set_iter p1 w1
  | (w1, inl e) => (w1, inl e)
  end.
Proof.
  revert pop w. induction n as [| n IH]; intros pop w.
  - simpl. unfold bind, ret. by destruct (geracao set_iter pop w) as [w1 [e | p1]].
  - change (geracoes set_iter (S (S n)) pop w)
      with (bind (geracao set_iter pop) (geracoes set_iter (S n)) w).
    change (geracoes set_iter (S n) pop w)
      with (bind (geracao set_iter pop) (geracoes set_iter n) w).
    unfold bind. destruct (geracao set_iter pop w) as [w1 [e | p1]]; [done |].
    apply IH.
Qed.

(** What one generation does to the tracker. *)
Lemma geracao_melhor set_iter pop w :
  let w' := (geracao set_iter pop w).1 in
  mesmo_melhor w w' \/
  exists s0 f0 avaliada w1,
    avaliar pop w = (w1, inr avaliada) /\
    (s0, f0) ∈ avaliada /\
    (forall s f, (s, f) ∈ avaliada -> (f0 <= f)%Q) /\
    fit_ltb f0 (melhor_fitness (self w)) = true /\
    melhor_solucao (self w') = Some s0 /\
    melhor_fitness (self w') = Fin f0.
Proof.
  unfold geracao, bind. simpl.
  pose proof (melhor_avaliar pop w) as Hav.
  destruct (avaliar pop w) as [w1 [e | avaliada]] eqn:Eav; simpl in *; [by left |].
  destruct (py_sorted _ avaliada) as [| [s0 f0] t] eqn:Es; simpl; [by left |].
  destruct (py_sorted_cabeca _ _ _ _ Es) as [Hin Hmin].
  unfold atualiza_melhor, bind, get_self. simpl.
  destruct Hav as [Hms Hmf].
  destruct (fit_ltb f0 (melhor_fitness (self w1))) eqn:Hlt; simpl.
  - right. exists s0, f0, avaliada, w1.
    rewrite Hmf in Hlt. repeat split; try done.
    + set (k := Z.to_nat _). set (ms := sobreviventes _ _).
      pose proof (self_gerar_filhos set_iter k ms ms
                    (mkMundo (set_melhor s0 f0 (self w1)) (heap w1) (rng w1))) as H.
      unfold mesmo_self in H. simpl in H. by rewrite H.
    + set (k := Z.to_nat _). set (ms := sobreviventes _ _).
      pose proof (self_gerar_filhos set_iter k ms ms
                    (mkMundo (set_melhor s0 f0 (self w1)) (heap w1) (rng w1))) as H.
      unfold mesmo_self in H. simpl in H. by rewrite H.
  - left. unfold ret. simpl.
    set (k := Z.to_nat _). set (ms := sobreviventes _ _).
    pose proof (self_gerar_filhos set_iter k ms ms w1) as H.
    unfold mesmo_self in H. unfold mesmo_melhor. rewrite H. done.
Qed.

(** C5: the tracker starts at (none, +infinity); a generation changes it
    only to the best member of the evaluated population, and only when that
    member's fitness is strictly below the tracked one; so the tracked
    fitness after [n+1] generations is at most the one after [n], and the
    one a run ends with is at most the one it started with. *)
Theorem melhor_fitness_monotono (set_iter : list Z -> list Z)
    (g p : Z) (tm tc : Q) (n : nat) (pop : list (list (Z * nat)))
    (w : Mundo) :
  (melhor_solucao (init g p tm tc) = None /\
   melhor_fitness (init g p tm tc) = Inf) /\
  (let w' := (geracao set_iter pop w).1 in
   fit_le (melhor_fitness (self w')) (melhor_fitness (self w)) /\
   (mesmo_melhor w w' \/
    exists s0 f0 avaliada w1,
      avaliar pop w = (w1, inr avaliada) /\
      (s0, f0) ∈ avaliada /\
      (forall s f, (s, f) ∈ avaliada -> (f0 <= f)%Q) /\
      fit_ltb f0 (melhor_fitness (self w)) = true /\
      melhor_solucao (self w') = Some s0 /\
      melhor_fitness (self w') = Fin f0)) /\
  fit_le (melhor_fitness (self (geracoes set_iter (S n) pop w).1))
         (melhor_fitness (self (geracoes set_iter n pop w).1)) /\
  fit_le (melhor_fitness (self (executar set_iter w).1))
         (melhor_fitness (self w)).
Proof.
  assert (Hstep : forall pop w,
             fit_le (melhor_fitness (self (geracao set_iter pop w).1))
                    (melhor_fitness (self w))).
  { intros pop0 w0.
    destruct (geracao_melhor set_iter pop0 w0)
      as [[_ Hf] | (s0 & f0 & av & w1 & _ & _ & _ & Hlt & _ & Hf)].
    - rewrite Hf. apply fit_le_refl.
    - rewrite Hf. by apply fit_ltb_le. }
  assert (Hloop : forall k pop w,
             fit_le (melhor_fitness (self (geracoes set_iter k pop w).1))
                    (melhor_fitness (self w))).
  { induction k as [| k IH]; intros pop0 w0; simpl; [apply fit_le_refl |].
    unfold bind. specialize (Hstep pop0 w0).
    destruct (geracao set_iter pop0 w0) as [w1 [e | p1]]; simpl in *; [done |].
    eapply fit_le_trans; [apply IH | exact Hstep]. }
  split; [done | split; [split | split]].
  - apply Hstep.
  - apply geracao_melhor.
  - rewrite geracoes_S.
    destruct (geracoes set_iter n pop w) as [w1 [e | p1]]; simpl.
    + apply fit_le_refl.
    + apply Hstep.
  - unfold executar, bind.
    pose proof (self_populacao_inicial w) as Hs.
    destruct (populacao_inicial w) as [w1 [e | pop1]]; simpl in *.
    { rewrite Hs. apply fit_le_refl. }
    unfold mesmo_self in Hs. rewrite <- Hs.
    specialize (Hloop (Z.to_nat (num_geracoes (self w1))) pop1 w1).
    destruct (geracoes set_iter _ pop1 w1) as [w2 [e | p2]]; simpl in *; done.
Qed.

(** ** The evaluator computes the specified formula *)

Lemma estado_ext fs0 fs L L' :
  (forall j, (L j == L' j)%Q) -> estado fs0 fs L -> estado fs0 fs L'.
Proof.
  intros HL (Hid & Hcap & Hc). repeat split; [done.. |].
  intros j f Hj. rewrite <- HL. by apply Hc.
Qed.

Lemma estado_length fs0 fs L : estado fs0 fs L -> length fs = length fs0.
Proof.
  intros (Hid & _). by rewrite <- (length_fmap f_id fs), Hid, length_fmap.
Qed.

Lemma estado_posicao fs0 fs L fid :
  estado fs0 fs L ->
  fst <$> list_find (fun f => f_id f = fid) fs = posicao fs0 fid.
Proof.
  intros (Hid & _). unfold posicao.
  pose proof (list_find_fmap f_id (fun i => i = fid) fs) as H1.
  pose proof (list_find_fmap f_id (fun i => i = fid) fs0) as H2.
  rewrite Hid, H2 in H1. unfold compose in H1.
  destruct (list_find (fun f => f_id f = fid) fs) as [[i x] |],
           (list_find (fun f => f_id f = fid) fs0) as [[i0 x0] |];
    simpl in *; congruence.
Qed.

Lemma estado_alter fs0 fs L idx q :
  estado fs0 fs L ->
  estado fs0 (alter (fun f => set_carga_atual f (carga_atual f + q)%Q) idx fs)
         (fun j => if decide (j = idx) then (L j + q)%Q else L j).
Proof.
  intros (Hid & Hcap & Hc). repeat split.
  - rewrite <- Hid. erewrite list_fmap_alter with (h := id).
    + by apply list_alter_id.
    + by apply Forall_forall.
  - rewrite <- Hcap. erewrite list_fmap_alter with (h := id).
    + by apply list_alter_id.
    + by apply Forall_forall.
  - intros j f. rewrite list_lookup_alter.
    destruct (decide (idx = j)) as [-> | Hne].
    + destruct (fs !! j) as [f0 |] eqn:E; [| done].
      simpl. intros [= <-]. simpl. rewrite decide_True by done.
      by rewrite (Hc _ _ E).
    + intros Hj. rewrite decide_False by done. by apply Hc.
Qed.

Lemma py_next_find procs i p :
  p ∈ procs -> p_id p = i ->
  exists p', py_next (fun p => bool_decide (p_id p = i)) procs = inr p' /\
             peso_de procs i = peso p'.
Proof.
  intros Hin Hp. unfold py_next, peso_de.
  destruct (List.find _ procs) as [p' |] eqn:E; [eauto |].
  apply list_elem_of_In in Hin.
  eapply find_none in E; [| exact Hin]. by apply bool_decide_eq_false in E.
Qed.

Lemma acumula_itens_ok fs0 procs idx ids :
  (forall i, i ∈ ids -> exists p, p ∈ procs /\ p_id p = i) ->
  forall fs L, estado fs0 fs L ->
  exists fs', acumula_itens procs idx ids fs = (fs', inr tt) /\
    estado fs0 fs'
      (fun j => if decide (j = idx) then (L j + soma_pesos procs ids)%Q else L j).
Proof.
  induction ids as [| i ids IH]; intros Hids fs L He; simpl.
  - exists fs. split; [done |]. eapply estado_ext; [| exact He].
    intros j. simpl. destruct (decide (j = idx)); lra.
  - destruct (Hids i) as (p & Hp & Hpi); [left |].
    destruct (py_next_find procs i p Hp Hpi) as (p' & -> & Hw).
    destruct (IH (fun i' Hi' => Hids i' (list_elem_of_further _ _ _ Hi'))
                 _ _ (estado_alter fs0 fs L idx (peso p') He))
      as (fs' & -> & He').
    exists fs'. split; [done |]. eapply estado_ext; [| exact He'].
    intros j. simpl. rewrite Hw. destruct (decide (j = idx)); lra.
Qed.

Lemma acumula_ok fs0 procs cont :
  ids_conhecidos fs0 procs cont ->
  forall fs L, estado fs0 fs L ->
  exists fs', acumula procs cont fs = (fs', inr tt) /\
    estado fs0 fs' (fun j => (L j + carga fs0 procs cont j)%Q).
Proof.
  induction cont as [| [fid ids] cont IH]; intros Hk fs L He; simpl.
  - exists fs. split; [done |]. eapply estado_ext; [| exact He].
    intros j. simpl. lra.
  - destruct (Hk fid ids) as [(f & Hf & Hfid) Hids]; [left |].
    pose proof (estado_posicao fs0 fs L fid He) as Hpos.
    destruct (list_find (fun f => f_id f = fid) fs) as [[idx x] |] eqn:Efind.
    2:{ exfalso. simpl in Hpos. unfold posicao in Hpos.
        destruct (list_find_elem_of (fun f => f_id f = fid) fs0 f Hf Hfid)
          as [y Hy].
        rewrite Hy in Hpos. done. }
    simpl in Hpos.
    destruct (acumula_itens_ok fs0 procs idx ids Hids fs L He)
      as (fs1 & -> & He1).
    assert (Hk' : ids_conhecidos fs0 procs cont).
    { intros fid' ids' Hin. apply Hk. by right. }
    destruct (IH Hk' _ _ He1) as (fs' & -> & He').
    exists fs'. split; [done |]. eapply estado_ext; [| exact He'].
    intros j. simpl. rewrite <- Hpos.
    destruct (decide (j = idx)) as [-> | Hne].
    + rewrite decide_True by done. lra.
    + rewrite decide_False by congruence. lra.
Qed.

Lemma estado_reset fs :
  estado fs (map (fun f => set_carga_atual f 0%Q) fs) (fun _ => 0%Q).
Proof.
  repeat split.
  - change (f_id <$> ((fun f => set_carga_atual f 0%Q) <$> fs) = f_id <$> fs).
    by rewrite <- list_fmap_compose.
  - change (carga_horaria <$> ((fun f => set_carga_atual f 0%Q) <$> fs)
            = carga_horaria <$> fs).
    by rewrite <- list_fmap_compose.
  - intros j f Hj.
    change (((fun f => set_carga_atual f 0%Q) <$> fs) !! j = Some f) in Hj.
    apply list_lookup_fmap_Some in Hj as (f0 & -> & _). reflexivity.
Qed.

(** [max] and [min] return an extreme element of a non-empty sequence. *)
Lemma py_max_spec (xs : list Q) :
  xs <> [] ->
  exists m, py_max xs = inr m /\ m ∈ xs /\ forall x, x ∈ xs -> (x <= m)%Q.
Proof.
  destruct xs as [| x xs]; [done |]. intros _. simpl. eexists. split; [done |].
  revert x. induction xs as [| y xs IH]; intros x; simpl.
  - split; [left |]. intros z Hz. apply list_elem_of_singleton in Hz as ->.
    apply Qle_refl.
  - destruct (IH (if Qltb x y then y else x)) as [Hin Hmax]. split.
    + apply elem_of_cons in Hin as [-> | Hin].
      * destruct (Qltb x y); [right; left | left].
      * by do 2 right.
    + intros z Hz. apply elem_of_cons in Hz as [Hz | Hz].
      * subst z. eapply Qle_trans; [| apply Hmax; left].
        destruct (Qltb x y) eqn:E; [| apply Qle_refl].
        apply Qlt_le_weak. by apply Qltb_lt.
      * apply elem_of_cons in Hz as [Hz | Hz].
        -- subst z. eapply Qle_trans; [| apply Hmax; left].
           destruct (Qltb x y) eqn:E; [apply Qle_refl |]. by apply Qltb_ge.
        -- apply Hmax. by right.
Qed.

Lemma py_min_spec (xs : list Q) :
  xs <> [] ->
  exists m, py_min xs = inr m /\ m ∈ xs /\ forall x, x ∈ xs -> (m <= x)%Q.
Proof.
  destruct xs as [| x xs]; [done |]. intros _. simpl. eexists. split; [done |].
  revert x. induction xs as [| y xs IH]; intros x; simpl.
  - split; [left |]. intros z Hz. apply list_elem_of_singleton in Hz as ->.
    apply Qle_refl.
  - destruct (IH (if Qltb y x then y else x)) as [Hin Hmin]. split.
    + apply elem_of_cons in Hin as [-> | Hin].
      * destruct (Qltb y x); [right; left | left].
      * by do 2 right.
    + intros z Hz. apply elem_of_cons in Hz as [Hz | Hz].
      * subst z. eapply Qle_trans; [apply Hmin; left |].
        destruct (Qltb y x) eqn:E; [| apply Qle_refl].
        apply Qlt_le_weak. by apply Qltb_lt.
      * apply elem_of_cons in Hz as [Hz | Hz].
        -- subst z. eapply Qle_trans; [apply Hmin; left |].
           destruct (Qltb y x) eqn:E; [apply Qle_refl |]. by apply Qltb_ge.
        -- apply Hmin. by right.
Qed.

(** ** Binary64 arithmetic: signs and order *)

Lemma shr_1_nonneg mrs : 0 <= shr_m mrs -> 0 <= shr_m (shr_1 mrs).
Proof.
  destruct mrs as [m r s]. simpl.
  destruct m as [| [p | p |] | [p | p |]]; simpl; lia.
Qed.

Lemma iter_pos_inv {A} (P : A -> Prop) (f : A -> A) :
  (forall x, P x -> P (f x)) -> forall p x, P x -> P (SpecFloat.iter_pos f p x).
Proof.
  intros Hf p. induction p as [p IH | p IH |]; intros x Hx; simpl; auto.
Qed.

Lemma shr_fexp_nonneg m e l :
  0 <= m -> 0 <= shr_m (shr_fexp prec emax m e l).1.
Proof.
  intros Hm. unfold shr_fexp, shr.
  assert (H0 : 0 <= shr_m (shr_record_of_loc m l)).
  { destruct l as [| []]; simpl; lia. }
  destruct (fexp prec emax (Zdigits2 m + e) - e) as [| p | p]; simpl; try done.
  apply (iter_pos_inv (fun mrs => 0 <= shr_m mrs)); [apply shr_1_nonneg | done].
Qed.

Lemma round_nearest_even_nonneg m l : 0 <= m -> 0 <= round_nearest_even m l.
Proof.
  intros Hm. destruct l as [| []]; simpl; try lia.
  destruct (Z.even m); lia.
Qed.


Lemma binary_round_aux_sinal s m e l :
  0 <= m -> com_sinal s (binary_round_aux prec emax s m e l).
Proof.
  intros Hm. unfold binary_round_aux.
  pose proof (shr_fexp_nonneg m e l Hm) as H1.
  destruct (shr_fexp prec emax m e l) as [mrs' e'].
  pose proof (shr_fexp_nonneg
                (round_nearest_even (shr_m mrs') (loc_of_shr_record mrs'))
                e' loc_Exact (round_nearest_even_nonneg _ _ H1)) as H2.
  destruct (shr_fexp prec emax _ e' loc_Exact) as [mrs'' e''].
  simpl in H2. destruct (shr_m mrs'') as [| p | p]; simpl; [done | | lia].
  by destruct (e'' <=? emax - prec).
Qed.

Lemma binary_round_sinal s m e : com_sinal s (binary_round prec emax s m e).
Proof.
  unfold binary_round. destruct (shl_align _ _ _) as [mz ez].
  by apply binary_round_aux_sinal.
Qed.

Lemma binary_normalize_sem_sinal m e :
  0 <= m -> sem_sinal (binary_normalize prec emax m e false).
Proof.
  intros Hm. destruct m as [| p | p]; simpl; [done | | lia].
  pose proof (binary_round_sinal false p e) as H.
  by destruct (binary_round prec emax false p e).
Qed.

Lemma SFadd_sem_sinal x y :
  sem_sinal x -> sem_sinal y -> sem_sinal (SF64add x y).
Proof.
  destruct x as [sx | sx | | sx mx ex], y as [sy | sy | | sy my ey];
    try (simpl; done).
  - simpl. by destruct sx, sy.
  - simpl. intros -> ->. done.
  - simpl sem_sinal. intros -> ->. unfold SF64add, SFadd.
    apply binary_normalize_sem_sinal. unfold cond_Zopp.
    apply Z.add_nonneg_nonneg; apply Pos2Z.is_nonneg.
Qed.

Lemma SFmul_sem_sinal x m e :
  sem_sinal x -> sem_sinal (SF64mul x (S754_finite false m e)).
Proof.
  destruct x as [sx | sx | | sx mx ex]; try (simpl; done).
  - simpl. intros ->. done.
  - simpl sem_sinal. intros ->. unfold SF64mul, SFmul. cbn [xorb].
    pose proof (binary_round_aux_sinal false (Z.pos (mx * m)) (ex + e)
                  loc_Exact (Pos2Z.is_nonneg _)) as H.
    by destruct (binary_round_aux _ _ _ _ _ _).
Qed.

(** Validity of a finite binary64 number bounds its mantissa. *)
Lemma digits2_pos_bounds (m : positive) :
  2 ^ (Z.pos (digits2_pos m) - 1) <= Z.pos m < 2 ^ Z.pos (digits2_pos m).
Proof.
  induction m as [m IH | m IH |]; simpl digits2_pos.
  - rewrite Pos2Z.inj_succ.
    replace (Z.succ (Z.pos (digits2_pos m)) - 1)
      with (Z.succ (Z.pos (digits2_pos m) - 1)) by lia.
    rewrite !Z.pow_succ_r by lia. lia.
  - rewrite Pos2Z.inj_succ.
    replace (Z.succ (Z.pos (digits2_pos m)) - 1)
      with (Z.succ (Z.pos (digits2_pos m) - 1)) by lia.
    rewrite !Z.pow_succ_r by lia. lia.
  - simpl. lia.
Qed.

Lemma bounded_mantissa m e :
  bounded prec emax m e = true ->
  -1074 <= e /\ Z.pos m < 2 ^ 53 /\ (e = -1074 \/ 2 ^ 52 <= Z.pos m).
Proof.
  unfold bounded, canonical_mantissa, fexp, emin. intros H.
  apply andb_true_iff in H as [H _]. apply Z.eqb_eq in H.
  change (3 - emax - prec) with (-1074) in H. change prec with 53 in H.
  pose proof (digits2_pos_bounds m) as [H1 H2].
  set (d := Z.pos (digits2_pos m)) in *.
  assert (Hd : d <= 53) by lia.
  split; [lia |]. split.
  - eapply Z.lt_le_trans; [exact H2 |]. apply Z.pow_le_mono_r; lia.
  - destruct (decide (e = -1074)) as [| Hne]; [by left | right].
    assert (Heq : d = 53) by lia. rewrite Heq in H1. exact H1.
Qed.

Lemma shl_align_valor m e ez :
  ez <= e -> Z.pos (shl_align m e ez).1 = Z.pos m * 2 ^ (e - ez).
Proof.
  intros H. unfold shl_align.
  destruct (ez - e) as [| p | p] eqn:E; simpl.
  - replace (e - ez) with 0 by lia. lia.
  - lia.
  - change (Pos.iter xO m p) with (shift_pos p m).
    rewrite shift_pos_correct. rewrite Z.pow_pos_fold.
    replace (e - ez) with (Z.pos p) by lia. lia.
Qed.

(** On valid numbers of the same sign, the order read off the exponents
    and mantissas is the order of the aligned mantissas. *)
Lemma alinhados_ordem m1 e1 m2 e2 :
  bounded prec emax m1 e1 = true -> bounded prec emax m2 e2 = true ->
  match e1 ?= e2 with
  | Lt => Lt
  | Gt => Gt
  | Eq => Pos.compare_cont Eq m1 m2
  end <> Lt ->
  Z.pos (shl_align m2 e2 (e1 `min` e2)).1
    <= Z.pos (shl_align m1 e1 (e1 `min` e2)).1.
Proof.
  intros B1 B2 Hc.
  apply bounded_mantissa in B1 as (E1 & U1 & L1), B2 as (E2 & U2 & L2).
  rewrite !shl_align_valor by lia.
  destruct (Z.compare_spec e1 e2) as [-> | Hlt | Hgt]; [| done |].
  - rewrite Z.min_id, Z.sub_diag. simpl.
    change (Pos.compare_cont Eq m1 m2) with (Pos.compare m1 m2) in Hc.
    destruct (Pos.compare_spec m1 m2); [lia | done | lia].
  - rewrite Z.min_r by lia. rewrite Z.sub_diag.
    destruct L1 as [-> | L1]; [lia |].
    assert (2 <= 2 ^ (e1 - e2)).
    { change 2 with (2 ^ 1) at 1. apply Z.pow_le_mono_r; lia. }
    nia.
Qed.

(** The difference of two comparable numbers, the first at least the
    second, has no negative sign; it is undefined only for two equal
    infinities. *)
Lemma SFsub_sem_sinal x y :
  valid_binary x = true -> valid_binary y = true ->
  SFcompare x y = Some Gt \/ SFcompare x y = Some Eq ->
  sem_sinal (SF64sub x y) \/
  exists s, x = S754_infinity s /\ y = S754_infinity s.
Proof.
  intros Vx Vy Hc.
  destruct x as [sx | sx | | sx mx ex], y as [sy | sy | | sy my ey];
    try (simpl in Hc; destruct Hc; done).
  - left. simpl. by destruct sx, sy.
  - left. simpl. by destruct sy; simpl in Hc; destruct Hc.
  - left. simpl. by destruct sy; simpl in Hc; destruct Hc.
  - left. simpl. by destruct sx; simpl in Hc; destruct Hc.
  - destruct sx, sy; simpl in Hc; try (destruct Hc; done).
    + right. by exists true.
    + left. done.
    + right. by exists false.
  - left. simpl. by destruct sx; simpl in Hc; destruct Hc.
  - left. simpl. by destruct sx; simpl in Hc; destruct Hc.
  - left. simpl. by destruct sy; simpl in Hc; destruct Hc.
  - left. unfold SF64sub, SFsub. apply binary_normalize_sem_sinal.
    simpl in Vx, Vy.
    destruct sx, sy; simpl in Hc; unfold cond_Zopp.
    + assert (H : match ey ?= ex with
                  | Lt => Lt | Gt => Gt | Eq => Pos.compare_cont Eq my mx
                  end <> Lt).
      { rewrite Z.compare_antisym.
        destruct (ex ?= ey) eqn:E; simpl in *;
          try (destruct Hc; congruence).
        change (Pos.compare_cont Eq my mx) with (Pos.compare my mx).
        rewrite Pos.compare_antisym.
        change (Pos.compare_cont Eq mx my) with (Pos.compare mx my) in Hc.
        destruct (Pos.compare mx my); simpl in *; destruct Hc; congruence. }
      pose proof (alinhados_ordem my ey mx ex Vy Vx H) as Hle.
      rewrite Z.min_comm in Hle. lia.
    + destruct Hc; done.
    + pose proof (Pos2Z.is_pos (shl_align mx ex (ex `min` ey)).1).
      pose proof (Pos2Z.is_pos (shl_align my ey (ex `min` ey)).1). lia.
    + assert (H : match ex ?= ey with
                  | Lt => Lt | Gt => Gt | Eq => Pos.compare_cont Eq mx my
                  end <> Lt).
      { destruct (ex ?= ey); destruct Hc; congruence. }
      pose proof (alinhados_ordem mx ex my ey Vx Vy H) as Hle. lia.
Qed.

(** *** From the specification to the primitive operations *)

Lemma SFcompare_refl x : x <> S754_nan -> SFcompare x x = Some Eq.
Proof.
  destruct x as [s | s | | s m e]; simpl; try done.
  - by destruct s.
  - intros _. rewrite Z.compare_refl.
    change (Pos.compare_cont Eq m m) with (Pos.compare m m).
    rewrite Pos.compare_refl. by destruct s.
Qed.

Lemma is_nan_SF x : is_nan x = true <-> Prim2SF x = S754_nan.
Proof.
  unfold is_nan. rewrite FloatAxioms.eqb_spec. unfold SFeqb. split.
  - intros H. destruct (Prim2SF x) as [s | s | | s m e] eqn:E; [| | done |].
    + by rewrite (SFcompare_refl (S754_zero s)) in H.
    + by rewrite (SFcompare_refl (S754_infinity s)) in H.
    + by rewrite (SFcompare_refl (S754_finite s m e)) in H.
  - intros ->. done.
Qed.

Lemma leb_zero_SF x : sem_sinal (Prim2SF x) -> (0 <=? x)%float = true.
Proof.
  rewrite FloatAxioms.leb_spec. change (Prim2SF 0) with (S754_zero false).
  unfold SFleb. destruct (Prim2SF x) as [s | s | | s m e]; simpl; try done.
  - by intros ->.
  - by intros ->.
Qed.

Lemma ltb_SF x y :
  (x <? y)%float = true <-> SFcompare (Prim2SF x) (Prim2SF y) = Some Lt.
Proof.
  rewrite FloatAxioms.ltb_spec. unfold SFltb.
  destruct (SFcompare _ _) as [[] |]; split; done.
Qed.

Lemma nao_ltb_SF x y :
  (x <? y)%float = false ->
  SFcompare (Prim2SF x) (Prim2SF y) = Some Gt \/
  SFcompare (Prim2SF x) (Prim2SF y) = Some Eq \/
  Prim2SF x = S754_nan \/ Prim2SF y = S754_nan.
Proof.
  rewrite FloatAxioms.ltb_spec. unfold SFltb.
  destruct (SFcompare _ _) as [[] |] eqn:E; try done; auto.
  intros _. right. right.
  destruct (Prim2SF x) as [| | |], (Prim2SF y) as [| | |]; simpl in E;
    try done; auto.
Qed.

Lemma SFcompare_sym x y c :
  SFcompare x y = Some c -> SFcompare y x = Some (CompOpp c).
Proof.
  destruct x as [sx | sx | | sx mx ex], y as [sy | sy | | sy my ey];
    simpl; try done; intros [= <-]; try (by destruct sx); try (by destruct sy);
    try (by destruct sx, sy).
  f_equal. rewrite (Z.compare_antisym ex ey).
  change (Pos.compare_cont Eq my mx) with (Pos.compare my mx).
  change (Pos.compare_cont Eq mx my) with (Pos.compare mx my).
  rewrite (Pos.compare_antisym mx my).
  destruct sx, sy; try done; destruct (ex ?= ey); simpl; try done;
    by destruct (Pos.compare mx my).
Qed.

Lemma is_finite_SF x :
  is_finite x = true ->
  match Prim2SF x with
  | S754_zero _ | S754_finite _ _ _ => True
  | _ => False
  end.
Proof.
  unfold is_finite, is_infinity. rewrite negb_true_iff, orb_false_iff.
  intros [Hn Hi]. rewrite FloatAxioms.eqb_spec, FloatAxioms.abs_spec in Hi.
  change (Prim2SF infinity) with (S754_infinity false) in Hi.
  destruct (Prim2SF x) as [s | s | | s m e] eqn:E; try done.
  assert (is_nan x = true) by (by apply is_nan_SF). congruence.
Qed.

(** [<] on binary64 is transitive and irreflexive. *)
Lemma SFcompare_Lt_trans x y z :
  SFcompare x y = Some Lt -> SFcompare y z = Some Lt ->
  SFcompare x z = Some Lt.
Proof.
  destruct x as [sx | sx | | sx mx ex], y as [sy | sy | | sy my ey],
           z as [sz | sz | | sz mz ez]; simpl; try done;
    try (destruct sx; done); try (destruct sy; done); try (destruct sz; done);
    try (destruct sx, sy; done); try (destruct sy, sz; done);
    try (destruct sx, sz; done); try (destruct sx, sy, sz; done).
  change (Pos.compare_cont Eq mx my) with (Pos.compare mx my).
  change (Pos.compare_cont Eq my mz) with (Pos.compare my mz).
  change (Pos.compare_cont Eq mx mz) with (Pos.compare mx mz).
  destruct sx, sy, sz; try done;
    destruct (Z.compare_spec ex ey), (Z.compare_spec ey ez),
             (Z.compare_spec ex ez); try done; try lia;
    destruct (Pos.compare_spec mx my), (Pos.compare_spec my mz),
             (Pos.compare_spec mx mz); simpl; try done; try lia.
Qed.

Lemma ltb_trans x y z :
  (x <? y)%float = true -> (y <? z)%float = true -> (x <? z)%float = true.
Proof. rewrite !ltb_SF. apply SFcompare_Lt_trans. Qed.

Lemma ltb_irrefl x : (x <? x)%float = false.
Proof.
  rewrite FloatAxioms.ltb_spec. unfold SFltb.
  destruct (Prim2SF x) as [s | s | | s m e] eqn:E; [| | done |].
  - by rewrite (SFcompare_refl (S754_zero s)).
  - by rewrite (SFcompare_refl (S754_infinity s)).
  - by rewrite (SFcompare_refl (S754_finite s m e)).
Qed.

(** ** The evaluator in machine arithmetic *)

(** [next] over a generator and the first match of [list_find]. *)
Lemma py_next_list_find {A} (P : A -> Prop) `{!forall x, Decision (P x)}
    (xs : list A) :
  py_next (fun x => bool_decide (P x)) xs
  = match list_find P xs with
    | Some (_, x) => inr x
    | None => inl StopIteration
    end.
Proof.
  unfold py_next. induction xs as [| x xs IH]; simpl; [done |].
  destruct (decide (P x)) as [Hx | Hx].
  - by rewrite bool_decide_eq_true_2.
  - rewrite bool_decide_eq_false_2 by done.
    destruct (List.find _ xs), (list_find P xs) as [[j y] |];
      simpl in *; congruence.
Qed.


Lemma reinicia_spec refs st r :
  Binario64.reinicia refs st r
  = if decide (r ∈ refs) then Binario64.set_carga_atual (st r) 0%float else st r.
Proof.
  unfold Binario64.reinicia. revert st.
  induction refs as [| r0 refs IH]; intros st; cbn [fold_left].
  - destruct (decide (r ∈ [])) as [H | _]; [| done]. by apply elem_of_nil in H.
  - rewrite IH. unfold Binario64.escreve.
    destruct (decide (r = r0)) as [-> | Hne].
    + rewrite (decide_True (P := r0 ∈ r0 :: refs)) by left.
      by destruct (decide (r0 ∈ refs)).
    + destruct (decide (r ∈ refs)) as [Hin | Hin].
      * rewrite decide_True by (by right). done.
      * rewrite decide_False; [done |].
        intros [? | ?]%elem_of_cons; done.
Qed.

Lemma reinicia_estado (w : Binario64.Mundo) :
  estado_b64 w (Binario64.reinicia (Binario64.funcionarios w) (Binario64.objetos w)) (fun _ => 0%float).
Proof. intros r. apply reinicia_spec. Qed.

Lemma estado_b64_id w st L r : estado_b64 w st L -> Binario64.f_id (st r) = Binario64.f_id (Binario64.objetos w r).
Proof. intros H. rewrite (H r). by destruct (decide _). Qed.

Lemma estado_b64_cap w st L r :
  estado_b64 w st L -> Binario64.carga_horaria (st r) = Binario64.carga_horaria (Binario64.objetos w r).
Proof. intros H. rewrite (H r). by destruct (decide _). Qed.

Lemma estado_b64_carga w st L r :
  estado_b64 w st L -> r ∈ Binario64.funcionarios w -> Binario64.carga_atual (st r) = L r.
Proof. intros H Hr. rewrite (H r). by rewrite decide_True. Qed.

Lemma estado_b64_escreve w st L r c :
  estado_b64 w st L -> r ∈ Binario64.funcionarios w ->
  estado_b64 w (Binario64.escreve st r (Binario64.set_carga_atual (st r) c))
           (fun r' => if decide (r' = r) then c else L r').
Proof.
  intros H Hr r'. unfold Binario64.escreve.
  destruct (decide (r' = r)) as [-> | Hne].
  - rewrite decide_True by done. rewrite (H r), decide_True by done. done.
  - apply H.
Qed.

Lemma estado_b64_ext w st L L' :
  (forall r, r ∈ Binario64.funcionarios w -> L r = L' r) ->
  estado_b64 w st L -> estado_b64 w st L'.
Proof.
  intros HL H r. rewrite (H r).
  destruct (decide (r ∈ Binario64.funcionarios w)) as [Hr | Hr]; [| done].
  by rewrite HL.
Qed.

Lemma peso_de_next w i p :
  p ∈ Binario64.processos w -> Binario64.p_id p = i ->
  exists p', py_next (fun p => bool_decide (Binario64.p_id p = i)) (Binario64.processos w)
             = inr p' /\ Binario64.peso_de w i = Binario64.peso p'.
Proof.
  intros Hin Hp. rewrite (py_next_list_find (fun p => Binario64.p_id p = i)).
  unfold Binario64.peso_de.
  destruct (list_find_elem_of (fun p => Binario64.p_id p = i) _ p Hin Hp) as [[j p'] E].
  rewrite E. by exists p'.
Qed.

Lemma acumula_itens_b w r ids :
  r ∈ Binario64.funcionarios w ->
  (forall i, i ∈ ids -> exists p, p ∈ Binario64.processos w /\ Binario64.p_id p = i) ->
  forall st L, estado_b64 w st L ->
  exists st', Binario64.acumula_itens (Binario64.processos w) r ids st = (st', inr tt) /\
    estado_b64 w st'
      (fun r' => if decide (r' = r)
                 then fold_left (fun a i => PrimFloat.add a (Binario64.peso_de w i))
                                ids (L r)
                 else L r').
Proof.
  intros Hr. induction ids as [| i ids IH]; intros Hids st L He; simpl.
  - exists st. split; [done |]. eapply estado_b64_ext; [| exact He].
    intros r' _. by destruct (decide (r' = r)) as [-> |].
  - destruct (Hids i) as (p & Hp & Hpi); [left |].
    destruct (peso_de_next w i p Hp Hpi) as (p' & -> & Hw).
    destruct (IH (fun i' Hi' => Hids i' (list_elem_of_further _ _ _ Hi'))
                 _ _ (estado_b64_escreve w st L r
                        (PrimFloat.add (Binario64.carga_atual (st r)) (Binario64.peso p'))
                        He Hr))
      as (st' & -> & He').
    exists st'. split; [done |]. eapply estado_b64_ext; [| exact He'].
    intros r' _. simpl. destruct (decide (r' = r)) as [-> |]; [| done].
    rewrite decide_True by done.
    by rewrite Hw, (estado_b64_carga w st L r He Hr).
Qed.

Lemma dono_next w st L fid :
  estado_b64 w st L ->
  py_next (fun r => bool_decide (Binario64.f_id (st r) = fid)) (Binario64.funcionarios w)
  = match Binario64.dono w fid with
    | Some r => inr r
    | None => inl StopIteration
    end.
Proof.
  intros He. rewrite (py_next_list_find (fun r => Binario64.f_id (st r) = fid)).
  unfold Binario64.dono.
  assert (Heq : list_find (fun r => Binario64.f_id (st r) = fid) (Binario64.funcionarios w)
                = list_find (fun r => Binario64.f_id (Binario64.objetos w r) = fid)
                            (Binario64.funcionarios w)).
  { apply list_find_ext. intros r. by rewrite (estado_b64_id w st L r He). }
  rewrite Heq. clear Heq. by destruct (list_find _ _) as [[j r] |].
Qed.

Lemma dono_elem w fid r : Binario64.dono w fid = Some r -> r ∈ Binario64.funcionarios w.
Proof.
  unfold Binario64.dono. destruct (list_find _ _) as [[j r'] |] eqn:E; [| done].
  intros [= <-]. apply list_find_Some in E as (E & _ & _).
  by eapply list_elem_of_lookup_2.
Qed.

Lemma acumula_b w cont :
  Binario64.ids_conhecidos w cont ->
  forall st L, estado_b64 w st L ->
  exists st', Binario64.acumula (Binario64.processos w) (Binario64.funcionarios w) cont st
              = (st', inr tt) /\
    estado_b64 w st'
      (fun r => fold_left
         (fun acc e =>
            if decide (Binario64.dono w e.1 = Some r)
            then fold_left (fun a i => PrimFloat.add a (Binario64.peso_de w i)) e.2 acc
            else acc) cont (L r)).
Proof.
  induction cont as [| [fid ids] cont IH]; intros Hk st L He; simpl.
  - by exists st.
  - destruct (Hk fid ids) as [(r0 & Hr0 & Hfid) Hids]; [left |].
    rewrite (dono_next w st L fid He).
    destruct (Binario64.dono w fid) as [r |] eqn:Ed.
    2:{ exfalso. unfold Binario64.dono in Ed.
        destruct (list_find_elem_of
                    (fun r => Binario64.f_id (Binario64.objetos w r) = fid) _ r0 Hr0 Hfid)
          as [y Hy].
        by rewrite Hy in Ed. }
    pose proof (dono_elem w fid r Ed) as Hr.
    destruct (acumula_itens_b w r ids Hr Hids st L He) as (st1 & -> & He1).
    assert (Hk' : Binario64.ids_conhecidos w cont).
    { intros fid' ids' Hin. apply Hk. by right. }
    destruct (IH Hk' _ _ He1) as (st' & -> & He').
    exists st'. split; [done |]. eapply estado_b64_ext; [| exact He'].
    intros r' _. simpl. f_equal.
    destruct (decide (r' = r)) as [-> | Hne].
    + by rewrite decide_True.
    + rewrite decide_False; [done |]. congruence.
Qed.

(** [max] returns an element that no element exceeds, [min] one that
    exceeds no element; with a NaN in the sequence that is all there is to
    say. *)
Lemma py_max_b_spec (xs : list float) :
  xs <> [] ->
  exists m, Binario64.py_max xs = inr m /\ m ∈ xs /\
            forall c, c ∈ xs -> PrimFloat.ltb m c = false.
Proof.
  destruct xs as [| x xs]; [done |]. intros _. simpl. eexists. split; [done |].
  assert (Hgen : forall seen m,
    m ∈ seen -> (forall c, c ∈ seen -> PrimFloat.ltb m c = false) ->
    let m' := fold_left (fun m y => if PrimFloat.ltb m y then y else m) xs m in
    m' ∈ seen ++ xs /\
    forall c, c ∈ seen ++ xs -> PrimFloat.ltb m' c = false).
  { induction xs as [| y xs IH]; intros seen m Hm Hall; simpl.
    - rewrite app_nil_r. done.
    - replace (seen ++ y :: xs) with ((seen ++ [y]) ++ xs)
        by (by rewrite <- (assoc_L (++))).
      apply IH.
      + destruct (PrimFloat.ltb m y); apply elem_of_app; [right; left | by left].
      + intros c [Hc | ->%list_elem_of_singleton]%elem_of_app.
        * destruct (PrimFloat.ltb m y) eqn:E; [| by apply Hall].
          destruct (PrimFloat.ltb y c) eqn:E'; [| done].
          rewrite <- (Hall c Hc). symmetry. by eapply ltb_trans.
        * destruct (PrimFloat.ltb m y) eqn:E; [apply ltb_irrefl | done]. }
  destruct (Hgen [x] x) as [H1 H2]; [left | |].
  - intros c ->%list_elem_of_singleton. apply ltb_irrefl.
  - done.
Qed.

Lemma py_min_b_spec (xs : list float) :
  xs <> [] ->
  exists m, Binario64.py_min xs = inr m /\ m ∈ xs /\
            forall c, c ∈ xs -> PrimFloat.ltb c m = false.
Proof.
  destruct xs as [| x xs]; [done |]. intros _. simpl. eexists. split; [done |].
  assert (Hgen : forall seen m,
    m ∈ seen -> (forall c, c ∈ seen -> PrimFloat.ltb c m = false) ->
    let m' := fold_left (fun m y => if PrimFloat.ltb y m then y else m) xs m in
    m' ∈ seen ++ xs /\
    forall c, c ∈ seen ++ xs -> PrimFloat.ltb c m' = false).
  { induction xs as [| y xs IH]; intros seen m Hm Hall; simpl.
    - rewrite app_nil_r. done.
    - replace (seen ++ y :: xs) with ((seen ++ [y]) ++ xs)
        by (by rewrite <- (assoc_L (++))).
      apply IH.
      + destruct (PrimFloat.ltb y m); apply elem_of_app; [right; left | by left].
      + intros c [Hc | ->%list_elem_of_singleton]%elem_of_app.
        * destruct (PrimFloat.ltb y m) eqn:E; [| by apply Hall].
          destruct (PrimFloat.ltb c y) eqn:E'; [| done].
          rewrite <- (Hall c Hc). symmetry. by eapply ltb_trans.
        * destruct (PrimFloat.ltb y m) eqn:E; [apply ltb_irrefl | done]. }
  destruct (Hgen [x] x) as [H1 H2]; [left | |].
  - intros c ->%list_elem_of_singleton. apply ltb_irrefl.
  - done.
Qed.

Lemma penalidade_b w st cont :
  estado_b64 w st (Binario64.carga w cont) ->
  Binario64.penalidade st (Binario64.funcionarios w) = Binario64.penalidade_total w cont.
Proof.
  intros He. unfold Binario64.penalidade, Binario64.penalidade_total.
  assert (Hgen : forall refs acc,
    (forall r, r ∈ refs -> r ∈ Binario64.funcionarios w) ->
    fold_left (fun acc r =>
       if PrimFloat.ltb (Binario64.carga_horaria (st r)) (Binario64.carga_atual (st r))
       then PrimFloat.add acc
              (PrimFloat.mul
                 (PrimFloat.sub (Binario64.carga_atual (st r)) (Binario64.carga_horaria (st r)))
                 1000%float)
       else acc) refs acc
    = fold_left (fun acc r =>
       if PrimFloat.ltb (Binario64.carga_horaria (Binario64.objetos w r)) (Binario64.carga w cont r)
       then PrimFloat.add acc
              (PrimFloat.mul
                 (PrimFloat.sub (Binario64.carga w cont r)
                                (Binario64.carga_horaria (Binario64.objetos w r)))
                 1000%float)
       else acc) refs acc).
  { induction refs as [| r refs IH]; intros acc Hin; simpl; [done |].
    rewrite (estado_b64_cap w st _ r He),
            (estado_b64_carga w st _ r He) by (apply Hin; left).
    apply IH. intros r' Hr'. apply Hin. by right. }
  by apply Hgen.
Qed.

(** What an evaluation returns and leaves, on known ids and with at least
    one worker. *)
Lemma calcular_fitness_b_valor cont w :
  Binario64.funcionarios w <> [] -> Binario64.ids_conhecidos w cont ->
  exists st mx mn,
    Binario64.calcular_fitness cont w
      = (Binario64.mkMundo st (Binario64.funcionarios w) (Binario64.processos w),
         inr (PrimFloat.add (PrimFloat.sub mx mn) (Binario64.penalidade_total w cont))) /\
    estado_b64 w st (Binario64.carga w cont) /\
    Binario64.py_max (Binario64.cargas w cont) = inr mx /\
    Binario64.py_min (Binario64.cargas w cont) = inr mn.
Proof.
  intros Hne Hk.
  destruct (acumula_b w cont Hk _ _ (reinicia_estado w)) as (st & Hac & He).
  change (estado_b64 w st (Binario64.carga w cont)) in He.
  assert (Hc : map (fun r => Binario64.carga_atual (st r)) (Binario64.funcionarios w)
               = Binario64.cargas w cont).
  { unfold Binario64.cargas. apply list_fmap_ext. intros j r Hj.
    apply (estado_b64_carga w st _ r He). by eapply list_elem_of_lookup_2. }
  assert (Hne' : Binario64.cargas w cont <> []).
  { unfold Binario64.cargas. by destruct (Binario64.funcionarios w). }
  destruct (py_max_b_spec _ Hne') as (mx & Hmx & _).
  destruct (py_min_b_spec _ Hne') as (mn & Hmn & _).
  exists st, mx, mn. split; [| done].
  unfold Binario64.calcular_fitness. rewrite Hac, Hc, Hmx, Hmn.
  by rewrite (penalidade_b w st cont He).
Qed.

Lemma excesso_sem_sinal acc cap load :
  sem_sinal (Prim2SF acc) -> PrimFloat.ltb cap load = true ->
  sem_sinal (Prim2SF (PrimFloat.add acc
                        (PrimFloat.mul (PrimFloat.sub load cap) 1000%float))).
Proof.
  intros Hacc Hlt. rewrite FloatAxioms.add_spec, FloatAxioms.mul_spec,
    FloatAxioms.sub_spec.
  change (Prim2SF 1000) with (S754_finite false 8796093022208000 (-43)).
  apply SFadd_sem_sinal; [done |]. apply SFmul_sem_sinal.
  apply ltb_SF in Hlt. apply SFcompare_sym in Hlt. simpl in Hlt.
  destruct (SFsub_sem_sinal (Prim2SF load) (Prim2SF cap)
              (Prim2SF_valid _) (Prim2SF_valid _) (or_introl Hlt))
    as [H | (s & H1 & H2)]; [done |].
  rewrite H1, H2 in Hlt. by destruct s.
Qed.

Lemma penalidade_total_sem_sinal w cont :
  sem_sinal (Prim2SF (Binario64.penalidade_total w cont)).
Proof.
  unfold Binario64.penalidade_total.
  assert (Hgen : forall refs acc, sem_sinal (Prim2SF acc) ->
    sem_sinal (Prim2SF (fold_left (fun acc r =>
       if PrimFloat.ltb (Binario64.carga_horaria (Binario64.objetos w r)) (Binario64.carga w cont r)
       then PrimFloat.add acc
              (PrimFloat.mul
                 (PrimFloat.sub (Binario64.carga w cont r)
                                (Binario64.carga_horaria (Binario64.objetos w r)))
                 1000%float)
       else acc) refs acc))).
  { induction refs as [| r refs IH]; intros acc Hacc; simpl; [done |].
    apply IH. destruct (PrimFloat.ltb _ _) eqn:E; [| done].
    by apply excesso_sem_sinal. }
  apply Hgen. done.
Qed.

(** The spread [mx - mn] of two loads, the second not above the first, has
    no negative sign, or is NaN; it is not NaN when both are finite. *)
Lemma diferenca_sem_sinal mx mn :
  PrimFloat.ltb mx mn = false ->
  (sem_sinal (Prim2SF (PrimFloat.sub mx mn)) \/
   Prim2SF (PrimFloat.sub mx mn) = S754_nan) /\
  (is_finite mx = true -> is_finite mn = true ->
   sem_sinal (Prim2SF (PrimFloat.sub mx mn))).
Proof.
  intros Hlt. rewrite FloatAxioms.sub_spec.
  pose proof (Prim2SF_valid mx) as Vx. pose proof (Prim2SF_valid mn) as Vn.
  destruct (nao_ltb_SF _ _ Hlt) as [Hc | [Hc | [Hc | Hc]]].
  - destruct (SFsub_sem_sinal _ _ Vx Vn (or_introl Hc)) as [H | (s & H1 & H2)].
    + split; [by left | done].
    + rewrite H1, H2 in Hc. by destruct s.
  - destruct (SFsub_sem_sinal _ _ Vx Vn (or_intror Hc)) as [H | (s & H1 & H2)].
    + split; [by left | done].
    + split.
      * right. rewrite H1, H2. by destruct s.
      * intros Hf _. apply is_finite_SF in Hf. by rewrite H1 in Hf.
  - split.
    + right. rewrite Hc. done.
    + intros Hf _. apply is_finite_SF in Hf. by rewrite Hc in Hf.
  - split.
    + right. rewrite Hc. by destruct (Prim2SF mx).
    + intros _ Hf. apply is_finite_SF in Hf. by rewrite Hc in Hf.
Qed.

(** C4 (amended): on a solution whose ids all occur in the domain data
    and with at least one worker, [calcular_fitness] returns, in binary64
    arithmetic, the spread of the loads plus the capacity penalty: the
    loads are the sums of the weights, rounded after each addition; [mx] is
    a load that no load exceeds and [mn] a load that exceeds no load, over
    all workers; the penalty adds 1000 times the excess of each overloaded
    worker.  The value is not negative or is NaN, and it is not NaN when
    all loads are finite.  It is 3000.0 for one worker of capacity 5.0
    holding one item of weight 8.0. *)
Theorem calcular_fitness_binario64 (cont : list (Z * list Z))
    (w : Binario64.Mundo) :
  Binario64.funcionarios w <> [] ->
  Binario64.ids_conhecidos w cont ->
  exists w' v mx mn,
    Binario64.calcular_fitness cont w = (w', inr v) /\
    mx ∈ Binario64.cargas w cont /\
    (forall c, c ∈ Binario64.cargas w cont -> PrimFloat.ltb mx c = false) /\
    mn ∈ Binario64.cargas w cont /\
    (forall c, c ∈ Binario64.cargas w cont -> PrimFloat.ltb c mn = false) /\
    v = PrimFloat.add (PrimFloat.sub mx mn)
                      (Binario64.penalidade_total w cont) /\
    (PrimFloat.leb 0 v = true \/ PrimFloat.is_nan v = true) /\
    ((forall c, c ∈ Binario64.cargas w cont -> is_finite c = true) ->
     PrimFloat.leb 0 v = true) /\
    (forall r p,
       Binario64.funcionarios w = [r] -> Binario64.processos w = [p] ->
       cont = [(Binario64.f_id (Binario64.objetos w r), [Binario64.p_id p])] ->
       Binario64.carga_horaria (Binario64.objetos w r) = 5%float ->
       Binario64.peso p = 8%float ->
       v = 3000%float).
Proof.
  intros Hne Hk.
  destruct (calcular_fitness_b_valor cont w Hne Hk)
    as (st & mx & mn & Hv & He & Hmx & Hmn).
  assert (Hne' : Binario64.cargas w cont <> []).
  { unfold Binario64.cargas. by destruct (Binario64.funcionarios w). }
  destruct (py_max_b_spec _ Hne') as (mx' & Hmx' & Hmxin & Hmxall).
  destruct (py_min_b_spec _ Hne') as (mn' & Hmn' & Hmnin & Hmnall).
  rewrite Hmx in Hmx'. injection Hmx' as <-.
  rewrite Hmn in Hmn'. injection Hmn' as <-.
  destruct (diferenca_sem_sinal mx mn (Hmxall mn Hmnin)) as [Hd Hdf].
  pose proof (penalidade_total_sem_sinal w cont) as Hp.
  eexists _, _, mx, mn. split; [exact Hv |].
  do 4 (split; [done |]). split; [done |]. split; [| split].
  - destruct Hd as [Hd | Hd].
    + left. apply leb_zero_SF. rewrite FloatAxioms.add_spec.
      by apply SFadd_sem_sinal.
    + right. apply is_nan_SF. rewrite FloatAxioms.add_spec, Hd. done.
  - intros Hfin. apply leb_zero_SF. rewrite FloatAxioms.add_spec.
    apply SFadd_sem_sinal; [| done]. apply Hdf; by apply Hfin.
  - intros r p Hfs Hps Hcont Hcap Hpeso.
    assert (Hdono : Binario64.dono w (Binario64.f_id (Binario64.objetos w r))
                    = Some r).
    { unfold Binario64.dono. rewrite Hfs. simpl. by rewrite decide_True. }
    assert (Hpd : Binario64.peso_de w (Binario64.p_id p) = 8%float).
    { unfold Binario64.peso_de. rewrite Hps. simpl. by rewrite decide_True. }
    assert (Hcarga : Binario64.carga w cont r = 8%float).
    { unfold Binario64.carga. rewrite Hcont. simpl.
      rewrite decide_True by done. simpl. by rewrite Hpd. }
    assert (Hcs : Binario64.cargas w cont = [8%float]).
    { unfold Binario64.cargas. rewrite Hfs. simpl. by rewrite Hcarga. }
    rewrite Hcs in Hmxin, Hmnin.
    apply list_elem_of_singleton in Hmxin as ->.
    apply list_elem_of_singleton in Hmnin as ->.
    unfold Binario64.penalidade_total. rewrite Hfs. simpl.
    rewrite Hcarga, Hcap. reflexivity.
Qed.

Lemma ids_conhecidos_check (w : Binario64.Mundo) (cont : list (Z * list Z)) :
  Forall (fun e =>
     Exists (fun r => Binario64.f_id (Binario64.objetos w r) = e.1)
            (Binario64.funcionarios w) /\
     Forall (fun i => Exists (fun p => Binario64.p_id p = i)
                             (Binario64.processos w)) e.2) cont ->
  Binario64.ids_conhecidos w cont.
Proof.
  intros H fid ids Hin. rewrite Forall_forall in H.
  destruct (H _ Hin) as [H1 H2]. simpl in *. split.
  - apply Exists_exists in H1 as (r & Hr & Hid). by exists r.
  - intros i Hi. rewrite Forall_forall in H2. specialize (H2 i Hi).
    apply Exists_exists in H2 as (p & Hp & Hid). by exists p.
Qed.

Lemma calcular_fitness_binario64_witness :
  exists v, (Binario64.calcular_fitness [(7, [0])] Binario64.w_cenario).2 = inr v /\
    v = 3000%float /\ PrimFloat.leb 0 v = true.
Proof.
  destruct (calcular_fitness_binario64 [(7, [0])] Binario64.w_cenario)
    as (w' & v & mx & mn & Hv & _ & _ & _ & _ & _ & _ & _ & Hcen).
  - discriminate.
  - apply ids_conhecidos_check. apply (bool_decide_unpack _). vm_compute.
    exact I.
  - exists v. split; [by rewrite Hv |].
    assert (H3000 : v = 3000%float).
    { apply (Hcen 0%nat (Binario64.mkProcesso 0 1 8 2 1)); reflexivity. }
    split; [exact H3000 |]. rewrite H3000. reflexivity.
Defined.

(** C4, as stated, fails: the evaluator computes in binary64, not over the
    reals.  With one worker and two items of weight 2^1023 the load
    overflows to infinity, the spread is infinity minus infinity, and the
    fitness is NaN, which is not [>= 0], where the formula over the reals
    gives a positive number.  With items of weight 10^16 and 1 on one
    worker and 10^16 on the other, the first load rounds to 10^16 and the
    fitness is 0.0, where the formula over the reals gives 1. *)
Theorem calcular_fitness_arredonda :
  (Binario64.ids_conhecidos Binario64.w_estouro [(1, [0; 1])] /\
   exists v,
     (Binario64.calcular_fitness [(1, [0; 1])] Binario64.w_estouro).2 = inr v /\
     PrimFloat.is_nan v = true /\ PrimFloat.leb 0 v = false /\
     Qlt 0%Q (Binario64.fitness_real Binario64.w_estouro [(1, [0; 1])])) /\
  (Binario64.ids_conhecidos Binario64.w_absorve [(1, [0; 1]); (2, [2])] /\
   (Binario64.calcular_fitness [(1, [0; 1]); (2, [2])]
      Binario64.w_absorve).2 = inr 0%float /\
   Qeq (Binario64.fitness_real Binario64.w_absorve [(1, [0; 1]); (2, [2])])
       1%Q).
Proof.
  split; split.
  - apply ids_conhecidos_check. apply (bool_decide_unpack _). vm_compute.
    exact I.
  - eexists. split; [vm_compute; reflexivity |].
    split; [reflexivity |]. split; [reflexivity |]. vm_compute. reflexivity.
  - apply ids_conhecidos_check. apply (bool_decide_unpack _). vm_compute.
    exact I.
  - split; vm_compute; reflexivity.
Qed.

(** ** Dictionaries and their lists in the store *)

Lemma pares_nil h : pares h [] = [].
Proof. reflexivity. Qed.

Lemma pares_cons h k l s :
  pares h ((k, l) :: s) = ((fun i => (k, i)) <$> deref h l) ++ pares h s.
Proof. reflexivity. Qed.

Lemma pares_app h s1 s2 : pares h (s1 ++ s2) = pares h s1 ++ pares h s2.
Proof. unfold pares. apply bind_app. Qed.

Lemma atribuidos_pares h s : atribuidos h s = (pares h s).*2.
Proof.
  induction s as [| [k l] s IH]; [done |].
  rewrite pares_cons, fmap_app, <- IH. unfold atribuidos. simpl. f_equal.
  rewrite <- list_fmap_compose. symmetry. apply list_fmap_id.
Qed.

Lemma deref_insert_eq h l x : (l < length h)%nat -> deref (<[l:=x]> h) l = x.
Proof. intros H. unfold deref. by rewrite list_lookup_insert_eq. Qed.

Lemma deref_insert_ne h l l' x : l <> l' -> deref (<[l:=x]> h) l' = deref h l'.
Proof. intros H. unfold deref. by rewrite list_lookup_insert_ne. Qed.

Lemma deref_app_l h k l : (l < length h)%nat -> deref (h ++ k) l = deref h l.
Proof. intros H. unfold deref. by rewrite lookup_app_l. Qed.

Lemma deref_app_novo h x : deref (h ++ [x]) (length h) = x.
Proof. unfold deref. by rewrite list_lookup_middle. Qed.

Lemma pares_ext h h' s :
  (forall l, l ∈ s.*2 -> deref h' l = deref h l) -> pares h' s = pares h s.
Proof.
  induction s as [| [k l] s IH]; intros H; [done |].
  rewrite !pares_cons, H, IH; [done | | left].
  intros l' Hl'. apply H. by right.
Qed.

Lemma pares_insert_fora h s l x :
  l ∉ s.*2 -> pares (<[l:=x]> h) s = pares h s.
Proof.
  intros H. apply pares_ext. intros l' Hl'. apply deref_insert_ne.
  intros ->. done.
Qed.

Lemma pares_app_heap h k s :
  (forall l, l ∈ s.*2 -> (l < length h)%nat) -> pares (h ++ k) s = pares h s.
Proof. intros H. apply pares_ext. intros l Hl. apply deref_app_l. by apply H. Qed.

(** Writing the list of one entry changes that entry only. *)
Lemma pares_insert h s1 k l s2 x :
  NoDup (s1 ++ (k, l) :: s2).*2 -> (l < length h)%nat ->
  pares (<[l:=x]> h) (s1 ++ (k, l) :: s2)
  = pares h s1 ++ ((fun i => (k, i)) <$> x) ++ pares h s2.
Proof.
  intros Hnd Hl. rewrite fmap_app, fmap_cons in Hnd. simpl in Hnd.
  apply NoDup_app in Hnd as (_ & H1 & H2).
  apply NoDup_cons in H2 as [H2 _].
  rewrite pares_app, pares_cons, deref_insert_eq by done.
  rewrite !pares_insert_fora; [done | done |].
  intros Hin. by apply (H1 l Hin); left.
Qed.

Lemma dict_get_None d k : dict_get d k = None <-> k ∉ d.*1.
Proof.
  induction d as [| [k' l'] d IH]; simpl.
  - split; [intros _; apply not_elem_of_nil | done].
  - destruct (decide (k' = k)) as [-> | Hne].
    + split; [done |]. intros H. exfalso. apply H. left.
    + rewrite IH, not_elem_of_cons. intuition congruence.
Qed.

Lemma dict_get_Some d k l :
  dict_get d k = Some l ->
  exists d1 d2, d = d1 ++ (k, l) :: d2 /\ k ∉ d1.*1.
Proof.
  induction d as [| [k' l'] d IH]; simpl; [done |].
  destruct (decide (k' = k)) as [-> | Hne].
  - intros [= ->]. exists [], d. split; [done | apply not_elem_of_nil].
  - intros H. destruct (IH H) as (d1 & d2 & -> & Hk).
    exists ((k', l') :: d1), d2. split; [done |].
    simpl. rewrite not_elem_of_cons. done.
Qed.

Lemma bem_formada_insert h s l x :
  bem_formada h s -> bem_formada (<[l:=x]> h) s.
Proof.
  intros (H1 & H2 & H3). repeat split; [done.. |].
  intros l' Hl'. rewrite length_insert. by apply H3.
Qed.

Lemma bem_formada_nil h : bem_formada h [].
Proof.
  repeat split; [apply NoDup_nil_2.. |]. intros l Hl. by apply elem_of_nil in Hl.
Qed.

(** Appending an item under a key that has an entry. *)
Lemma pares_append h s k l v :
  bem_formada h s -> dict_get s k = Some l ->
  pares (<[l := deref h l ++ [v]]> h) s ≡ₚ pares h s ++ [(k, v)].
Proof.
  intros (_ & Hnd & Hb) Hget.
  destruct (dict_get_Some _ _ _ Hget) as (s1 & s2 & -> & _).
  assert (Hl : (l < length h)%nat).
  { apply Hb. rewrite fmap_app, fmap_cons. apply elem_of_app. right. left. }
  rewrite pares_insert by done.
  rewrite pares_app, pares_cons, fmap_app. simpl.
  rewrite <- !(assoc_L (++)). do 2 apply Permutation_app_head.
  simpl. apply Permutation_cons_append.
Qed.

(** [dd_append] never raises; it adds one assignment and keeps the
    dictionary well formed. *)
Lemma dd_append_spec d k v w :
  bem_formada (heap w) d ->
  exists w' d', dd_append d k v w = (w', inr d') /\
    self w' = self w /\ rng w' = rng w /\
    bem_formada (heap w') d' /\
    pares (heap w') d' ≡ₚ pares (heap w) d ++ [(k, v)].
Proof.
  intros Hbf. unfold dd_append. destruct (dict_get d k) as [l |] eqn:Hget.
  - eexists _, _. split; [reflexivity |]. simpl.
    split; [done |]. split; [done |].
    split; [by apply bem_formada_insert | by apply pares_append].
  - destruct Hbf as (H1 & H2 & H3).
    eexists _, _. split; [reflexivity |]. simpl.
    split; [done |]. split; [done |]. split; [split; [| split] |].
    + rewrite fmap_app. simpl. apply NoDup_app. repeat split; [done | |].
      * intros x Hx Hx'. apply list_elem_of_singleton in Hx' as ->.
        by apply dict_get_None in Hget.
      * apply NoDup_singleton.
    + rewrite fmap_app. simpl. apply NoDup_app. repeat split; [done | |].
      * intros x Hx Hx'. apply list_elem_of_singleton in Hx' as ->.
        apply H3 in Hx. lia.
      * apply NoDup_singleton.
    + intros l. rewrite fmap_app, length_app. simpl.
      intros [Hl | Hl]%elem_of_app.
      * apply H3 in Hl. lia.
      * apply list_elem_of_singleton in Hl as ->. lia.
    + rewrite pares_app, pares_app_heap by done.
      by rewrite pares_cons, deref_app_novo.
Qed.

(** ** The two construction loops *)

Lemma compativeis_pos_ok procs i fs p :
  py_index procs i = inr p ->
  compativeis_pos procs i fs = inr (compativeis (categoria p) fs).
Proof.
  intros Hp. induction fs as [| f fs IH]; simpl; [done |].
  rewrite Hp, IH. unfold compativeis. rewrite filter_cons.
  by destruct (decide (categoria p ∈ especialidades f)).
Qed.

Lemma compativeis_pos_inv procs i fs comp :
  compativeis_pos procs i fs = inr comp ->
  forall f, f ∈ comp ->
    f ∈ fs /\ exists p, py_index procs i = inr p /\
                        categoria p ∈ especialidades f.
Proof.
  revert comp. induction fs as [| f0 fs IH]; simpl; intros comp H f Hf.
  - injection H as <-. by apply elem_of_nil in Hf.
  - destruct (py_index procs i) as [e | p] eqn:Hp; [done |].
    destruct (compativeis_pos procs i fs) as [e | rest]; [done |].
    injection H as <-.
    destruct (decide (categoria p ∈ especialidades f0)) as [Hc | Hc].
    + apply elem_of_cons in Hf as [-> | Hf].
      * split; [left | eauto].
      * destruct (IH _ eq_refl f Hf) as [H1 H2]. split; [by right | done].
    + destruct (IH _ eq_refl f Hf) as [H1 H2]. split; [by right | done].
Qed.

Lemma compativeis_elem cat fs f :
  f ∈ compativeis cat fs <-> f ∈ fs /\ cat ∈ especialidades f.
Proof. unfold compativeis. rewrite list_elem_of_filter. tauto. Qed.

Lemma sorteio_sublist procs fs idx ids :
  forall n novos, sorteio procs fs idx n ids = inr novos ->
    novos.*2 `sublist_of` ids /\
    forall k i, (k, i) ∈ novos ->
      exists f p, f ∈ fs /\ f_id f = k /\ py_index procs i = inr p /\
                  categoria p ∈ especialidades f.
Proof.
  induction ids as [| i ids IH]; simpl; intros n novos H.
  - injection H as <-. split; [done |]. intros k i Hin.
    by apply elem_of_nil in Hin.
  - destruct (compativeis_pos procs i fs) as [e | comp] eqn:Hc; [done |].
    destruct (comp !! _) as [f |] eqn:Hf.
    + destruct (sorteio procs fs idx (S n) ids) as [e | r] eqn:Hr; [done |].
      injection H as <-. destruct (IH _ _ Hr) as [H1 H2]. split.
      * simpl. by apply sublist_skip.
      * intros k i' [Heq | Hin]%elem_of_cons; [| by apply H2].
        injection Heq as -> ->.
        apply list_elem_of_lookup_2 in Hf.
        destruct (compativeis_pos_inv _ _ _ _ Hc f Hf) as (Hfs & p & Hp & Hcat).
        by exists f, p.
    + destruct (IH _ _ H) as [H1 H2]. split; [by apply sublist_cons | done].
Qed.

(** When every id is a valid index with a compatible worker, every id is
    assigned. *)
Lemma sorteio_total procs fs idx ids :
  (forall i, i ∈ ids -> exists p, py_index procs i = inr p /\
                                  compativeis (categoria p) fs <> []) ->
  forall n, exists novos, sorteio procs fs idx n ids = inr novos /\
                          novos.*2 = ids.
Proof.
  induction ids as [| i ids IH]; simpl; intros Hids n; [by exists [] |].
  destruct (Hids i) as (p & Hp & Hne); [left |].
  rewrite (compativeis_pos_ok _ _ _ _ Hp).
  destruct (lookup_lt_is_Some_2 (compativeis (categoria p) fs)
              (idx n mod length (compativeis (categoria p) fs))%nat) as [f Hf].
  { apply Nat.mod_upper_bound.
    destruct (compativeis (categoria p) fs); [done | simpl; lia]. }
  rewrite Hf.
  destruct (IH (fun i' Hi' => Hids i' (list_elem_of_further _ _ _ Hi')) (S n))
    as (r & -> & Hr).
  eexists. split; [done |]. rewrite fmap_cons. simpl. by f_equal.
Qed.

(** The loop of [crossover] realises [sorteio] in the store. *)
Lemma distribuir_ids_sorteio ids :
  forall d w, bem_formada (heap w) d ->
  match sorteio (processos (self w)) (funcionarios (self w))
                (indice (rng w)) (consumidos (rng w)) ids with
  | inl e => exists w', distribuir_ids ids d w = (w', inl e)
  | inr novos =>
      exists w' d', distribuir_ids ids d w = (w', inr d') /\
        self w' = self w /\ bem_formada (heap w') d' /\
        pares (heap w') d' ≡ₚ pares (heap w) d ++ novos
  end.
Proof.
  induction ids as [| i ids IH]; intros d w Hbf; simpl.
  - exists w, d. rewrite app_nil_r. done.
  - unfold bind, get_self, lift. simpl.
    destruct (compativeis_pos _ i _) as [e | comp] eqn:Hc; [by eexists |].
    destruct comp as [| f0 comp'].
    { simpl. apply IH. exact Hbf. }
    destruct (choice_spec (f0 :: comp') w) as (f & Hf & Hch); [done |].
    rewrite Hf, Hch.
    set (w1 := mkMundo _ _ _) in *.
    destruct (dd_append_spec d (f_id f) i w1 Hbf)
      as (w2 & d2 & Hdd & Hs2 & Hr2 & Hbf2 & Hp2).
    rewrite Hdd. specialize (IH d2 w2 Hbf2).
    rewrite Hs2, Hr2 in IH. simpl in IH.
    destruct (sorteio _ _ _ (S _) ids) as [e | r].
    + exact IH.
    + destruct IH as (w' & d' & -> & Hs' & Hbf' & Hp').
      exists w', d'. split; [done |]. split; [done |].
      split; [done |]. rewrite Hp', Hp2. simpl.
      by rewrite <- (assoc_L (++)).
Qed.

(** The loop of the initializer: it never raises, and assigns each visited
    item at most once, to a worker whose specialties hold its category. *)
Lemma distribuir_processos_spec ps fs :
  forall d w, bem_formada (heap w) d ->
  exists w' d' novos, distribuir_processos ps fs d w = (w', inr d') /\
    self w' = self w /\ bem_formada (heap w') d' /\
    pares (heap w') d' ≡ₚ pares (heap w) d ++ novos /\
    novos.*2 `sublist_of` (p_id <$> ps) /\
    forall k i, (k, i) ∈ novos ->
      exists f p, f ∈ fs /\ f_id f = k /\ p ∈ ps /\ p_id p = i /\
                  categoria p ∈ especialidades f.
Proof.
  induction ps as [| p ps IH]; intros d w Hbf; simpl.
  - exists w, d, []. rewrite app_nil_r. do 5 (split; [done |]).
    intros k i Hin. by apply elem_of_nil in Hin.
  - destruct (compativeis (categoria p) fs) as [| f0 comp'] eqn:Hc.
    { destruct (IH d w Hbf) as (w' & d' & novos & -> & Hs & Hbf' & Hp & Hsub & Hn).
      exists w', d', novos. do 4 (split; [done |]).
      split; [by apply sublist_cons |].
      intros k i Hin. destruct (Hn k i Hin) as (f & p' & ? & ? & ? & ? & ?).
      exists f, p'. do 2 (split; [done |]). split; [by right | done]. }
    unfold bind.
    destruct (choice_spec (f0 :: comp') w) as (f & Hf & Hch); [done |].
    rewrite Hch. set (w1 := mkMundo _ _ _) in *.
    destruct (dd_append_spec d (f_id f) (p_id p) w1 Hbf)
      as (w2 & d2 & Hdd & Hs2 & Hr2 & Hbf2 & Hp2).
    rewrite Hdd.
    destruct (IH d2 w2 Hbf2) as (w' & d' & novos & -> & Hs & Hbf' & Hp & Hsub & Hn).
    exists w', d', ((f_id f, p_id p) :: novos).
    split; [done |]. split; [by rewrite Hs, Hs2 |]. split; [done |].
    split; [| split].
    + rewrite Hp, Hp2. simpl. by rewrite <- (assoc_L (++)).
    + simpl. by apply sublist_skip.
    + intros k i [Heq | Hin]%elem_of_cons.
      * injection Heq as -> ->. exists f, p.
        apply list_elem_of_lookup_2 in Hf. rewrite <- Hc in Hf.
        apply compativeis_elem in Hf as [Hf1 Hf2].
        do 2 (split; [done |]). split; [left | done].
      * destruct (Hn k i Hin) as (f' & p' & ? & ? & ? & ? & ?).
        exists f', p'. do 2 (split; [done |]). split; [by right | done].
Qed.

(** ** Mutation *)

#[local] Arguments Nat.modulo : simpl never.

Lemma py_remove_spec pid xs :
  pid ∈ xs ->
  exists a b, xs = a ++ pid :: b /\ (pid ∉ a) /\ py_remove pid xs = a ++ b.
Proof.
  induction xs as [| y xs IH]; intros Hin; [by apply elem_of_nil in Hin |].
  simpl. destruct (decide (pid = y)) as [-> | Hne].
  - exists [], xs. split; [done |]. split; [apply not_elem_of_nil | done].
  - apply elem_of_cons in Hin as [? | Hin]; [done |].
    destruct (IH Hin) as (a & b & -> & Ha & ->).
    exists (y :: a), b. split; [done |]. split; [| done].
    rewrite not_elem_of_cons. done.
Qed.

(** The removal loop rewrites the list of the first entry that holds the
    item, and nothing if no entry does. *)
Lemma remover_shape pid s h :
  ((pid ∉ atribuidos h s) /\ remover pid s h = h) \/
  exists s1 k l s2, s = s1 ++ (k, l) :: s2 /\
    (pid ∉ atribuidos h s1) /\ (pid ∈ deref h l) /\
    remover pid s h = <[l := py_remove pid (deref h l)]> h.
Proof.
  induction s as [| [k l] s IH]; simpl.
  - left. split; [apply not_elem_of_nil | done].
  - unfold py_in. destruct (bool_decide (pid ∈ deref h l)) eqn:E.
    + apply bool_decide_eq_true in E. right. exists [], k, l, s.
      split; [done |]. split; [apply not_elem_of_nil | done].
    + apply bool_decide_eq_false in E.
      destruct IH as [[Hn ->] | (s1 & k' & l' & s2 & -> & Hn & Hin & ->)].
      * left. split; [| done]. unfold atribuidos in *. simpl.
        rewrite not_elem_of_app. done.
      * right. exists ((k, l) :: s1), k', l', s2. split; [done |].
        split; [| done]. unfold atribuidos in *. simpl.
        rewrite not_elem_of_app. done.
Qed.

Lemma remover_pares pid s h :
  bem_formada h s -> pid ∈ atribuidos h s ->
  exists pre k0 post,
    pares h s = pre ++ (k0, pid) :: post /\ (pid ∉ pre.*2) /\
    pares (remover pid s h) s = pre ++ post /\
    bem_formada (remover pid s h) s.
Proof.
  intros Hbf Hin.
  destruct (remover_shape pid s h)
    as [[Hn _] | (s1 & k & l & s2 & -> & Hn & Hl & ->)]; [done |].
  destruct (py_remove_spec pid _ Hl) as (a & b & Hab & Ha & ->).
  destruct Hbf as (H1 & H2 & H3).
  assert (Hlt : (l < length h)%nat).
  { apply H3. rewrite fmap_app, fmap_cons. apply elem_of_app. right. left. }
  exists (pares h s1 ++ ((fun i => (k, i)) <$> a)), k,
         (((fun i => (k, i)) <$> b) ++ pares h s2).
  split; [| split; [| split]].
  - rewrite pares_app, pares_cons, Hab, fmap_app, fmap_cons.
    by rewrite <- !(assoc_L (++)).
  - rewrite fmap_app, <- atribuidos_pares, not_elem_of_app. split; [done |].
    rewrite <- list_fmap_compose. simpl. by rewrite list_fmap_id.
  - rewrite pares_insert by done. rewrite fmap_app.
    by rewrite <- !(assoc_L (++)).
  - by apply bem_formada_insert.
Qed.

(** [mutacao] written out path by path. *)
Lemma mutacao_unfold s w :
  mutacao s w =
  let a := self w in
  let h := heap w in
  let r := rng w in
  let n := consumidos r in
  if Qltb (taxa_mutacao a) (uniforme r n) then (avanca 1 w, inr tt)
  else
    match atribuidos h s with
    | [] => (avanca 1 w, inr tt)
    | todos =>
        match todos !! (indice r (S n) mod length todos)%nat with
        | None => (avanca 1 w, inl IndexError)
        | Some pid =>
            match py_index (processos a) pid with
            | inl e => (avanca 2 w, inl e)
            | inr p =>
                let h1 := remover pid s h in
                match compativeis (categoria p) (funcionarios a) with
                | [] => (mkMundo a h1 (rng (avanca 2 w)), inr tt)
                | comp =>
                    match comp !! (indice r (S (S n)) mod length comp)%nat with
                    | None => (mkMundo a h1 (rng (avanca 2 w)), inl IndexError)
                    | Some f =>
                        match dict_get s (f_id f) with
                        | None => (mkMundo a h1 (rng (avanca 3 w)), inl KeyError)
                        | Some l =>
                            (mkMundo a (<[l := deref h1 l ++ [pid]]> h1)
                                     (rng (avanca 3 w)), inr tt)
                        end
                    end
                end
            end
        end
    end.
Proof.
  unfold mutacao, bind, random, get_self, get_heap, put_heap, lift, choice,
    ret, raise, avanca. simpl.
  destruct (Qltb _ _); [reflexivity |]. simpl.
  destruct (atribuidos (heap w) s) as [| i0 todos] eqn:Et; [reflexivity |].
  simpl. destruct (_ !! _) as [pid |]; [| reflexivity]. simpl.
  destruct (py_index _ pid) as [e | p]; [reflexivity |]. simpl.
  destruct (compativeis _ _) as [| f0 comp]; [reflexivity |]. simpl.
  destruct (_ !! _) as [f |]; [| reflexivity]. simpl.
  destruct (dict_get s (f_id f)); reflexivity.
Qed.

(** Every path of [mutacao], exceptions included, leaves the solution with
    its assignments, or with one of them removed, or with one of them moved
    to another worker id. *)
Lemma mutacao_pares s w :
  bem_formada (heap w) s ->
  let h' := heap (mutacao s w).1 in
  bem_formada h' s /\
  (h' = heap w \/
   exists pre k0 pid post,
     pares (heap w) s = pre ++ (k0, pid) :: post /\
     (pares h' s = pre ++ post \/
      exists k, pares h' s ≡ₚ pre ++ post ++ [(k, pid)])).
Proof.
  intros Hbf. rewrite mutacao_unfold. simpl.
  destruct (Qltb _ _); [by split; [| left] |].
  destruct (atribuidos (heap w) s) as [| i0 todos] eqn:Et; [by split; [| left] |].
  rewrite <- Et.
  destruct (_ !! _) as [pid |] eqn:Hpid; [| by split; [| left]].
  destruct (py_index _ pid) as [e | p]; [by split; [| left] |].
  apply list_elem_of_lookup_2 in Hpid.
  destruct (remover_pares pid s (heap w) Hbf Hpid)
    as (pre & k0 & post & Hp & _ & Hp1 & Hbf1).
  assert (Hrem : bem_formada (remover pid s (heap w)) s /\
    (remover pid s (heap w) = heap w \/
     exists pre' k' pid' post',
       pares (heap w) s = pre' ++ (k', pid') :: post' /\
       (pares (remover pid s (heap w)) s = pre' ++ post' \/
        exists k, pares (remover pid s (heap w)) s
                  ≡ₚ pre' ++ post' ++ [(k, pid')]))).
  { split; [done |]. right. exists pre, k0, pid, post. split; [done | by left]. }
  destruct (compativeis _ _) as [| f0 comp]; [simpl; exact Hrem |].
  destruct (_ !! _) as [f |]; [| simpl; exact Hrem].
  destruct (dict_get s (f_id f)) as [l |] eqn:Hget; [| simpl; exact Hrem].
  simpl. split; [by apply bem_formada_insert |].
  right. exists pre, k0, pid, post. split; [done |]. right. exists (f_id f).
  rewrite (pares_append _ _ _ _ _ Hbf1 Hget), Hp1.
  by rewrite <- (assoc_L (++)).
Qed.

(** ** Exclusivity and recombination *)

Lemma py_index_nonneg {A} (xs : list A) (i : Z) (x : A) :
  0 <= i -> xs !! Z.to_nat i = Some x -> py_index xs i = inr x.
Proof.
  intros Hi Hx. unfold py_index.
  assert (i < Z.of_nat (length xs)).
  { apply lookup_lt_Some in Hx. lia. }
  replace (0 <=? i) with true by (symmetry; apply Z.leb_le; lia).
  replace (i <? Z.of_nat (length xs)) with true by (symmetry; apply Z.ltb_lt; lia).
  simpl. by rewrite Hx.
Qed.

Lemma exclusiva_pares h s : exclusiva h s <-> NoDup (pares h s).*2.
Proof. unfold exclusiva. by rewrite atribuidos_pares. Qed.

Lemma pares_atribui h s k i : (k, i) ∈ pares h s <-> atribui h s k i.
Proof.
  unfold pares, atribui. rewrite list_elem_of_bind. split.
  - intros ([k' l] & Hin & Hs). simpl in Hin.
    apply list_elem_of_fmap in Hin as (i' & [= -> ->] & Hi).
    unfold deref in Hi. destruct (h !! l) as [itens |] eqn:E; simpl in Hi.
    + by exists l, itens.
    + by apply elem_of_nil in Hi.
  - intros (l & itens & Hs & Hl & Hi). exists (k, l). split; [| done].
    simpl. apply list_elem_of_fmap. exists i. split; [done |].
    unfold deref. by rewrite Hl.
Qed.

Lemma atribuidos_detem h s i : i ∈ atribuidos h s <-> detem h s i.
Proof.
  rewrite atribuidos_pares. unfold detem. split.
  - intros ([k i'] & -> & Hin)%list_elem_of_fmap. exists k.
    by apply pares_atribui.
  - intros [k Hk]. apply list_elem_of_fmap. exists (k, i).
    split; [done |]. by apply pares_atribui.
Qed.

(** When every id is a valid index with a compatible worker, the [j]-th id
    is given to the worker that the [j]-th outcome picks among the workers
    compatible with it. *)
Lemma sorteio_escolhas procs fs idx ids :
  (forall i, i ∈ ids -> exists p, py_index procs i = inr p /\
                                  compativeis (categoria p) fs <> []) ->
  forall n novos, sorteio procs fs idx n ids = inr novos ->
  forall j i, ids !! j = Some i ->
    exists p f, py_index procs i = inr p /\
      compativeis (categoria p) fs
        !! (idx (n + j)%nat mod length (compativeis (categoria p) fs))%nat
        = Some f /\
      novos !! j = Some (f_id f, i).
Proof.
  induction ids as [| i0 ids IH]; intros Hids n novos Hs j i Hj; [done |].
  simpl in Hs. destruct (Hids i0) as (p & Hp & Hne); [left |].
  rewrite (compativeis_pos_ok _ _ _ _ Hp) in Hs.
  destruct (lookup_lt_is_Some_2 (compativeis (categoria p) fs)
              (idx n mod length (compativeis (categoria p) fs))%nat) as [f Hf].
  { apply Nat.mod_upper_bound.
    destruct (compativeis (categoria p) fs); [done | simpl; lia]. }
  rewrite Hf in Hs.
  destruct (sorteio procs fs idx (S n) ids) as [e | r] eqn:Hr; [done |].
  injection Hs as <-. destruct j as [| j]; simpl in Hj.
  - injection Hj as <-. exists p, f. rewrite Nat.add_0_r. done.
  - assert (Hids' : forall i', i' ∈ ids -> exists p', py_index procs i' = inr p' /\
                      compativeis (categoria p') fs <> []).
    { intros i' Hi'. apply Hids. by right. }
    destruct (IH Hids' (S n) r Hr j i Hj) as (p' & f' & Hp' & Hf' & Hn).
    exists p', f'. split; [done |].
    replace (n + S j)%nat with (S n + j)%nat by lia. done.
Qed.

Section Variation.
Variable set_iter : list Z -> list Z.

(** What recombination builds: the assignments [sorteio] draws for the
    enumeration of the parents' ids, in fresh lists. *)
Lemma crossover_sorteio (w : Mundo) (pai1 pai2 : list (Z * nat)) :
  Qltb (taxa_crossover (self w))
       (uniforme (rng w) (consumidos (rng w))) = false ->
  match sorteio (processos (self w)) (funcionarios (self w)) (indice (rng w))
                (S (consumidos (rng w)))
                (set_iter (atribuidos (heap w) pai1 ++ atribuidos (heap w) pai2))
  with
  | inl e => exists w', crossover set_iter pai1 pai2 w = (w', inl e)
  | inr novos =>
      exists w' filho, crossover set_iter pai1 pai2 w = (w', inr filho) /\
        self w' = self w /\ bem_formada (heap w') filho /\
        pares (heap w') filho ≡ₚ novos
  end.
Proof.
  intros Hr. unfold crossover, bind, random, get_self, get_heap. simpl.
  rewrite Hr. simpl.
  pose proof (distribuir_ids_sorteio
                (set_iter (atribuidos (heap w) pai1 ++ atribuidos (heap w) pai2))
                [] (avanca 1 w) (bem_formada_nil _)) as H.
  exact H.
Qed.

(** C7: the initializer (on item ids that are pairwise distinct), crossover
    (from a first parent that satisfies the invariant) and mutation (of a
    solution that satisfies it) yield solutions in which no item id occurs
    twice, neither under two workers nor twice under one. *)
Theorem atribuicao_exclusiva (w : Mundo) (pai1 pai2 s : list (Z * nat)) :
  (NoDup (p_id <$> processos (self w)) ->
     exists w' s', gerar_solucao_aleatoria w = (w', inr s') /\
       bem_formada (heap w') s' /\ exclusiva (heap w') s') /\
  ((forall X, NoDup (set_iter X)) ->
   bem_formada (heap w) pai1 -> exclusiva (heap w) pai1 ->
     forall w' filho, crossover set_iter pai1 pai2 w = (w', inr filho) ->
       bem_formada (heap w') filho /\ exclusiva (heap w') filho) /\
  (bem_formada (heap w) s -> exclusiva (heap w) s ->
     bem_formada (heap (mutacao s w).1) s /\
     exclusiva (heap (mutacao s w).1) s).
Proof.
  split; [| split].
  - intros Hnd. unfold gerar_solucao_aleatoria, bind, get_self. simpl.
    set (ps := py_sorted _ _).
    destruct (distribuir_processos_spec ps (funcionarios (self w)) [] w
                (bem_formada_nil _))
      as (w' & s' & novos & -> & _ & Hbf & Hp & Hsub & _).
    exists w', s'. split; [done |]. split; [done |].
    apply exclusiva_pares. rewrite Hp. simpl.
    eapply sublist_NoDup; [| exact Hsub].
    unfold ps. by rewrite py_sorted_perm.
  - intros Hset Hbf Hex w' filho Hc.
    destruct (Qltb (taxa_crossover (self w))
                (uniforme (rng w) (consumidos (rng w)))) eqn:Hr.
    + unfold crossover, bind, random, get_self in Hc. simpl in Hc.
      rewrite Hr in Hc. injection Hc as <- <-. done.
    + pose proof (crossover_sorteio w pai1 pai2 Hr) as H.
      destruct (sorteio _ _ _ _ _) as [e | novos] eqn:Hs.
      * destruct H as [w'' H]. rewrite H in Hc. done.
      * destruct H as (w'' & filho' & H & _ & Hbf' & Hp).
        rewrite H in Hc. injection Hc as <- <-. split; [done |].
        apply exclusiva_pares. rewrite Hp.
        destruct (sorteio_sublist _ _ _ _ _ _ Hs) as [Hsub _].
        eapply sublist_NoDup; [apply Hset | exact Hsub].
  - intros Hbf Hex.
    destruct (mutacao_pares s w Hbf) as [Hbf' Hcases]. split; [done |].
    apply exclusiva_pares. apply exclusiva_pares in Hex.
    destruct Hcases as [-> | (pre & k0 & pid & post & Hp & [Hp' | [k Hp']])];
      [done | |]; rewrite Hp in Hex; rewrite Hp'.
    + eapply sublist_NoDup; [exact Hex |].
      rewrite !fmap_app. apply sublist_app; [done |]. by apply sublist_cons.
    + eapply NoDup_Permutation_proper; [| exact Hex].
      rewrite !fmap_app, fmap_cons. simpl.
      rewrite (assoc_L (++)). rewrite <- Permutation_cons_append.
      by rewrite Permutation_middle.
Qed.

(** C6: when recombination occurs and every id held by a parent is its
    item's position and has a compatible worker, the child holds exactly the
    ids that one of the parents holds, each once.  The set built from the
    parents is enumerated in some order; the item at position [j] of that
    order is given to the worker that the [j]-th outcome after the rate draw
    picks among the workers compatible with the item, whoever held it in the
    parents. *)
Theorem crossover_recombina (w : Mundo) (pai1 pai2 : list (Z * nat)) :
  enumera set_iter ->
  Qltb (taxa_crossover (self w))
       (uniforme (rng w) (consumidos (rng w))) = false ->
  (forall i, detem (heap w) pai1 i \/ detem (heap w) pai2 i ->
     id_posicional (self w) i) ->
  exists w' filho ordem,
    crossover set_iter pai1 pai2 w = (w', inr filho) /\
    bem_formada (heap w') filho /\
    (forall i, detem (heap w') filho i <->
               detem (heap w) pai1 i \/ detem (heap w) pai2 i) /\
    NoDup (pares (heap w') filho).*2 /\
    NoDup ordem /\
    (forall i, i ∈ ordem <->
               detem (heap w) pai1 i \/ detem (heap w) pai2 i) /\
    (forall j i, ordem !! j = Some i ->
       exists p f,
         processos (self w) !! Z.to_nat i = Some p /\
         compativeis (categoria p) (funcionarios (self w))
           !! (indice (rng w) (S (consumidos (rng w)) + j)%nat
               mod length (compativeis (categoria p) (funcionarios (self w))))%nat
           = Some f /\
         atribui (heap w') filho (f_id f) i) /\
    (forall k i, atribui (heap w') filho k i ->
       exists f p, f ∈ funcionarios (self w) /\ f_id f = k /\
         processos (self w) !! Z.to_nat i = Some p /\
         categoria p ∈ especialidades f).
Proof.
  intros Hset Hr Hids.
  set (ordem := set_iter (atribuidos (heap w) pai1 ++ atribuidos (heap w) pai2)).
  destruct (Hset (atribuidos (heap w) pai1 ++ atribuidos (heap w) pai2))
    as [Hnd Hel]. fold ordem in Hnd, Hel.
  assert (Hin : forall i, i ∈ ordem <->
                  detem (heap w) pai1 i \/ detem (heap w) pai2 i).
  { intros i. rewrite Hel, elem_of_app, !atribuidos_detem. done. }
  assert (Hok : forall i, i ∈ ordem ->
            exists p, py_index (processos (self w)) i = inr p /\
                      compativeis (categoria p) (funcionarios (self w)) <> []).
  { intros i Hi. destruct (Hids i (proj1 (Hin i) Hi)) as (p & H0 & Hp & _ & Hc).
    exists p. split; [by apply py_index_nonneg | done]. }
  destruct (sorteio_total (processos (self w)) (funcionarios (self w))
              (indice (rng w)) ordem Hok (S (consumidos (rng w))))
    as (novos & Hs & Hn).
  pose proof (crossover_sorteio w pai1 pai2 Hr) as H. fold ordem in H.
  rewrite Hs in H. destruct H as (w' & filho & Hc & _ & Hbf & Hp).
  assert (Hposic : forall i p, i ∈ ordem ->
            py_index (processos (self w)) i = inr p ->
            processos (self w) !! Z.to_nat i = Some p).
  { intros i p Hi Hpi.
    destruct (Hids i (proj1 (Hin i) Hi)) as (p' & H0 & Hp' & _ & _).
    rewrite (py_index_nonneg _ _ _ H0 Hp') in Hpi. by injection Hpi as <-. }
  exists w', filho, ordem. split; [done |]. split; [done |]. split.
  { intros i. rewrite <- Hin, <- Hn, <- atribuidos_detem, atribuidos_pares.
    by rewrite Hp. }
  split; [by rewrite Hp, Hn |]. split; [done |]. split; [done |]. split.
  - intros j i Hj.
    destruct (sorteio_escolhas _ _ _ _ Hok _ _ Hs j i Hj)
      as (p & f & Hpi & Hf & Hnj).
    exists p, f. split.
    { apply Hposic; [by eapply list_elem_of_lookup_2 | done]. }
    split; [done |]. apply pares_atribui. rewrite Hp.
    by eapply list_elem_of_lookup_2.
  - intros k i Hki. apply pares_atribui in Hki. rewrite Hp in Hki.
    destruct (sorteio_sublist _ _ _ _ _ _ Hs) as [_ Hcomp].
    destruct (Hcomp k i Hki) as (f & p & Hf & Hk & Hpi & Hcat).
    exists f, p. split; [done |]. split; [done |]. split; [| done].
    apply Hposic; [| done]. rewrite <- Hn.
    apply list_elem_of_fmap. by exists (k, i).
Qed.

End Variation.

(** ** What mutation does *)

Lemma bem_formada_check (h : list (list Z)) (s : list (Z * nat)) :
  bool_decide (NoDup s.*1 /\ NoDup s.*2 /\
               Forall (fun l => (l < length h)%nat) s.*2) = true ->
  bem_formada h s.
Proof.
  intros H. apply bool_decide_eq_true in H as (H1 & H2 & H3).
  split; [done |]. split; [done |]. by apply Forall_forall.
Qed.

Lemma NoDup_check (l : list Z) : bool_decide (NoDup l) = true -> NoDup l.
Proof. apply bool_decide_eq_true. Qed.



(** C2 fails on the code.  The items' ids are their positions and both
    workers are compatible with both items.  The initializer gives both
    items to worker 1, so the solution it returns has no entry for worker
    2.  [mutacao] of that solution takes item 0 out of worker 1's list,
    picks worker 2 and raises [KeyError] at [solucao[funcionario.id]]:
    the solution is a plain [dict], where the initializer and [crossover]
    append through a [defaultdict].  The item is lost from the solution,
    and a whole run on this domain ends in the same [KeyError]. *)
Theorem mutacao_chave_ausente :
  p_id <$> processos (self w_chave_ausente) = [0; 1] /\
  (gerar_solucao_aleatoria w_chave_ausente).2 = inr [(1, 0%nat)] /\
  conteudo (heap (gerar_solucao_aleatoria w_chave_ausente).1) [(1, 0%nat)]
    = [(1, [0; 1])] /\
  (mutacao [(1, 0%nat)] (gerar_solucao_aleatoria w_chave_ausente).1).2
    = inl KeyError /\
  conteudo (heap (mutacao [(1, 0%nat)]
                    (gerar_solucao_aleatoria w_chave_ausente).1).1)
           [(1, 0%nat)] = [(1, [1])] /\
  (executar ordem_crescente w_chave_ausente).2 = inl KeyError.
Proof. repeat split; vm_compute; reflexivity. Qed.

(** ** Worked runs *)

Lemma atribuicao_exclusiva_witness :
  (exists w' s', gerar_solucao_aleatoria w_recombina = (w', inr s') /\
     bem_formada (heap w') s' /\ exclusiva (heap w') s') /\
  (exists w' filho,
     crossover ordem_crescente pai_exemplo pai_exemplo w_recombina = (w', inr filho) /\
     bem_formada (heap w') filho /\ exclusiva (heap w') filho) /\
  (bem_formada (heap (mutacao pai_exemplo w_recombina).1) pai_exemplo /\
   exclusiva (heap (mutacao pai_exemplo w_recombina).1) pai_exemplo).
Proof.
  destruct (atribuicao_exclusiva ordem_crescente w_recombina
              pai_exemplo pai_exemplo pai_exemplo) as (H1 & H2 & H3).
  assert (Hbf : bem_formada (heap w_recombina) pai_exemplo).
  { apply bem_formada_check. vm_compute. reflexivity. }
  assert (Hex : exclusiva (heap w_recombina) pai_exemplo).
  { apply NoDup_check. vm_compute. reflexivity. }
  split; [| split].
  - apply H1. apply NoDup_check. vm_compute. reflexivity.
  - destruct (crossover ordem_crescente pai_exemplo pai_exemplo w_recombina)
      as [w' [e | filho]] eqn:Hc; [vm_compute in Hc; discriminate |].
    exists w', filho. split; [reflexivity |].
    apply H2; [intros X; exact (proj1 (ordem_crescente_enumera X)) | exact Hbf |
               exact Hex |
               reflexivity].
  - apply H3; [exact Hbf | exact Hex].
Defined.

Lemma crossover_recombina_witness :
  exists w' filho,
    crossover ordem_crescente pai_exemplo [(2, 1%nat)] w_recombina
      = (w', inr filho) /\
    (forall i, detem (heap w') filho i <->
               detem (heap w_recombina) pai_exemplo i \/
               detem (heap w_recombina) [(2, 1%nat)] i) /\
    NoDup (pares (heap w') filho).*2.
Proof.
  destruct (crossover_recombina ordem_crescente w_recombina pai_exemplo
              [(2, 1%nat)])
    as (w' & filho & ordem & Hc & _ & HU & Hnd & _).
  - exact ordem_crescente_enumera.
  - reflexivity.
  - intros i Hi.
    assert (Hcases : i = 0 \/ i = 1 \/ i = 2).
    { destruct Hi as [Hi | Hi]; apply atribuidos_detem in Hi;
        vm_compute in Hi;
        repeat (apply elem_of_cons in Hi as [-> | Hi]); auto;
        by apply elem_of_nil in Hi. }
    destruct Hcases as [-> | [-> | ->]];
      eexists; (split; [lia |]); (split; [reflexivity |]);
      (split; [reflexivity |]); vm_compute; discriminate.
  - exists w', filho. split; [exact Hc |]. split; [exact HU | exact Hnd].
Defined.

(** C8, as stated, fails: [random.random()] can return exactly 0.0, the
    test [0.0 > 0] is false and the operator runs.  Crossover then returns
    a child that is not a copy of the first parent and has another fitness;
    mutation moves an item. *)
Lemma taxa_zero_sorteio_zero :
  taxa_crossover (self w_sorteio_zero) = 0%Q /\
  taxa_mutacao (self w_sorteio_zero) = 0%Q /\
  uniforme (rng w_sorteio_zero) (consumidos (rng w_sorteio_zero)) = 0%Q /\
  (crossover ordem_crescente [(1, 0%nat)] [(1, 0%nat)] w_sorteio_zero).2
    = inr [(2, 2%nat)] /\
  conteudo (heap w_sorteio_zero) [(1, 0%nat)] = [(1, [0])] /\
  conteudo (heap (crossover ordem_crescente [(1, 0%nat)] [(1, 0%nat)]
                    w_sorteio_zero).1) [(2, 2%nat)] = [(2, [0])] /\
  (calcular_fitness [(1, 0%nat)] w_sorteio_zero).2 = inr 2%Q /\
  (calcular_fitness [(2, 2%nat)]
     (crossover ordem_crescente [(1, 0%nat)] [(1, 0%nat)] w_sorteio_zero).1).2
    = inr 1002%Q /\
  (mutacao [(1, 0%nat); (2, 1%nat)] w_sorteio_zero).2 = inr tt /\
  conteudo (heap w_sorteio_zero) [(1, 0%nat); (2, 1%nat)]
    = [(1, [0]); (2, [1])] /\
  conteudo (heap (mutacao [(1, 0%nat); (2, 1%nat)] w_sorteio_zero).1)
           [(1, 0%nat); (2, 1%nat)] = [(1, [0; 1]); (2, [])].
Proof. repeat split; vm_compute; reflexivity. Qed.

(** C3, as stated, fails: rates of 1.5 and -0.5 are accepted and the run
    completes with them; a negative generation count returns without a
    run; a population of one raises [IndexError] from [random.choice]
    inside the first generation. *)
Lemma configuracao_invalida_aceita :
  (taxa_mutacao (init 1 2 (3#2) (-1#2)) = 3#2 /\
   taxa_crossover (init 1 2 (3#2) (-1#2)) = -1#2) /\
  (executar ordem_crescente w_taxas_invalidas).2 = inr (Some [(1, 0%nat); (2, 1%nat)]) /\
  (executar ordem_crescente w_sem_geracoes).2 = inr None /\
  (executar ordem_crescente w_populacao_um).2 = inl IndexError /\
  melhor_fitness (self (executar ordem_crescente w_populacao_um).1) = Fin 0.
Proof. repeat split; vm_compute; reflexivity. Qed.

(** C1 fails on the code: [pai1.copy()] is shallow, so the child that
    [crossover] returns without recombination shares its lists with the
    survivor it copies, and [mutacao] of the child rewrites the survivor.
    In this run the only survivor of generation 0 holds items 0 and 1 under
    worker 1 and item 2 under worker 2 (fitness 4) before the children are
    produced, and item 1 under worker 1 and items 2 and 0 under worker 2
    (fitness 0) after. *)
Theorem sobrevivente_perturbado :
  (populacao_inicial w_elitismo).2 = inr [membro_a; membro_b] /\
  (avaliar [membro_a; membro_b] (populacao_inicial w_elitismo).1).2
    = inr [(membro_a, 4%Q); (membro_b, 8%Q)] /\
  sobreviventes (tamanho_populacao (self w_elitismo))
                [(membro_a, 4%Q); (membro_b, 8%Q)] = [membro_a] /\
  (geracao ordem_crescente [membro_a; membro_b] (populacao_inicial w_elitismo).1).2
    = inr [membro_a; membro_a] /\
  conteudo (heap (populacao_inicial w_elitismo).1) membro_a
    = [(1, [0; 1]); (2, [2])] /\
  conteudo (heap (geracao ordem_crescente [membro_a; membro_b]
                    (populacao_inicial w_elitismo).1).1) membro_a
    = [(1, [1]); (2, [2; 0])] /\
  (calcular_fitness membro_a (populacao_inicial w_elitismo).1).2 = inr 4%Q /\
  (calcular_fitness membro_a
     (geracao ordem_crescente [membro_a; membro_b]
        (populacao_inicial w_elitismo).1).1).2 = inr 0%Q.
Proof. repeat split; vm_compute; reflexivity. Qed.

(** C10 fails on the code, by the same sharing: the solution recorded as
    best with fitness 4 in generation 0 is rewritten by the mutation of its
    shallow copy, and the solution the run returns evaluates to 0 while the
    tracked fitness is still 4. *)
Theorem melhor_solucao_alterada :
  (executar ordem_crescente w_elitismo).2 = inr (Some membro_a) /\
  melhor_fitness (self (executar ordem_crescente w_elitismo).1) = Fin 4 /\
  (calcular_fitness membro_a (executar ordem_crescente w_elitismo).1).2 = inr 0%Q.
Proof. repeat split; vm_compute; reflexivity. Qed.

(** * Further properties of the code *)

(** ** The initializer *)

#[local] Instance tem_compativel_dec fs p : Decision (tem_compativel fs p).
Proof. unfold tem_compativel. apply _. Defined.



(** ** Which lists an operation may write *)

Lemma dict_get_elem d k l : dict_get d k = Some l -> l ∈ d.*2.
Proof.
  intros H. destruct (dict_get_Some _ _ _ H) as (d1 & d2 & -> & _).
  rewrite fmap_app, fmap_cons. apply elem_of_app. right. left.
Qed.

Lemma dict_get_chave d k l : dict_get d k = Some l -> k ∈ d.*1.
Proof.
  intros H. destruct (dict_get_Some _ _ _ H) as (d1 & d2 & -> & _).
  rewrite fmap_app, fmap_cons. apply elem_of_app. right. left.
Qed.

(** [dd_append] writes a list of the dictionary or a new one. *)
Lemma dd_append_prefixo (n0 : nat) d k v w :
  (forall l, l ∈ d.*2 -> (n0 <= l)%nat) -> (n0 <= length (heap w))%nat ->
  exists w' d', dd_append d k v w = (w', inr d') /\
    take n0 (heap w') = take n0 (heap w) /\
    (n0 <= length (heap w'))%nat /\
    (forall l, l ∈ d'.*2 -> (n0 <= l)%nat).
Proof.
  intros Hd Hn. unfold dd_append.
  destruct (dict_get d k) as [l |] eqn:Hget.
  - eexists _, _. split; [reflexivity |]. simpl. split; [| split; [| done]].
    + apply take_insert_ge. apply Hd. by eapply dict_get_elem.
    + by rewrite length_insert.
  - eexists _, _. split; [reflexivity |]. simpl. split; [| split].
    + by apply take_app_le.
    + rewrite length_app. lia.
    + intros l. rewrite fmap_app.
      intros [Hl | Hl]%elem_of_app; [by apply Hd |].
      apply list_elem_of_singleton in Hl as ->. done.
Qed.

Lemma distribuir_ids_prefixo (n0 : nat) ids :
  forall d w,
  (forall l, l ∈ d.*2 -> (n0 <= l)%nat) -> (n0 <= length (heap w))%nat ->
  take n0 (heap (distribuir_ids ids d w).1) = take n0 (heap w).
Proof.
  induction ids as [| i ids IH]; intros d w Hd Hn; simpl; [done |].
  unfold bind, get_self, lift. simpl.
  destruct (compativeis_pos _ i _) as [e | comp]; [done |].
  destruct comp as [| f0 comp']; [by apply IH |].
  pose proof (heap_choice (f0 :: comp') w) as Hh. unfold mesmo_heap in Hh.
  destruct (choice (f0 :: comp') w) as [w1 [e | f]]; simpl in *;
    [by rewrite Hh |].
  destruct (dd_append_prefixo n0 d (f_id f) i w1 Hd) as (w2 & d2 & -> & Ht & Hl & Hd2);
    [by rewrite Hh |].
  rewrite (IH d2 w2 Hd2 Hl), Ht, Hh. done.
Qed.

Lemma distribuir_processos_prefixo (n0 : nat) ps fs :
  forall d w,
  (forall l, l ∈ d.*2 -> (n0 <= l)%nat) -> (n0 <= length (heap w))%nat ->
  take n0 (heap (distribuir_processos ps fs d w).1) = take n0 (heap w).
Proof.
  induction ps as [| p ps IH]; intros d w Hd Hn; simpl; [done |].
  destruct (compativeis (categoria p) fs) as [| f0 comp']; [by apply IH |].
  unfold bind.
  pose proof (heap_choice (f0 :: comp') w) as Hh. unfold mesmo_heap in Hh.
  destruct (choice (f0 :: comp') w) as [w1 [e | f]]; simpl in *;
    [by rewrite Hh |].
  destruct (dd_append_prefixo n0 d (f_id f) (p_id p) w1 Hd)
    as (w2 & d2 & -> & Ht & Hl & Hd2); [by rewrite Hh |].
  rewrite (IH d2 w2 Hd2 Hl), Ht, Hh. done.
Qed.

Lemma prefixo_de_take {A} (h h' : list A) :
  take (length h) h' = h -> h `prefix_of` h'.
Proof. intros H. exists (drop (length h) h'). by rewrite <- H at 1; rewrite take_drop. Qed.

Lemma conteudo_prefixo (h h' : list (list Z)) (s : list (Z * nat)) :
  h `prefix_of` h' -> (forall l, l ∈ s.*2 -> (l < length h)%nat) ->
  conteudo h' s = conteudo h s.
Proof.
  intros [k ->] Hs. unfold conteudo. apply map_ext_in. intros [key l] Hin.
  simpl. f_equal. apply deref_app_l. apply Hs.
  apply list_elem_of_In in Hin. apply list_elem_of_fmap. by exists (key, l).
Qed.

Section OnlyAllocates.
Variable set_iter : list Z -> list Z.

(** X2: the initializer and crossover only allocate.  On every path,
    exceptions included, the store they leave extends the store they found,
    so every solution that existed before keeps its content. *)
Theorem construcao_so_aloca (w : Mundo) (pai1 pai2 s : list (Z * nat)) :
  heap w `prefix_of` heap (gerar_solucao_aleatoria w).1 /\
  heap w `prefix_of` heap (crossover set_iter pai1 pai2 w).1 /\
  ((forall l, l ∈ s.*2 -> (l < length (heap w))%nat) ->
     conteudo (heap (gerar_solucao_aleatoria w).1) s = conteudo (heap w) s /\
     conteudo (heap (crossover set_iter pai1 pai2 w).1) s = conteudo (heap w) s).
Proof.
  assert (H1 : heap w `prefix_of` heap (gerar_solucao_aleatoria w).1).
  { apply prefixo_de_take.
    unfold gerar_solucao_aleatoria, bind, get_self. simpl.
    rewrite distribuir_processos_prefixo; [apply take_ge; lia | | done].
    intros l Hl. by apply elem_of_nil in Hl. }
  assert (H2 : heap w `prefix_of` heap (crossover set_iter pai1 pai2 w).1).
  { apply prefixo_de_take.
    unfold crossover, bind, random, get_self, get_heap. simpl.
    destruct (Qltb _ _); simpl; [apply take_ge; lia |].
    rewrite distribuir_ids_prefixo; [apply take_ge; simpl; lia | | done].
    intros l Hl. by apply elem_of_nil in Hl. }
  split; [done |]. split; [done |]. intros Hs.
  split; by apply conteudo_prefixo.
Qed.

End OnlyAllocates.

Lemma construcao_so_aloca_witness :
  conteudo (heap (gerar_solucao_aleatoria w_recombina).1) pai_exemplo
    = conteudo (heap w_recombina) pai_exemplo /\
  conteudo (heap (crossover ordem_crescente pai_exemplo pai_exemplo w_recombina).1)
           pai_exemplo
    = conteudo (heap w_recombina) pai_exemplo.
Proof.
  apply (construcao_so_aloca ordem_crescente w_recombina pai_exemplo pai_exemplo
           pai_exemplo).
  intros l Hl. vm_compute in Hl.
  apply elem_of_cons in Hl as [-> | Hl]; [simpl; lia |].
  apply list_elem_of_singleton in Hl as ->. simpl. lia.
Defined.

(** ** Mutation: frame and exceptions *)

Lemma py_index_erro {A} (xs : list A) (i : Z) (e : exn) :
  py_index xs i = inl e -> e = IndexError.
Proof.
  unfold py_index.
  destruct (_ && _); [destruct (xs !! _); congruence |].
  destruct (_ && _); [destruct (xs !! _); congruence | congruence].
Qed.

Lemma escolha_existe {A} (xs : list A) (n : nat) :
  xs <> [] -> is_Some (xs !! (n mod length xs)%nat).
Proof.
  intros H. apply lookup_lt_is_Some_2, Nat.mod_upper_bound.
  destruct xs; [done | simpl; lia].
Qed.

Lemma remover_escreve pid s h l :
  l ∉ s.*2 -> remover pid s h !! l = h !! l.
Proof.
  intros Hl.
  destruct (remover_shape pid s h)
    as [[_ ->] | (s1 & k & l' & s2 & -> & _ & _ & ->)]; [done |].
  apply list_lookup_insert_ne. intros ->. apply Hl.
  rewrite fmap_app, fmap_cons. apply elem_of_app. right. left.
Qed.

Lemma remover_length pid s h : length (remover pid s h) = length h.
Proof.
  destruct (remover_shape pid s h)
    as [[_ ->] | (s1 & k & l' & s2 & -> & _ & _ & ->)]; [done |].
  apply length_insert.
Qed.

(** X3: [mutacao] writes only lists of the solution it is given.  On every
    path it leaves the optimizer object alone, allocates nothing, and
    leaves every list that the solution does not reference as it was. *)
Theorem mutacao_escreve_so_no_argumento (w : Mundo) (s : list (Z * nat)) :
  self (mutacao s w).1 = self w /\
  length (heap (mutacao s w).1) = length (heap w) /\
  forall l, l ∉ s.*2 -> heap (mutacao s w).1 !! l = heap w !! l.
Proof.
  split; [apply self_mutacao |].
  rewrite mutacao_unfold. cbv zeta.
  destruct (Qltb _ _); [done |].
  destruct (atribuidos (heap w) s) as [| i0 todos]; [done |].
  destruct (_ !! _) as [pid |]; [| done].
  destruct (py_index _ pid) as [e | p]; [done |].
  assert (Hrem : length (remover pid s (heap w)) = length (heap w) /\
            forall l, l ∉ s.*2 -> remover pid s (heap w) !! l = heap w !! l).
  { split; [apply remover_length | intros l Hl; by apply remover_escreve]. }
  destruct (compativeis _ _) as [| f0 comp]; [exact Hrem |].
  destruct (_ !! _) as [f |]; [| exact Hrem].
  destruct (dict_get s (f_id f)) as [l |] eqn:Hget; [| exact Hrem].
  simpl. split.
  - rewrite length_insert. apply Hrem.
  - intros l' Hl'. rewrite list_lookup_insert_ne; [by apply Hrem |].
    intros ->. apply Hl'. by eapply dict_get_elem.
Qed.

(** X4: [mutacao] raises in two cases only.  [IndexError]: the item id
    picked is not an index of the item list, and nothing has been written.
    [KeyError]: the compatible worker picked has no entry in the solution,
    and the item picked has already been removed from its list. *)
Theorem mutacao_excecoes (w w' : Mundo) (s : list (Z * nat)) (e : exn) :
  mutacao s w = (w', inl e) ->
  (e = IndexError /\ heap w' = heap w /\
   exists pid, pid ∈ atribuidos (heap w) s /\
     py_index (processos (self w)) pid = inl IndexError) \/
  (e = KeyError /\
   exists pid p f, pid ∈ atribuidos (heap w) s /\
     py_index (processos (self w)) pid = inr p /\
     f ∈ compativeis (categoria p) (funcionarios (self w)) /\
     (f_id f ∉ s.*1) /\
     heap w' = remover pid s (heap w)).
Proof.
  rewrite mutacao_unfold. cbv zeta.
  destruct (Qltb _ _); [done |].
  destruct (atribuidos (heap w) s) as [| i0 todos] eqn:Et; [done |].
  rewrite <- Et.
  destruct (escolha_existe (atribuidos (heap w) s)
              (indice (rng w) (S (consumidos (rng w))))) as [pid Hpid].
  { by rewrite Et. }
  rewrite Hpid. apply list_elem_of_lookup_2 in Hpid.
  destruct (py_index _ pid) as [e' | p] eqn:Hp.
  { intros [= <- <-]. left. pose proof (py_index_erro _ _ _ Hp) as ->.
    split; [done |]. split; [done |]. by exists pid. }
  destruct (compativeis _ _) as [| f0 comp] eqn:Hc; [done |].
  destruct (escolha_existe (f0 :: comp)
              (indice (rng w) (S (S (consumidos (rng w)))))) as [f Hf]; [done |].
  rewrite Hf. apply list_elem_of_lookup_2 in Hf.
  destruct (dict_get s (f_id f)) as [l |] eqn:Hget; [done |].
  intros [= <- <-]. right. split; [done |]. exists pid, p, f.
  split; [done |]. split; [done |]. split; [by rewrite Hc |].
  split; [by apply dict_get_None | done].
Qed.

Lemma mutacao_excecoes_witness :
  exists pid p f, pid ∈ atribuidos (heap w_sem_entrada) [(1, 0%nat)] /\
    py_index (processos (self w_sem_entrada)) pid = inr p /\
    f ∈ compativeis (categoria p) (funcionarios (self w_sem_entrada)) /\
    (f_id f ∉ [(1, 0%nat)].*1).
Proof.
  destruct (mutacao_excecoes w_sem_entrada
              (mutacao [(1, 0%nat)] w_sem_entrada).1 [(1, 0%nat)] KeyError)
    as [[He _] | (_ & pid & p & f & H1 & H2 & H3 & H4 & _)].
  - vm_compute. reflexivity.
  - discriminate.
  - by exists pid, p, f.
Defined.

(** X5: [mutacao] does not raise on a solution whose item ids are indices
    of the item list and that has an entry for every worker. *)
Theorem mutacao_sem_excecao (w : Mundo) (s : list (Z * nat)) :
  (forall i, i ∈ atribuidos (heap w) s ->
     exists p, py_index (processos (self w)) i = inr p) ->
  (forall f, f ∈ funcionarios (self w) -> f_id f ∈ s.*1) ->
  exists w', mutacao s w = (w', inr tt).
Proof.
  intros Hval Hkeys. rewrite mutacao_unfold. cbv zeta.
  destruct (Qltb _ _); [by eexists |].
  destruct (atribuidos (heap w) s) as [| i0 todos] eqn:Et; [by eexists |].
  rewrite <- Et in *.
  destruct (escolha_existe (atribuidos (heap w) s)
              (indice (rng w) (S (consumidos (rng w))))) as [pid Hpid].
  { by rewrite Et. }
  rewrite Hpid. apply list_elem_of_lookup_2 in Hpid.
  destruct (Hval pid Hpid) as [p ->].
  destruct (compativeis _ _) as [| f0 comp] eqn:Hc; [by eexists |].
  destruct (escolha_existe (f0 :: comp)
              (indice (rng w) (S (S (consumidos (rng w)))))) as [f Hf]; [done |].
  rewrite Hf. apply list_elem_of_lookup_2 in Hf. rewrite <- Hc in Hf.
  apply compativeis_elem in Hf as [Hf _].
  destruct (dict_get s (f_id f)) as [l |] eqn:Hget; [by eexists |].
  exfalso. apply dict_get_None in Hget. by apply Hget, Hkeys.
Qed.

Lemma mutacao_sem_excecao_witness :
  exists w', mutacao pai_exemplo w_recombina = (w', inr tt).
Proof.
  apply (mutacao_sem_excecao w_recombina pai_exemplo).
  - intros i Hi. vm_compute in Hi.
    apply elem_of_cons in Hi as [-> | Hi]; [by eexists |].
    apply elem_of_cons in Hi as [-> | Hi]; [by eexists |].
    apply list_elem_of_singleton in Hi as ->. by eexists.
  - intros f Hf. vm_compute in Hf.
    apply elem_of_cons in Hf as [-> | Hf]; [left |].
    apply list_elem_of_singleton in Hf as ->. right. left.
Defined.

(** ** The evaluator: outcome and side effects *)

Lemma acumula_itens_sem_carga procs idx ids :
  forall fs, sem_carga <$> (acumula_itens procs idx ids fs).1 = sem_carga <$> fs.
Proof.
  induction ids as [| i ids IH]; intros fs; simpl; [done |].
  destruct (py_next _ procs) as [e | p]; [done |].
  rewrite IH. erewrite list_fmap_alter with (h := id).
  - by apply list_alter_id.
  - by apply Forall_forall.
Qed.

Lemma acumula_sem_carga procs cont :
  forall fs, sem_carga <$> (acumula procs cont fs).1 = sem_carga <$> fs.
Proof.
  induction cont as [| [fid ids] cont IH]; intros fs; simpl; [done |].
  destruct (list_find _ fs) as [[idx x] |]; [| done].
  pose proof (acumula_itens_sem_carga procs idx ids fs) as H.
  destruct (acumula_itens procs idx ids fs) as [fs' [e | []]]; simpl in *;
    [done |].
  by rewrite IH.
Qed.

Lemma f_id_sem_carga (fs fs' : list Funcionario) :
  sem_carga <$> fs' = sem_carga <$> fs -> f_id <$> fs' = f_id <$> fs.
Proof.
  intros H. apply (f_equal (fmap f_id)) in H.
  by rewrite <- !list_fmap_compose in H.
Qed.

Lemma sem_carga_reset (fs : list Funcionario) :
  sem_carga <$> map (fun f => set_carga_atual f 0%Q) fs = sem_carga <$> fs.
Proof.
  change (sem_carga <$> ((fun f => set_carga_atual f 0%Q) <$> fs)
          = sem_carga <$> fs).
  by rewrite <- list_fmap_compose.
Qed.

(** On every path the evaluator changes nothing but the scratch loads. *)
Lemma calcular_fitness_estavel s w :
  estavel w (calcular_fitness s w).1 /\
  heap (calcular_fitness s w).1 = heap w /\
  rng (calcular_fitness s w).1 = rng w /\
  mesmo_melhor w (calcular_fitness s w).1.
Proof.
  unfold calcular_fitness.
  pose proof (acumula_sem_carga (processos (self w)) (conteudo (heap w) s)
                (map (fun f => set_carga_atual f 0%Q) (funcionarios (self w))))
    as H.
  rewrite sem_carga_reset in H.
  destruct (acumula _ _ _) as [fs1 r]; simpl in H.
  assert (Hgoal : forall x : exn + Q,
    estavel w (mkMundo (set_funcionarios fs1 (self w)) (heap w) (rng w), x).1 /\
    heap (mkMundo (set_funcionarios fs1 (self w)) (heap w) (rng w), x).1 = heap w /\
    rng (mkMundo (set_funcionarios fs1 (self w)) (heap w) (rng w), x).1 = rng w /\
    mesmo_melhor w (mkMundo (set_funcionarios fs1 (self w)) (heap w) (rng w), x).1).
  { intros x. simpl. unfold estavel, mesmo_melhor. simpl. by repeat split. }
  destruct r as [e | []]; [apply Hgoal |].
  destruct (py_max _); [apply Hgoal |].
  destruct (py_min _); apply Hgoal.
Qed.

(** The value and the loads a successful evaluation leaves. *)
Lemma calcular_fitness_valor s w :
  funcionarios (self w) <> [] ->
  ids_conhecidos (funcionarios (self w)) (processos (self w))
                 (conteudo (heap w) s) ->
  exists fs1 mx mn,
    calcular_fitness s w
      = (mkMundo (set_funcionarios fs1 (self w)) (heap w) (rng w),
         inr (mx - mn + penalidade fs1)%Q) /\
    estado (funcionarios (self w)) fs1
           (carga (funcionarios (self w)) (processos (self w))
                  (conteudo (heap w) s)) /\
    py_max (map carga_atual fs1) = inr mx /\
    py_min (map carga_atual fs1) = inr mn.
Proof.
  intros Hne Hk.
  destruct (acumula_ok _ _ _ Hk _ _ (estado_reset (funcionarios (self w))))
    as (fs1 & Hac & He).
  eapply estado_ext in He; [| intros j; simpl; apply Qplus_0_l].
  pose proof (estado_length _ _ _ He) as Hlen.
  assert (Hne1 : map carga_atual fs1 <> []).
  { destruct fs1; [| done]. destruct (funcionarios (self w)); done. }
  destruct (py_max_spec _ Hne1) as (mx & Hmx & _).
  destruct (py_min_spec _ Hne1) as (mn & Hmn & _).
  exists fs1, mx, mn. split; [| done].
  unfold calcular_fitness. rewrite Hac. simpl. by rewrite Hmx, Hmn.
Qed.

(** X6: evaluating a solution changes nothing but the workers' scratch
    load.  On every path, exceptions included, the store, the oracle, the
    tracker, the configuration, the items and the workers' ids,
    specialties, capacities and seniorities are unchanged. *)
Theorem calcular_fitness_efeito (s : list (Z * nat)) (w : Mundo) :
  estavel w (calcular_fitness s w).1 /\
  heap (calcular_fitness s w).1 = heap w /\
  rng (calcular_fitness s w).1 = rng w /\
  mesmo_melhor w (calcular_fitness s w).1.
Proof. apply calcular_fitness_estavel. Qed.

(** An id is unknown: a worker id that no worker carries, or an item id
    that no item carries. *)
Lemma acumula_itens_falha procs idx ids :
  forall fs fs' e, acumula_itens procs idx ids fs = (fs', inl e) ->
    e = StopIteration /\
    exists i, i ∈ ids /\ forall p, p ∈ procs -> p_id p <> i.
Proof.
  induction ids as [| i ids IH]; intros fs fs' e; simpl; [done |].
  unfold py_next. destruct (List.find _ procs) as [p |] eqn:Hf.
  - intros H. destruct (IH _ _ _ H) as (-> & i' & Hi' & Hn).
    split; [done |]. exists i'. split; [by right | done].
  - intros [= <- <-]. split; [done |]. exists i. split; [left |].
    intros p Hp Heq. apply list_elem_of_In in Hp.
    eapply find_none in Hf; [| exact Hp].
    by apply bool_decide_eq_false in Hf.
Qed.

Lemma acumula_itens_sucesso procs idx ids :
  forall fs fs', acumula_itens procs idx ids fs = (fs', inr tt) ->
    forall i, i ∈ ids -> exists p, p ∈ procs /\ p_id p = i.
Proof.
  induction ids as [| i ids IH]; intros fs fs' H i' Hi'; simpl in H.
  { by apply elem_of_nil in Hi'. }
  unfold py_next in H. destruct (List.find _ procs) as [p |] eqn:Hf; [| done].
  apply elem_of_cons in Hi' as [-> | Hi'].
  - apply find_some in Hf as [Hin Hp]. apply bool_decide_eq_true in Hp.
    exists p. split; [by apply list_elem_of_In | done].
  - by eapply IH.
Qed.

Lemma acumula_falha procs cont :
  forall fs fs' e, acumula procs cont fs = (fs', inl e) ->
    e = StopIteration /\
    exists fid ids, (fid, ids) ∈ cont /\
      ((forall f, f ∈ fs -> f_id f <> fid) \/
       exists i, i ∈ ids /\ forall p, p ∈ procs -> p_id p <> i).
Proof.
  induction cont as [| [fid ids] cont IH]; intros fs fs' e; simpl; [done |].
  destruct (list_find _ fs) as [[idx x] |] eqn:Hfind.
  - pose proof (acumula_itens_sem_carga procs idx ids fs) as Hsc.
    destruct (acumula_itens procs idx ids fs) as [fs1 [e1 | []]] eqn:Hit;
      simpl in Hsc.
    + intros [= <- <-].
      destruct (acumula_itens_falha _ _ _ _ _ _ Hit) as (-> & i & Hi & Hn).
      split; [done |]. exists fid, ids. split; [left | right; eauto].
    + intros H. destruct (IH _ _ _ H) as (-> & fid' & ids' & Hin & Hbad).
      split; [done |]. exists fid', ids'. split; [by right |].
      destruct Hbad as [Hbad | Hbad]; [left | by right].
      intros f Hf Heq. apply f_id_sem_carga in Hsc.
      assert (Hin1 : fid' ∈ f_id <$> fs1).
      { rewrite Hsc. apply list_elem_of_fmap. by exists f. }
      apply list_elem_of_fmap in Hin1 as (f1 & Hf1 & Hf1in).
      by apply (Hbad f1 Hf1in).
  - intros [= <- <-]. split; [done |]. exists fid, ids. split; [left |].
    left. apply list_find_None in Hfind.
    intros f Hf. by apply (proj1 (Forall_forall _ _) Hfind).
Qed.

Lemma acumula_sucesso procs cont :
  forall fs fs', acumula procs cont fs = (fs', inr tt) ->
    forall fid ids, (fid, ids) ∈ cont ->
      (exists f, f ∈ fs /\ f_id f = fid) /\
      (forall i, i ∈ ids -> exists p, p ∈ procs /\ p_id p = i).
Proof.
  induction cont as [| [fid ids] cont IH]; intros fs fs' H fid' ids' Hin;
    simpl in H.
  { by apply elem_of_nil in Hin. }
  destruct (list_find _ fs) as [[idx x] |] eqn:Hfind; [| done].
  pose proof (acumula_itens_sem_carga procs idx ids fs) as Hsc.
  destruct (acumula_itens procs idx ids fs) as [fs1 [e1 | []]] eqn:Hit;
    simpl in Hsc; [done |].
  apply elem_of_cons in Hin as [Heq | Hin].
  - injection Heq as -> ->. split.
    + apply list_find_Some in Hfind as (Hx & Hid & _).
      exists x. split; [by eapply list_elem_of_lookup_2 | done].
    + by eapply acumula_itens_sucesso.
  - destruct (IH _ _ H _ _ Hin) as [(f1 & Hf1 & Hid) Hitems].
    split; [| done]. apply f_id_sem_carga in Hsc.
    assert (Hin0 : fid' ∈ f_id <$> fs).
    { rewrite <- Hsc. apply list_elem_of_fmap. by exists f1. }
    apply list_elem_of_fmap in Hin0 as (f & Hf & Hfin). by exists f.
Qed.

(** X7: the evaluator raises in two cases only.  [StopIteration]: exactly
    when the solution holds a worker id that no worker carries or an item
    id that no item carries.  [ValueError]: exactly when there is no worker
    and the solution is empty. *)
Theorem calcular_fitness_excecoes (s : list (Z * nat)) (w : Mundo) :
  let fs := funcionarios (self w) in
  let procs := processos (self w) in
  let cont := conteudo (heap w) s in
  ((calcular_fitness s w).2 = inl StopIteration <->
   exists fid ids, (fid, ids) ∈ cont /\
     ((forall f, f ∈ fs -> f_id f <> fid) \/
      exists i, i ∈ ids /\ forall p, p ∈ procs -> p_id p <> i)) /\
  ((calcular_fitness s w).2 = inl ValueError <-> fs = [] /\ s = []) /\
  (forall e, (calcular_fitness s w).2 = inl e ->
     e = StopIteration \/ e = ValueError).
Proof.
  cbv zeta. unfold calcular_fitness.
  set (fs0 := map _ (funcionarios (self w))).
  assert (Hids : forall f, f ∈ fs0 ->
            exists f', f' ∈ funcionarios (self w) /\ f_id f' = f_id f).
  { intros f Hf. apply list_elem_of_fmap in Hf as (f' & -> & Hf'). by exists f'. }
  assert (Hids' : forall f, f ∈ funcionarios (self w) ->
            exists f', f' ∈ fs0 /\ f_id f' = f_id f).
  { intros f Hf. exists (set_carga_atual f 0%Q). split; [| done].
    apply list_elem_of_fmap. by exists f. }
  destruct (acumula _ _ fs0) as [fs1 [e | []]] eqn:Hac; simpl.
  - destruct (acumula_falha _ _ _ _ _ Hac) as (-> & fid & ids & Hin & Hbad).
    split; [| split].
    + split; [intros _ | done]. exists fid, ids. split; [done |].
      destruct Hbad as [Hbad | Hbad]; [left | by right].
      intros f Hf Heq. destruct (Hids' f Hf) as (f' & Hf' & Heq').
      apply (Hbad f' Hf'). congruence.
    + split; [done |]. intros [Hfs ->]. by apply elem_of_nil in Hin.
    + intros e [= <-]. by left.
  - pose proof (acumula_sucesso _ _ _ _ Hac) as Hgood.
    assert (Hnobad : ~ exists fid ids, (fid, ids) ∈ conteudo (heap w) s /\
      ((forall f, f ∈ funcionarios (self w) -> f_id f <> fid) \/
       exists i, i ∈ ids /\
         forall p, p ∈ processos (self w) -> p_id p <> i)).
    { intros (fid & ids & Hin & Hbad).
      destruct (Hgood fid ids Hin) as [(f & Hf & Hid) Hitems].
      destruct Hbad as [Hbad | (i & Hi & Hn)].
      - destruct (Hids f Hf) as (f' & Hf' & Heq). apply (Hbad f' Hf'). congruence.
      - destruct (Hitems i Hi) as (p & Hp & Hpi). by apply (Hn p Hp). }
    pose proof (acumula_sem_carga (processos (self w)) (conteudo (heap w) s) fs0)
      as Hsc.
    rewrite Hac in Hsc. simpl in Hsc. unfold fs0 in Hsc.
    rewrite sem_carga_reset in Hsc.
    assert (Hlen : length fs1 = length (funcionarios (self w))).
    { by rewrite <- (length_fmap sem_carga fs1), Hsc, length_fmap. }
    destruct fs1 as [| f1 fs1].
    + simpl. assert (Hfs : funcionarios (self w) = []).
      { by destruct (funcionarios (self w)). }
      split; [| split].
      * split; [done | intros H; by destruct Hnobad].
      * split; [intros _ | done]. split; [done |].
        destruct s as [| [k l] s]; [done |]. exfalso.
        destruct (Hgood k (deref (heap w) l)) as [(f & Hf & _) _]; [left |].
        unfold fs0 in Hf. rewrite Hfs in Hf. by apply elem_of_nil in Hf.
      * intros e [= <-]. by right.
    + simpl. split; [| split].
      * split; [done | intros H; by destruct Hnobad].
      * split; [done |]. intros [Hfs _]. by rewrite Hfs in Hlen.
      * done.
Qed.

(** ** The evaluator and the worker objects *)

Lemma acumula_itens_b_frame procs r ids :
  forall st r',
    (r' <> r -> (Binario64.acumula_itens procs r ids st).1 r' = st r') /\
    Binario64.set_carga_atual
      ((Binario64.acumula_itens procs r ids st).1 r') 0%float
    = Binario64.set_carga_atual (st r') 0%float.
Proof.
  induction ids as [| i ids IH]; intros st r'; simpl; [done |].
  destruct (py_next _ procs) as [e | p]; simpl; [done |].
  destruct (IH (Binario64.escreve st r
                  (Binario64.set_carga_atual (st r)
                     (PrimFloat.add (Binario64.carga_atual (st r))
                                    (Binario64.peso p)))) r') as [H1 H2].
  unfold Binario64.escreve in *. split.
  - intros Hne. rewrite (H1 Hne). by rewrite decide_False.
  - rewrite H2. by destruct (decide (r' = r)) as [-> |].
Qed.

Lemma py_next_elem {A} (p : A -> bool) (xs : list A) (x : A) :
  py_next p xs = inr x -> x ∈ xs.
Proof.
  unfold py_next. destruct (List.find p xs) as [y |] eqn:E; [| done].
  intros [= <-]. apply find_some in E as [E _]. by apply list_elem_of_In.
Qed.

Lemma acumula_b_frame procs refs cont :
  forall st r',
    (r' ∉ refs -> (Binario64.acumula procs refs cont st).1 r' = st r') /\
    Binario64.set_carga_atual
      ((Binario64.acumula procs refs cont st).1 r') 0%float
    = Binario64.set_carga_atual (st r') 0%float.
Proof.
  induction cont as [| [fid ids] cont IH]; intros st r'; simpl; [done |].
  destruct (py_next _ refs) as [e | r] eqn:E; simpl; [done |].
  apply py_next_elem in E.
  destruct (acumula_itens_b_frame procs r ids st r') as [H1 H2].
  destruct (Binario64.acumula_itens procs r ids st) as [st1 [e | []]];
    simpl in *.
  - split; [| done]. intros Hr'. apply H1. by intros ->.
  - destruct (IH st1 r') as [H3 H4]. split.
    + intros Hr'. rewrite (H3 Hr'). apply H1. by intros ->.
    + by rewrite H4.
Qed.

Lemma calcular_fitness_b_mundo cont w :
  (Binario64.calcular_fitness cont w).1
  = Binario64.mkMundo
      (Binario64.acumula (Binario64.processos w) (Binario64.funcionarios w)
         cont (Binario64.reinicia (Binario64.funcionarios w)
                                  (Binario64.objetos w))).1
      (Binario64.funcionarios w) (Binario64.processos w).
Proof.
  unfold Binario64.calcular_fitness.
  destruct (Binario64.acumula _ _ _ _) as [st1 [e | []]]; simpl; [done |].
  destruct (Binario64.py_max _) as [e | mx]; [done |].
  by destruct (Binario64.py_min _) as [e | mn].
Qed.

(** X20: the evaluator acts on the worker objects, which
    [self.funcionarios] references.  On every path, exceptions included, it
    leaves [self.funcionarios] and [self.processos] as they are, touches no
    object that [self.funcionarios] does not reference, and changes nothing
    but [carga_atual] in those it references.  After an evaluation on known
    ids, the [carga_atual] of each referenced object is its load: the sum,
    rounded after each addition, of the weights held under its id when it
    is the first object registered with that id, and 0.0 otherwise; an
    object registered twice shows that one load at both places. *)
Theorem calcular_fitness_objetos (cont : list (Z * list Z))
    (w : Binario64.Mundo) :
  let w' := (Binario64.calcular_fitness cont w).1 in
  Binario64.funcionarios w' = Binario64.funcionarios w /\
  Binario64.processos w' = Binario64.processos w /\
  (forall r, r ∉ Binario64.funcionarios w ->
     Binario64.objetos w' r = Binario64.objetos w r) /\
  (forall r, Binario64.set_carga_atual (Binario64.objetos w' r) 0%float
             = Binario64.set_carga_atual (Binario64.objetos w r) 0%float) /\
  (Binario64.funcionarios w <> [] -> Binario64.ids_conhecidos w cont ->
   forall r, r ∈ Binario64.funcionarios w ->
     Binario64.carga_atual (Binario64.objetos w' r) = Binario64.carga w cont r).
Proof.
  cbv zeta. rewrite calcular_fitness_b_mundo. simpl.
  split; [done |]. split; [done |].
  split; [| split].
  - intros r Hr.
    rewrite (proj1 (acumula_b_frame _ _ cont _ r) Hr).
    rewrite reinicia_spec. by rewrite decide_False.
  - intros r. rewrite (proj2 (acumula_b_frame _ _ cont _ r)).
    rewrite reinicia_spec. by destruct (decide _).
  - intros Hne Hk r Hr.
    destruct (acumula_b w cont Hk _ _ (reinicia_estado w)) as (st & Hac & He).
    rewrite Hac. simpl. by rewrite (estado_b64_carga w st _ r He Hr).
Qed.

Lemma calcular_fitness_objetos_witness :
  Binario64.carga_atual
    (Binario64.objetos
       (Binario64.calcular_fitness [(1, [0])] Binario64.w_duplicado).1 0%nat)
  = 8%float /\
  (Binario64.calcular_fitness [(1, [0])] Binario64.w_duplicado).2
  = inr 6000%float.
Proof.
  split; [| reflexivity].
  rewrite (proj2 (proj2 (proj2 (proj2
             (calcular_fitness_objetos [(1, [0])] Binario64.w_duplicado))))).
  - reflexivity.
  - discriminate.
  - apply ids_conhecidos_check. apply (bool_decide_unpack _). vm_compute.
    exact I.
  - left.
Defined.

(** ** Balance and order *)

Lemma SFsub_iguais x y :
  SFcompare x y = Some Eq ->
  match x with S754_zero _ | S754_finite _ _ _ => True | _ => False end ->
  exists s, SF64sub x y = S754_zero s.
Proof.
  intros Hc Hx.
  destruct x as [sx | sx | | sx mx ex]; try done;
    destruct y as [sy | sy | | sy my ey]; simpl in Hc; try done.
  - destruct sx, sy; [exists false | exists true | exists false | exists false];
      reflexivity.
  - destruct sy; simpl in Hc; congruence.
  - destruct sy; simpl in Hc; congruence.
  - destruct sx; simpl in Hc; congruence.
  - destruct sy; simpl in Hc; congruence.
  - exists false. unfold SF64sub, SFsub.
    assert (H : sx = sy /\ ex = ey /\ mx = my).
    { change (Pos.compare_cont Eq mx my) with (Pos.compare mx my) in Hc.
      destruct sx, sy; try done;
        destruct (Z.compare_spec ex ey); try done;
        destruct (Pos.compare_spec mx my); try done; auto. }
    destruct H as (-> & -> & ->). by rewrite Z.sub_diag.
Qed.

Lemma eqb_SF x y :
  PrimFloat.eqb x y = true -> SFcompare (Prim2SF x) (Prim2SF y) = Some Eq.
Proof.
  rewrite FloatAxioms.eqb_spec. unfold SFeqb.
  by destruct (SFcompare _ _) as [[] |].
Qed.

Lemma penalidade_total_nula w cont :
  (forall r, r ∈ Binario64.funcionarios w ->
     PrimFloat.ltb (Binario64.carga_horaria (Binario64.objetos w r))
                   (Binario64.carga w cont r) = false) ->
  Binario64.penalidade_total w cont = 0%float.
Proof.
  unfold Binario64.penalidade_total. generalize 0%float as acc.
  induction (Binario64.funcionarios w) as [| r refs IH]; intros acc H; simpl.
  - done.
  - rewrite (H r) by left. apply IH. intros r' Hr'. apply H. by right.
Qed.

(** X8: a balanced and feasible solution has fitness 0.0.  With at least
    one worker and known ids, when the loads of all workers are finite and
    equal and no load exceeds the worker's capacity, the evaluator returns
    0.0. *)
Theorem calcular_fitness_zero (cont : list (Z * list Z))
    (w : Binario64.Mundo) :
  Binario64.funcionarios w <> [] ->
  Binario64.ids_conhecidos w cont ->
  (forall c, c ∈ Binario64.cargas w cont -> is_finite c = true) ->
  (forall c c', c ∈ Binario64.cargas w cont -> c' ∈ Binario64.cargas w cont ->
     PrimFloat.eqb c c' = true) ->
  (forall r, r ∈ Binario64.funcionarios w ->
     PrimFloat.ltb (Binario64.carga_horaria (Binario64.objetos w r))
                   (Binario64.carga w cont r) = false) ->
  (Binario64.calcular_fitness cont w).2 = inr 0%float.
Proof.
  intros Hne Hk Hfin Heq Hcap.
  destruct (calcular_fitness_b_valor cont w Hne Hk)
    as (st & mx & mn & -> & _ & Hmx & Hmn).
  assert (Hne' : Binario64.cargas w cont <> []).
  { unfold Binario64.cargas. by destruct (Binario64.funcionarios w). }
  destruct (py_max_b_spec _ Hne') as (mx' & Hmx' & Hmxin & _).
  destruct (py_min_b_spec _ Hne') as (mn' & Hmn' & Hmnin & _).
  rewrite Hmx in Hmx'. injection Hmx' as <-.
  rewrite Hmn in Hmn'. injection Hmn' as <-.
  simpl. f_equal. rewrite (penalidade_total_nula w cont Hcap).
  apply Prim2SF_inj. rewrite FloatAxioms.add_spec, FloatAxioms.sub_spec.
  destruct (SFsub_iguais _ _ (eqb_SF _ _ (Heq mx mn Hmxin Hmnin))
              (is_finite_SF _ (Hfin mx Hmxin))) as [s ->].
  by destruct s.
Qed.

Lemma dono_id w k r :
  Binario64.dono w k = Some r -> Binario64.f_id (Binario64.objetos w r) = k.
Proof.
  unfold Binario64.dono. destruct (list_find _ _) as [[j r'] |] eqn:E; [| done].
  intros [= <-]. by apply list_find_Some in E as (_ & E & _).
Qed.

Lemma carga_filter w cont r :
  Binario64.carga w cont r
  = fold_left (fun acc e =>
                 fold_left (fun a i => PrimFloat.add a (Binario64.peso_de w i))
                           e.2 acc)
              (filter (fun e => Binario64.dono w e.1 = Some r) cont) 0%float.
Proof.
  unfold Binario64.carga. generalize 0%float as acc.
  induction cont as [| e cont IH]; intros acc; simpl; [done |].
  rewrite filter_cons. destruct (decide (Binario64.dono w e.1 = Some r)); simpl.
  - apply IH.
  - apply IH.
Qed.

Lemma uma_entrada_por_objeto w (cont : list (Z * list Z)) r :
  NoDup cont.*1 ->
  (length (filter (fun e => Binario64.dono w e.1 = Some r) cont) <= 1)%nat.
Proof.
  induction cont as [| e cont IH]; intros Hnd; simpl; [lia |].
  rewrite fmap_cons in Hnd. apply NoDup_cons in Hnd as [Hk Hnd].
  rewrite filter_cons.
  destruct (decide (Binario64.dono w e.1 = Some r)) as [He | He];
    [| by apply IH].
  assert (Hnil : filter (fun e => Binario64.dono w e.1 = Some r) cont = []).
  { destruct (filter _ cont) as [| e' l] eqn:E; [done |]. exfalso.
    assert (He' : e' ∈ filter (fun e => Binario64.dono w e.1 = Some r) cont)
      by (rewrite E; left).
    apply list_elem_of_filter in He' as [Hd Hin]. apply Hk.
    rewrite <- (dono_id _ _ _ He), (dono_id _ _ _ Hd).
    apply list_elem_of_fmap. by exists e'. }
  rewrite Hnil. simpl. lia.
Qed.

(** X18: the fitness does not depend on the order of the entries of the
    solution.  With at least one worker and known ids, two dictionaries
    with the same entries (distinct keys, each with its list of items) in
    another order get the same fitness.  (The order of the items within an
    entry is another matter: the additions round.) *)
Theorem calcular_fitness_ordem_das_entradas (cont cont2 : list (Z * list Z))
    (w : Binario64.Mundo) :
  Binario64.funcionarios w <> [] ->
  Binario64.ids_conhecidos w cont ->
  NoDup cont.*1 ->
  cont2 ≡ₚ cont ->
  (Binario64.calcular_fitness cont2 w).2 = (Binario64.calcular_fitness cont w).2.
Proof.
  intros Hne Hk Hnd Hperm.
  assert (Hk2 : Binario64.ids_conhecidos w cont2).
  { intros fid ids Hin. apply Hk. by rewrite <- Hperm. }
  assert (Hnd2 : NoDup cont2.*1) by (by rewrite Hperm).
  assert (Hcarga : forall r, Binario64.carga w cont2 r = Binario64.carga w cont r).
  { intros r. rewrite !carga_filter. f_equal.
    pose proof (uma_entrada_por_objeto w cont r Hnd) as H1.
    pose proof (uma_entrada_por_objeto w cont2 r Hnd2) as H2.
    assert (Hp : filter (fun e => Binario64.dono w e.1 = Some r) cont2
                 ≡ₚ filter (fun e => Binario64.dono w e.1 = Some r) cont)
      by (by rewrite Hperm).
    destruct (filter _ cont) as [| e [| e' l]]; simpl in H1; [| | lia].
    - by apply Permutation_nil_r in Hp.
    - by apply Permutation_singleton_r in Hp. }
  assert (Hcs : Binario64.cargas w cont2 = Binario64.cargas w cont).
  { unfold Binario64.cargas. apply list_fmap_ext. intros j r _. apply Hcarga. }
  assert (Hpen : Binario64.penalidade_total w cont2
                 = Binario64.penalidade_total w cont).
  { unfold Binario64.penalidade_total. generalize 0%float as acc.
    generalize (Binario64.funcionarios w) as refs.
    induction refs as [| r refs IH]; intros acc; cbn [fold_left]; [done |].
    rewrite Hcarga. apply IH. }
  destruct (calcular_fitness_b_valor cont w Hne Hk)
    as (st & mx & mn & -> & _ & Hmx & Hmn).
  destruct (calcular_fitness_b_valor cont2 w Hne Hk2)
    as (st2 & mx2 & mn2 & -> & _ & Hmx2 & Hmn2).
  rewrite Hcs in Hmx2, Hmn2. rewrite Hmx in Hmx2. rewrite Hmn in Hmn2.
  injection Hmx2 as <-. injection Hmn2 as <-. simpl. by rewrite Hpen.
Qed.

Lemma calcular_fitness_ordem_das_entradas_witness :
  (Binario64.calcular_fitness [(2, [2]); (1, [0; 1])] Binario64.w_absorve).2
  = (Binario64.calcular_fitness [(1, [0; 1]); (2, [2])] Binario64.w_absorve).2.
Proof.
  apply (calcular_fitness_ordem_das_entradas
           [(1, [0; 1]); (2, [2])] [(2, [2]); (1, [0; 1])] Binario64.w_absorve).
  - discriminate.
  - apply ids_conhecidos_check. apply (bool_decide_unpack _). vm_compute.
    exact I.
  - apply (bool_decide_unpack _). vm_compute. exact I.
  - apply Permutation_swap.
Defined.

Lemma calcular_fitness_zero_witness :
  (Binario64.calcular_fitness [(1, [0]); (2, [2])] Binario64.w_absorve).2
  = inr 0%float.
Proof.
  apply (calcular_fitness_zero [(1, [0]); (2, [2])] Binario64.w_absorve).
  - discriminate.
  - apply ids_conhecidos_check. apply (bool_decide_unpack _). vm_compute.
    exact I.
  - intros c Hc. vm_compute in Hc.
    repeat (apply elem_of_cons in Hc as [-> | Hc]; [reflexivity |]).
    by apply elem_of_nil in Hc.
  - intros c c' Hc Hc'. vm_compute in Hc, Hc'.
    repeat (apply elem_of_cons in Hc as [-> | Hc]);
      repeat (apply elem_of_cons in Hc' as [-> | Hc']);
      try reflexivity; by (apply elem_of_nil in Hc || apply elem_of_nil in Hc').
  - intros r Hr.
    repeat (apply elem_of_cons in Hr as [-> | Hr]; [reflexivity |]).
    by apply elem_of_nil in Hr.
Defined.

(** ** Safety of the building blocks of a run *)

#[local] Instance estavel_po : PreOrder estavel.
Proof.
  split; unfold estavel; [intros w | intros a b c]; intuition congruence.
Qed.

Lemma estavel_self w w' : self w' = self w -> estavel w w'.
Proof. intros H. unfold estavel. rewrite H. by repeat split. Qed.

Lemma estavel_chaves w w' s :
  estavel w w' -> chaves_validas w s -> chaves_validas w' s.
Proof.
  intros (_ & _ & _ & _ & _ & Hf) Hc k Hk.
  rewrite (f_id_sem_carga _ _ Hf). by apply Hc.
Qed.

Lemma estavel_mundo_ok w w' :
  estavel w w' -> heap w' = heap w -> mundo_ok w -> mundo_ok w'.
Proof.
  intros (_ & _ & _ & _ & Hp & Hf) Hh (Hne & Hpos & Hv).
  split; [| split].
  - intros H. rewrite H in Hf. apply Hne.
    by destruct (funcionarios (self w)).
  - by rewrite Hp.
  - unfold heap_valido. by rewrite Hp, Hh.
Qed.

Lemma itens_validos_insert n h l x :
  itens_validos n h -> (forall i, i ∈ x -> 0 <= i < Z.of_nat n) ->
  itens_validos n (<[l:=x]> h).
Proof.
  intros Hh Hx l' items i Hl Hi.
  apply list_lookup_insert_Some in Hl as [(-> & <- & _) | [_ Hl]].
  - by apply Hx.
  - by eapply Hh.
Qed.

Lemma itens_validos_app n h x :
  itens_validos n h -> (forall i, i ∈ x -> 0 <= i < Z.of_nat n) ->
  itens_validos n (h ++ [x]).
Proof.
  intros Hh Hx l' items i Hl Hi.
  apply lookup_app_Some in Hl as [Hl | [_ Hl]].
  - by eapply Hh.
  - apply list_lookup_singleton_Some in Hl as [_ <-]. by apply Hx.
Qed.

Lemma itens_validos_deref n h l i :
  itens_validos n h -> i ∈ deref h l -> 0 <= i < Z.of_nat n.
Proof.
  intros Hh Hi. unfold deref in Hi.
  destruct (h !! l) as [items |] eqn:E; simpl in Hi.
  - by eapply Hh.
  - by apply elem_of_nil in Hi.
Qed.

Lemma itens_validos_atribuidos n h s i :
  itens_validos n h -> i ∈ atribuidos h s -> 0 <= i < Z.of_nat n.
Proof.
  intros Hh Hi. unfold atribuidos in Hi.
  apply list_elem_of_In, in_concat in Hi as (items & Hitems & Hi).
  apply in_map_iff in Hitems as (e & <- & _).
  eapply itens_validos_deref; [exact Hh |]. by apply list_elem_of_In.
Qed.

Lemma py_index_valido {A} (xs : list A) (i : Z) :
  0 <= i < Z.of_nat (length xs) ->
  exists x, xs !! Z.to_nat i = Some x /\ py_index xs i = inr x.
Proof.
  intros Hi. destruct (lookup_lt_is_Some_2 xs (Z.to_nat i)) as [x Hx]; [lia |].
  exists x. split; [done |]. apply py_index_nonneg; [lia | done].
Qed.

Lemma py_remove_elem x xs i : i ∈ py_remove x xs -> i ∈ xs.
Proof.
  induction xs as [| y ys IH]; simpl; [done |].
  destruct (decide (x = y)); [by right |].
  intros [-> | H]%elem_of_cons; [left | right; by apply IH].
Qed.

(** [dd_append] of a valid id under a worker id. *)
Lemma dd_append_valido d k v w :
  heap_valido w -> chaves_validas w d ->
  0 <= v < Z.of_nat (length (processos (self w))) ->
  k ∈ f_id <$> funcionarios (self w) ->
  exists w' d', dd_append d k v w = (w', inr d') /\
    self w' = self w /\ rng w' = rng w /\
    heap_valido w' /\ chaves_validas w' d'.
Proof.
  intros Hh Hc Hv Hk. unfold dd_append.
  destruct (dict_get d k) as [l |] eqn:Hget.
  - eexists _, _. split; [reflexivity |]. simpl.
    split; [done |]. split; [done |]. split; [| done].
    unfold heap_valido. simpl. apply itens_validos_insert; [done |].
    intros i [Hi | Hi]%elem_of_app.
    + by eapply itens_validos_deref.
    + by apply list_elem_of_singleton in Hi as ->.
  - eexists _, _. split; [reflexivity |]. simpl.
    split; [done |]. split; [done |]. split.
    + unfold heap_valido. simpl. apply itens_validos_app; [done |].
      intros i Hi. by apply list_elem_of_singleton in Hi as ->.
    + intros k'. rewrite fmap_app. simpl.
      intros [Hk' | Hk']%elem_of_app; [by apply Hc |].
      by apply list_elem_of_singleton in Hk' as ->.
Qed.

Lemma posicional_valido procs p :
  posicional procs -> p ∈ procs ->
  0 <= p_id p < Z.of_nat (length procs).
Proof.
  intros Hpos Hp. apply list_elem_of_lookup in Hp as [i Hi].
  rewrite (Hpos i p Hi). apply lookup_lt_Some in Hi. lia.
Qed.

(** The initializer's loop on valid items. *)
Lemma distribuir_processos_valido ps :
  forall d w,
  heap_valido w -> chaves_validas w d ->
  (forall p, p ∈ ps -> 0 <= p_id p < Z.of_nat (length (processos (self w)))) ->
  exists w' d',
    distribuir_processos ps (funcionarios (self w)) d w = (w', inr d') /\
    self w' = self w /\ heap_valido w' /\ chaves_validas w' d'.
Proof.
  induction ps as [| p ps IH]; intros d w Hh Hc Hps; simpl.
  - by exists w, d.
  - assert (Hps' : forall p', p' ∈ ps ->
              0 <= p_id p' < Z.of_nat (length (processos (self w)))).
    { intros p' Hp'. apply Hps. by right. }
    destruct (compativeis (categoria p) (funcionarios (self w)))
      as [| f0 comp'] eqn:Hcomp; [by apply IH |].
    unfold bind.
    destruct (choice_spec (f0 :: comp') w) as (f & Hf & Hch); [done |].
    rewrite Hch. set (w1 := mkMundo _ _ _) in *.
    apply list_elem_of_lookup_2 in Hf. rewrite <- Hcomp in Hf.
    apply compativeis_elem in Hf as [Hf _].
    destruct (dd_append_valido d (f_id f) (p_id p) w1)
      as (w2 & d2 & -> & Hs2 & Hr2 & Hh2 & Hc2); try done.
    { apply Hps. left. }
    { simpl. apply list_elem_of_fmap. by exists f. }
    simpl in Hs2.
    destruct (IH d2 w2 Hh2 Hc2) as (w' & d' & Hd & Hs & Hh' & Hc').
    { by rewrite Hs2. }
    rewrite Hs2 in Hd. rewrite Hd. exists w', d'.
    split; [done |]. split; [by rewrite Hs, Hs2 | done].
Qed.

Lemma gerar_solucao_aleatoria_valido w :
  mundo_ok w ->
  exists w' s, gerar_solucao_aleatoria w = (w', inr s) /\
    self w' = self w /\ heap_valido w' /\ chaves_validas w' s.
Proof.
  intros (Hne & Hpos & Hh).
  unfold gerar_solucao_aleatoria, bind, get_self. simpl.
  apply distribuir_processos_valido; [done | | ].
  - intros k Hk. by apply elem_of_nil in Hk.
  - intros p Hp. rewrite py_sorted_perm in Hp. by apply posicional_valido.
Qed.

(** The loop of [crossover] on valid ids. *)
Lemma distribuir_ids_valido ids :
  forall d w,
  heap_valido w -> chaves_validas w d ->
  (forall i, i ∈ ids -> 0 <= i < Z.of_nat (length (processos (self w)))) ->
  exists w' d', distribuir_ids ids d w = (w', inr d') /\
    self w' = self w /\ heap_valido w' /\ chaves_validas w' d'.
Proof.
  induction ids as [| i ids IH]; intros d w Hh Hc Hids; simpl.
  - by exists w, d.
  - assert (Hids' : forall i', i' ∈ ids ->
              0 <= i' < Z.of_nat (length (processos (self w)))).
    { intros i' Hi'. apply Hids. by right. }
    unfold bind, get_self, lift. simpl.
    destruct (py_index_valido (processos (self w)) i) as (p & _ & Hp);
      [apply Hids; left |].
    rewrite (compativeis_pos_ok _ _ _ _ Hp).
    destruct (compativeis (categoria p) (funcionarios (self w)))
      as [| f0 comp'] eqn:Hcomp; [by apply IH |].
    destruct (choice_spec (f0 :: comp') w) as (f & Hf & Hch); [done |].
    rewrite Hch. set (w1 := mkMundo _ _ _) in *.
    apply list_elem_of_lookup_2 in Hf. rewrite <- Hcomp in Hf.
    apply compativeis_elem in Hf as [Hf _].
    destruct (dd_append_valido d (f_id f) i w1)
      as (w2 & d2 & -> & Hs2 & Hr2 & Hh2 & Hc2); try done.
    { apply Hids. left. }
    { simpl. apply list_elem_of_fmap. by exists f. }
    simpl in Hs2.
    destruct (IH d2 w2 Hh2 Hc2) as (w' & d' & Hd & Hs & Hh' & Hc').
    { by rewrite Hs2. }
    rewrite Hd. exists w', d'.
    split; [done |]. split; [by rewrite Hs, Hs2 | done].
Qed.

(** [mutacao] on a store of valid ids: it returns or raises [KeyError]. *)
Lemma mutacao_valido s w :
  heap_valido w ->
  self (mutacao s w).1 = self w /\ heap_valido (mutacao s w).1 /\
  ((mutacao s w).2 = inr tt \/ (mutacao s w).2 = inl KeyError).
Proof.
  intros Hh. split; [apply self_mutacao |].
  rewrite mutacao_unfold. cbv zeta.
  destruct (Qltb _ _); [by split; [| left] |].
  destruct (atribuidos (heap w) s) as [| i0 todos] eqn:Et; [by split; [| left] |].
  rewrite <- Et.
  destruct (escolha_existe (atribuidos (heap w) s)
              (indice (rng w) (S (consumidos (rng w))))) as [pid Hpid].
  { by rewrite Et. }
  rewrite Hpid. apply list_elem_of_lookup_2 in Hpid.
  pose proof (itens_validos_atribuidos _ _ _ _ Hh Hpid) as Hv.
  destruct (py_index_valido (processos (self w)) pid Hv) as (p & _ & ->).
  assert (Hrem : itens_validos (length (processos (self w)))
                   (remover pid s (heap w))).
  { destruct (remover_shape pid s (heap w))
      as [[_ ->] | (s1 & k & l' & s2 & _ & _ & _ & ->)]; [done |].
    apply itens_validos_insert; [done |].
    intros i Hi. apply py_remove_elem in Hi.
    by eapply itens_validos_deref. }
  destruct (compativeis _ _) as [| f0 comp] eqn:Hc; [by split; [| left] |].
  destruct (escolha_existe (f0 :: comp)
              (indice (rng w) (S (S (consumidos (rng w)))))) as [f Hf]; [done |].
  rewrite Hf.
  destruct (dict_get s (f_id f)) as [l |] eqn:Hget; [| by split; [| right]].
  split; [| by left]. unfold heap_valido. simpl.
  apply itens_validos_insert; [done |].
  intros i [Hi | Hi]%elem_of_app.
  - by eapply itens_validos_deref.
  - by apply list_elem_of_singleton in Hi as ->.
Qed.

(** Evaluation succeeds on a solution keyed by worker ids. *)
Lemma calcular_fitness_seguro s w :
  mundo_ok w -> chaves_validas w s ->
  exists w' v, calcular_fitness s w = (w', inr v) /\
    estavel w w' /\ heap w' = heap w /\ rng w' = rng w /\ mesmo_melhor w w'.
Proof.
  intros (Hne & Hpos & Hh) Hc.
  assert (Hk : ids_conhecidos (funcionarios (self w)) (processos (self w))
                 (conteudo (heap w) s)).
  { intros fid ids Hin. unfold conteudo in Hin.
    apply list_elem_of_fmap in Hin as ([k l] & [= -> ->] & Hin). simpl. split.
    - assert (Hkk : k ∈ f_id <$> funcionarios (self w)).
      { apply Hc. apply list_elem_of_fmap. by exists (k, l). }
      apply list_elem_of_fmap in Hkk as (f & -> & Hf). by exists f.
    - intros i Hi. pose proof (itens_validos_deref _ _ _ _ Hh Hi) as Hv.
      destruct (py_index_valido (processos (self w)) i Hv) as (p & Hp & _).
      exists p. split; [by eapply list_elem_of_lookup_2 |].
      rewrite (Hpos _ _ Hp). lia. }
  destruct (calcular_fitness_valor s w Hne Hk) as (fs1 & mx & mn & Hcalc & _).
  pose proof (calcular_fitness_estavel s w) as (H1 & H2 & H3 & H4).
  rewrite Hcalc in *. eexists _, _. split; [reflexivity |]. done.
Qed.

(** ** Safety of a run *)

Lemma mundo_ok_self w w' :
  self w' = self w -> heap_valido w' -> mundo_ok w -> mundo_ok w'.
Proof.
  intros Hs Hh (Hne & Hpos & _). unfold mundo_ok. rewrite Hs. done.
Qed.

Lemma chaves_self w w' s :
  self w' = self w -> chaves_validas w s -> chaves_validas w' s.
Proof. intros Hs Hc k Hk. rewrite Hs. by apply Hc. Qed.

Lemma avaliar_seguro pop :
  forall w, mundo_ok w -> Forall (chaves_validas w) pop ->
  exists w' av, avaliar pop w = (w', inr av) /\ av.*1 = pop /\
    estavel w w' /\ heap w' = heap w /\ rng w' = rng w /\ mesmo_melhor w w'.
Proof.
  induction pop as [| s pop IH]; intros w Hok Hpop; simpl.
  - exists w, []. by repeat split.
  - apply Forall_cons in Hpop as [Hs Hpop]. unfold bind.
    destruct (calcular_fitness_seguro s w Hok Hs)
      as (w1 & v & -> & He1 & Hh1 & Hr1 & Hm1).
    destruct (IH w1) as (w' & av & -> & Hav & He & Hh & Hr & Hm).
    { by eapply estavel_mundo_ok. }
    { eapply Forall_impl; [exact Hpop |]. intros s'. by apply estavel_chaves. }
    exists w', ((s, v) :: av). split; [done |].
    split; [by rewrite fmap_cons, Hav |].
    split; [by etransitivity |]. split; [congruence |]. split; [congruence |].
    by etransitivity.
Qed.

Lemma repetir_gerar_valido n :
  forall w, mundo_ok w ->
  exists w' pop, repetir n gerar_solucao_aleatoria w = (w', inr pop) /\
    self w' = self w /\ heap_valido w' /\ length pop = n /\
    Forall (chaves_validas w) pop.
Proof.
  induction n as [| n IH]; intros w Hok; simpl.
  - exists w, []. destruct Hok as (_ & _ & Hh).
    do 4 (split; [done |]). apply Forall_nil_2.
  - unfold bind.
    destruct (gerar_solucao_aleatoria_valido w Hok)
      as (w1 & s & -> & Hs1 & Hh1 & Hc1).
    destruct (IH w1) as (w' & pop & -> & Hs & Hh & Hlen & Hpop).
    { by eapply mundo_ok_self. }
    exists w', (s :: pop). split; [done |].
    split; [congruence |]. split; [done |]. split; [simpl; lia |].
    apply Forall_cons. split.
    + by apply (chaves_self w1 w).
    + eapply Forall_impl; [exact Hpop |]. intros s'.
      by apply (chaves_self w1 w).
Qed.

Lemma insere_length {A} (lt : A -> A -> bool) x l :
  length (insere lt x l) = S (length l).
Proof.
  induction l as [| y l IH]; simpl; [done |].
  destruct (lt y x); simpl; by rewrite ?IH.
Qed.

Lemma py_sorted_length {A} (lt : A -> A -> bool) l :
  length (py_sorted lt l) = length l.
Proof.
  induction l as [| x l IH]; simpl; [done |].
  fold (py_sorted lt l). by rewrite insere_length, IH.
Qed.

Section RunSafety.
Variable set_iter : list Z -> list Z.
Hypothesis set_iter_elem : forall X i, i ∈ set_iter X -> i ∈ X.

Lemma crossover_valido pai1 pai2 w :
  mundo_ok w -> chaves_validas w pai1 ->
  exists w' filho, crossover set_iter pai1 pai2 w = (w', inr filho) /\
    self w' = self w /\ heap_valido w' /\ chaves_validas w' filho.
Proof.
  intros (Hne & Hpos & Hh) Hc.
  unfold crossover, bind, random, get_self, get_heap. simpl.
  destruct (Qltb _ _); simpl.
  { eexists _, _. split; [reflexivity |]. done. }
  apply (distribuir_ids_valido _ [] (avanca 1 w)); [done | |].
  - intros k Hk. by apply elem_of_nil in Hk.
  - intros i Hi. apply set_iter_elem in Hi. simpl.
    apply elem_of_app in Hi as [Hi | Hi];
      by eapply itens_validos_atribuidos.
Qed.

Lemma gerar_filhos_valido melhores n :
  forall nova w,
  mundo_ok w -> melhores <> [] ->
  Forall (chaves_validas w) melhores -> Forall (chaves_validas w) nova ->
  match gerar_filhos set_iter n melhores nova w with
  | (w', inr nova') =>
      self w' = self w /\ heap_valido w' /\
      length nova' = (length nova + n)%nat /\
      Forall (chaves_validas w) nova' /\ nova `prefix_of` nova'
  | (w', inl e) => e = KeyError
  end.
Proof.
  induction n as [| n IH]; intros nova w Hok Hne Hm Hnova; simpl.
  - destruct Hok as (_ & _ & Hh). split; [done |]. split; [done |].
    split; [lia |]. done.
  - unfold bind.
    destruct (choice_spec melhores w Hne) as (pai1 & Hp1 & ->).
    set (w1 := mkMundo _ _ _).
    destruct (choice_spec melhores w1 Hne) as (pai2 & Hp2 & ->).
    set (w2 := mkMundo _ _ _).
    assert (Hok2 : mundo_ok w2) by (destruct Hok as (? & ? & ?); done).
    apply list_elem_of_lookup_2 in Hp1.
    pose proof (proj1 (Forall_forall _ _) Hm pai1 Hp1) as Hc1.
    destruct (crossover_valido pai1 pai2 w2 Hok2 Hc1)
      as (w3 & filho & -> & Hs3 & Hh3 & Hc3).
    destruct (mutacao_valido filho w3 Hh3) as (Hs4 & Hh4 & Hres).
    destruct (mutacao filho w3) as [w4 [e | []]]; simpl in *.
    { destruct Hres as [? | [= ->]]; done. }
    assert (Hs : self w4 = self w) by congruence.
    specialize (IH (nova ++ [filho]) w4).
    destruct (gerar_filhos set_iter n melhores (nova ++ [filho]) w4)
      as [w' [e | nova']].
    + apply IH.
      * by apply (mundo_ok_self w).
      * done.
      * eapply Forall_impl; [exact Hm |]. intros s'. by apply chaves_self.
      * apply Forall_app. split.
        -- eapply Forall_impl; [exact Hnova |]. intros s'. by apply chaves_self.
        -- apply Forall_singleton. apply (chaves_self w3); [congruence | done].
    + destruct IH as (Hs' & Hh' & Hlen & Hall & Hpre).
      * by apply (mundo_ok_self w).
      * done.
      * eapply Forall_impl; [exact Hm |]. intros s'. by apply chaves_self.
      * apply Forall_app. split.
        -- eapply Forall_impl; [exact Hnova |]. intros s'. by apply chaves_self.
        -- apply Forall_singleton. apply (chaves_self w3); [congruence | done].
      * split; [congruence |]. split; [done |].
        split; [rewrite Hlen, length_app; simpl; lia |]. split.
        -- eapply Forall_impl; [exact Hall |]. intros s'.
           apply chaves_self. congruence.
        -- destruct Hpre as [k ->]. exists ([filho] ++ k).
           by rewrite <- (assoc_L (++)).
Qed.

(** One generation from a population of [P >= 2] members keyed by worker
    ids: it raises [KeyError] or returns such a population again, with the
    tracker set. *)
Lemma geracao_segura pop w :
  mundo_ok w -> tracker_ok w -> Forall (chaves_validas w) pop ->
  Z.of_nat (length pop) = tamanho_populacao (self w) ->
  2 <= tamanho_populacao (self w) ->
  match geracao set_iter pop w with
  | (w', inr pop') =>
      estavel w w' /\ mundo_ok w' /\ tracker_ok w' /\
      Forall (chaves_validas w') pop' /\
      Z.of_nat (length pop') = tamanho_populacao (self w') /\
      exists s q, melhor_solucao (self w') = Some s /\
                  melhor_fitness (self w') = Fin q
  | (w', inl e) => e = KeyError
  end.
Proof.
  intros Hok Htr Hpop Hlen HP. unfold geracao, bind.
  destruct (avaliar_seguro pop w Hok Hpop)
    as (w1 & av & -> & Hav & He1 & Hh1 & Hr1 & Hm1).
  pose proof (py_sorted_perm (fun x y : list (Z * nat) * Q => Qltb x.2 y.2) av)
    as Hperm.
  pose proof (py_sorted_length (fun x y : list (Z * nat) * Q => Qltb x.2 y.2) av)
    as Hslen.
  assert (Hlav : length av = length pop).
  { by rewrite <- Hav, length_fmap. }
  destruct (py_sorted _ av) as [| [s0 f0] t] eqn:Hsort.
  { simpl in Hslen. lia. }
  assert (Hok1 : mundo_ok w1) by (by eapply estavel_mundo_ok).
  assert (Hmem : forall x, x ∈ (s0, f0) :: t -> chaves_validas w1 x.1).
  { intros x Hx. rewrite Hperm in Hx.
    apply (estavel_chaves w w1); [done |].
    apply (proj1 (Forall_forall _ _) Hpop). rewrite <- Hav.
    by apply list_elem_of_fmap_2. }
  unfold atualiza_melhor, bind, get_self. simpl.
  set (w2 := (if fit_ltb f0 (melhor_fitness (self w1))
              then put_self (set_melhor s0 f0 (self w1)) else ret tt) w1).
  assert (H2 : estavel w1 w2.1 /\ heap w2.1 = heap w1 /\ w2.2 = inr tt /\
               tracker_ok w2.1 /\
               exists s q, melhor_solucao (self w2.1) = Some s /\
                           melhor_fitness (self w2.1) = Fin q).
  { unfold w2. destruct Htr as [Ht1 Ht2]. destruct Hm1 as [Hms Hmf].
    destruct (fit_ltb f0 (melhor_fitness (self w1))) eqn:Hlt; simpl.
    - split; [by unfold estavel |]. split; [done |]. split; [done |].
      split; [| by eauto]. split; [done |].
      intros s [= <-]. intros k Hk. simpl. apply (Hmem (s0, f0)); [left | done].
    - split; [reflexivity |]. split; [done |]. split; [done |].
      destruct (melhor_fitness (self w1)) as [| q] eqn:Hf; [done |].
      destruct (melhor_solucao (self w1)) as [s |] eqn:Hs.
      + split; [| by eauto]. split; [intros; congruence |].
        intros s' Hs'. assert (s' = s) as -> by congruence.
        apply (estavel_chaves w w1); [done |]. apply Ht2. congruence.
      + exfalso. assert (Hn : melhor_solucao (self w) = None) by congruence.
        apply Ht1 in Hn. congruence. }
  destruct w2 as [w2' r2]. simpl in H2.
  destruct H2 as (He2 & Hh2 & -> & Htr2 & Hset).
  assert (He12 : estavel w w2') by (by etransitivity).
  assert (Hok2 : mundo_ok w2').
  { eapply estavel_mundo_ok; [exact He2 | done | done]. }
  assert (HP2 : tamanho_populacao (self w2') = tamanho_populacao (self w)).
  { by destruct He12 as (_ & ? & _). }
  set (P := tamanho_populacao (self w)) in *. rewrite HP2.
  assert (Hdiv : 1 <= P / 2 <= P).
  { split; [apply Z.div_le_lower_bound; lia | apply Z.div_le_upper_bound; lia]. }
  set (melhores := sobreviventes P ((s0, f0) :: t)).
  assert (Hmlen : length melhores = Z.to_nat (P / 2)).
  { unfold melhores, sobreviventes, py_take.
    replace (0 <=? P / 2) with true by (symmetry; apply Z.leb_le; lia).
    rewrite length_fmap, length_take, Hslen, Hlav. lia. }
  assert (Hmne : melhores <> []).
  { intros H. rewrite H in Hmlen. simpl in Hmlen. lia. }
  assert (Hmall : Forall (chaves_validas w2') melhores).
  { apply Forall_forall. intros s Hs. unfold melhores, sobreviventes in Hs.
    apply list_elem_of_fmap in Hs as (x & -> & Hx).
    apply (estavel_chaves w1 w2'); [done |]. apply Hmem.
    unfold py_take in Hx. destruct (0 <=? P / 2);
      eapply elem_of_sublist; [exact Hx | apply sublist_take
                              | exact Hx | apply sublist_take]. }
  pose proof (gerar_filhos_valido melhores
                (Z.to_nat (P - Z.of_nat (length melhores))) melhores w2'
                Hok2 Hmne Hmall Hmall) as Hgf.
  destruct (gerar_filhos set_iter _ melhores melhores w2') as [w' [e | pop']];
    [done |].
  destruct Hgf as (Hs' & Hh' & Hlen' & Hall' & _).
  assert (Hest : estavel w w').
  { etransitivity; [exact He12 | by apply estavel_self]. }
  split; [done |]. split; [by apply (mundo_ok_self w2') |].
  split.
  { destruct Htr2 as [Ht1 Ht2]. unfold tracker_ok. rewrite Hs'. split; [done |].
    intros s Hs. by apply (chaves_self w2'), Ht2. }
  split.
  { eapply Forall_impl; [exact Hall' |]. intros s. by apply chaves_self. }
  split.
  { rewrite Hs', HP2, Hlen', Hmlen. lia. }
  by rewrite Hs'.
Qed.

Lemma geracoes_segura n :
  forall pop w,
  mundo_ok w -> tracker_ok w -> Forall (chaves_validas w) pop ->
  Z.of_nat (length pop) = tamanho_populacao (self w) ->
  2 <= tamanho_populacao (self w) ->
  match geracoes set_iter n pop w with
  | (w', inr pop') =>
      estavel w w' /\ mundo_ok w' /\ tracker_ok w' /\
      ((0 < n)%nat \/
       (exists s q, melhor_solucao (self w) = Some s /\
                    melhor_fitness (self w) = Fin q) ->
       exists s q, melhor_solucao (self w') = Some s /\
                   melhor_fitness (self w') = Fin q)
  | (w', inl e) => e = KeyError
  end.
Proof.
  induction n as [| n IH]; intros pop w Hok Htr Hpop Hlen HP; simpl.
  - split; [reflexivity |]. split; [done |]. split; [done |].
    intros [? | ?]; [lia | done].
  - unfold bind.
    pose proof (geracao_segura pop w Hok Htr Hpop Hlen HP) as Hg.
    destruct (geracao set_iter pop w) as [w1 [e | pop1]]; [done |].
    destruct Hg as (He1 & Hok1 & Htr1 & Hpop1 & Hlen1 & s1 & q1 & Hs1 & Hq1).
    assert (HP1 : 2 <= tamanho_populacao (self w1)).
    { destruct He1 as (_ & -> & _). done. }
    specialize (IH pop1 w1 Hok1 Htr1 Hpop1 Hlen1 HP1).
    destruct (geracoes set_iter n pop1 w1) as [w' [e | pop']]; [done |].
    destruct IH as (He & Hok' & Htr' & Hset).
    split; [by etransitivity |]. split; [done |]. split; [done |]. intros _.
    apply Hset. right. eauto.
Qed.

Lemma executar_valido (w : Mundo) :
  mundo_ok w -> tracker_ok w -> 2 <= tamanho_populacao (self w) ->
  match executar set_iter w with
  | (w', inr r) =>
      estavel w w' /\ mundo_ok w' /\ r = melhor_solucao (self w') /\
      (0 < num_geracoes (self w) ->
       exists s q, r = Some s /\ chaves_validas w' s /\
                   melhor_fitness (self w') = Fin q)
  | (w', inl e) => e = KeyError
  end.
Proof.
  intros Hok Htr HP. unfold executar, bind.
  change (populacao_inicial w)
    with (repetir (Z.to_nat (tamanho_populacao (self w)))
                  gerar_solucao_aleatoria w).
  destruct (repetir_gerar_valido (Z.to_nat (tamanho_populacao (self w))) w Hok)
    as (w1 & pop & -> & Hs1 & Hh1 & Hlen & Hpop).
  unfold get_self. rewrite Hs1.
  pose proof (geracoes_segura (Z.to_nat (num_geracoes (self w))) pop w1) as Hg.
  destruct (geracoes set_iter _ pop w1) as [w' [e | pop']].
  - apply Hg; rewrite ?Hs1; try done.
    + by apply (mundo_ok_self w).
    + destruct Htr as [Ht1 Ht2]. unfold tracker_ok. rewrite Hs1. split; [done |].
      intros s Hs. by apply (chaves_self w), Ht2.
    + eapply Forall_impl; [exact Hpop |]. intros s. by apply chaves_self.
    + lia.
  - destruct Hg as (He & Hok' & Htr' & Hset); rewrite ?Hs1; try done.
    + by apply (mundo_ok_self w).
    + destruct Htr as [Ht1 Ht2]. unfold tracker_ok. rewrite Hs1. split; [done |].
      intros s Hs. by apply (chaves_self w), Ht2.
    + eapply Forall_impl; [exact Hpop |]. intros s. by apply chaves_self.
    + lia.
    + split; [etransitivity; [by apply estavel_self | done] |].
      split; [done |]. split; [done |]. intros HG.
      destruct Hset as (s & q & Hs & Hq); [left; lia |].
      exists s, q. split; [done |]. split; [| done].
      destruct Htr' as [_ Ht]. by apply Ht.
Qed.


End RunSafety.



(** ** Size of the population *)

Lemma repetir_length {A} (m : M A) n :
  forall w w' xs, repetir n m w = (w', inr xs) -> length xs = n.
Proof.
  induction n as [| n IH]; intros w w' xs; simpl.
  - by intros [= <- <-].
  - unfold bind. destruct (m w) as [w1 [e | x]]; [done |].
    destruct (repetir n m w1) as [w2 [e | xs']] eqn:E; [done |].
    intros [= <- <-]. simpl. f_equal. by eapply IH.
Qed.

Section PopulationSize.
Variable set_iter : list Z -> list Z.

Lemma gerar_filhos_prefixo melhores n :
  forall nova w w' nova',
  gerar_filhos set_iter n melhores nova w = (w', inr nova') ->
  length nova' = (length nova + n)%nat /\ nova `prefix_of` nova'.
Proof.
  induction n as [| n IH]; intros nova w w' nova'; simpl.
  - intros [= <- <-]. split; [lia | done].
  - unfold bind.
    destruct (choice melhores w) as [w1 [e | pai1]]; [done |].
    destruct (choice melhores w1) as [w2 [e | pai2]]; [done |].
    destruct (crossover set_iter pai1 pai2 w2) as [w3 [e | filho]]; [done |].
    destruct (mutacao filho w3) as [w4 [e | []]]; [done |].
    intros H. destruct (IH _ _ _ _ H) as [Hlen [k ->]].
    split; [rewrite !length_app in *; simpl in *; lia |].
    exists ([filho] ++ k). by rewrite <- (assoc_L (++)).
Qed.

(** X10: the initial population has [max(P, 0)] members, and a generation
    that completes returns exactly [P] members (for [P >= 0]), whatever the
    size of the population it was given: the survivors, in order of
    fitness, followed by the children. *)
Theorem populacao_tamanho (pop : list (list (Z * nat))) (w : Mundo) :
  (exists w0 pop0, populacao_inicial w = (w0, inr pop0) /\
     length pop0 = Z.to_nat (tamanho_populacao (self w))) /\
  (forall w' pop', geracao set_iter pop w = (w', inr pop') ->
     0 <= tamanho_populacao (self w) ->
     Z.of_nat (length pop') = tamanho_populacao (self w) /\
     exists w1 avaliada, avaliar pop w = (w1, inr avaliada) /\
       sobreviventes (tamanho_populacao (self w))
         (py_sorted (fun x y => Qltb x.2 y.2) avaliada) `prefix_of` pop').
Proof.
  split.
  - destruct (total_populacao_inicial w) as [pop0 Hp].
    destruct (populacao_inicial w) as [w0 r] eqn:E. simpl in Hp. subst r.
    exists w0, pop0. split; [done |].
    unfold populacao_inicial, bind, get_self in E. simpl in E.
    by eapply repetir_length.
  - intros w' pop' Hg HP. unfold geracao, bind in Hg.
    pose proof (dominio_avaliar pop w) as Hd.
    destruct (avaliar pop w) as [w1 [e | av]]; [done |]. simpl in Hd.
    destruct (py_sorted _ av) as [| [s0 f0] t] eqn:Hsort; [done |].
    unfold atualiza_melhor, bind, get_self in Hg. simpl in Hg.
    assert (HP2 : forall b, tamanho_populacao
              (self ((if b : bool then put_self (set_melhor s0 f0 (self w1))
                      else ret tt) w1).1) = tamanho_populacao (self w)).
    { intros []; simpl; by destruct Hd as (_ & ? & _). }
    specialize (HP2 (fit_ltb f0 (melhor_fitness (self w1)))).
    destruct ((if fit_ltb f0 (melhor_fitness (self w1))
               then put_self (set_melhor s0 f0 (self w1)) else ret tt) w1)
      as [w2 [e | []]] eqn:E2.
    { by destruct (fit_ltb f0 (melhor_fitness (self w1))). }
    simpl in HP2. rewrite HP2 in Hg.
    destruct (gerar_filhos_prefixo _ _ _ _ _ _ Hg) as [Hlen Hpre].
    split; [| exists w1, av; split; [reflexivity | by rewrite Hsort]].
    rewrite Hlen.
    assert (Hm : (length (sobreviventes (tamanho_populacao (self w))
                            ((s0, f0) :: t))
                  <= Z.to_nat (tamanho_populacao (self w) / 2))%nat).
    { unfold sobreviventes, py_take.
      replace (0 <=? tamanho_populacao (self w) / 2) with true
        by (symmetry; apply Z.leb_le; apply Z.div_pos; lia).
      rewrite length_fmap, length_take. lia. }
    assert (Hdiv : 0 <= tamanho_populacao (self w) / 2
                   <= tamanho_populacao (self w)).
    { split; [apply Z.div_pos; lia | apply Z.div_le_upper_bound; lia]. }
    lia.
Qed.

(** X11: a run never changes the configuration, the item list or the
    workers' ids, specialties, capacities and seniorities; this holds on
    every path, exceptions included, of a whole run and of one generation. *)
Theorem execucao_preserva_dados (pop : list (list (Z * nat))) (w : Mundo) :
  estavel w (executar set_iter w).1 /\
  estavel w (geracao set_iter pop w).1.
Proof.
  assert (Hself : forall {A} (m : M A),
            preserva mesmo_self m -> preserva estavel m).
  { intros A m Hm w0. apply estavel_self, Hm. }
  assert (Hav : forall pop0, preserva estavel (avaliar pop0)).
  { induction pop0 as [| s pop0 IH]; simpl.
    - apply preserva_ret. typeclasses eauto.
    - apply preserva_bind; [typeclasses eauto | |].
      + intros w0. apply calcular_fitness_estavel.
      + intros f. apply preserva_bind; [typeclasses eauto | exact IH |].
        intros r. apply preserva_ret. typeclasses eauto. }
  assert (Hat : forall s0 f0, preserva estavel (atualiza_melhor s0 f0)).
  { intros s0 f0 w0. unfold atualiza_melhor, bind, get_self. simpl.
    destruct (fit_ltb _ _); simpl; [by unfold estavel | reflexivity]. }
  assert (Hger : forall pop0, preserva estavel (geracao set_iter pop0)).
  { intros pop0. unfold geracao.
    apply preserva_bind; [typeclasses eauto | apply Hav |]. intros av.
    destruct (py_sorted _ av) as [| [s0 f0] t].
    - apply preserva_raise. typeclasses eauto.
    - apply preserva_bind; [typeclasses eauto | apply Hat |]. intros _.
      apply preserva_bind; [typeclasses eauto | |].
      + intros w0. reflexivity.
      + intros a. apply Hself, self_gerar_filhos. }
  split; [| apply Hger].
  unfold executar.
  apply preserva_bind; [typeclasses eauto | |].
  - apply Hself, self_populacao_inicial.
  - intros pop0. apply preserva_bind; [typeclasses eauto | |].
    + intros w0. reflexivity.
    + intros a. apply preserva_bind; [typeclasses eauto | |].
      * induction (Z.to_nat (num_geracoes a)) as [| n IH] in pop0 |- *; simpl.
        -- apply preserva_ret. typeclasses eauto.
        -- apply preserva_bind; [typeclasses eauto | apply Hger |].
           intros p'. apply IH.
      * intros _. apply preserva_bind; [typeclasses eauto | |].
        -- intros w0. reflexivity.
        -- intros a'. apply preserva_ret. typeclasses eauto.
Qed.

(** X12: without workers every generated solution is empty, and a run with
    a population of at least one and at least one generation raises
    [ValueError] in its first evaluation. *)
Theorem executar_sem_funcionarios (w : Mundo) :
  funcionarios (self w) = [] ->
  1 <= tamanho_populacao (self w) -> 1 <= num_geracoes (self w) ->
  gerar_solucao_aleatoria w = (w, inr []) /\
  (executar set_iter w).2 = inl ValueError.
Proof.
  intros Hf HP HG.
  assert (Hdist : forall ps d w0, distribuir_processos ps [] d w0 = (w0, inr d)).
  { induction ps as [| p ps IH]; intros d w0; simpl; [done | apply IH]. }
  assert (Hger : gerar_solucao_aleatoria w = (w, inr [])).
  { unfold gerar_solucao_aleatoria, bind, get_self. simpl. rewrite Hf.
    apply Hdist. }
  split; [done |].
  assert (Hrep : forall n, repetir n gerar_solucao_aleatoria w
                           = (w, inr (replicate n []))).
  { induction n as [| n IH]; simpl; [done |].
    unfold bind. by rewrite Hger, IH. }
  unfold executar, bind.
  change (populacao_inicial w)
    with (repetir (Z.to_nat (tamanho_populacao (self w)))
                  gerar_solucao_aleatoria w).
  rewrite Hrep. unfold get_self.
  destruct (Z.to_nat (tamanho_populacao (self w))) as [| n] eqn:En; [lia |].
  destruct (Z.to_nat (num_geracoes (self w))) as [| g] eqn:Eg; [lia |].
  simpl. unfold bind, geracao, bind. simpl. unfold bind.
  unfold calcular_fitness. rewrite Hf. simpl. reflexivity.
Qed.

End PopulationSize.

Lemma populacao_tamanho_witness :
  exists w' pop',
    geracao ordem_crescente [membro_a; membro_b] (populacao_inicial w_elitismo).1
      = (w', inr pop') /\
    Z.of_nat (length pop') = 2.
Proof.
  destruct (geracao ordem_crescente [membro_a; membro_b]
              (populacao_inicial w_elitismo).1) as [w' [e | pop']] eqn:E;
    [vm_compute in E; discriminate |].
  exists w', pop'. split; [reflexivity |].
  destruct (proj2 (populacao_tamanho ordem_crescente [membro_a; membro_b]
                     (populacao_inicial w_elitismo).1) w' pop' E) as [Hl _].
  - vm_compute. discriminate.
  - exact Hl.
Defined.

Lemma executar_sem_funcionarios_witness :
  (executar ordem_crescente w_sem_funcionarios).2 = inl ValueError.
Proof.
  apply (executar_sem_funcionarios ordem_crescente w_sem_funcionarios).
  - reflexivity.
  - vm_compute. discriminate.
  - vm_compute. discriminate.
Defined.

(** ** The demonstration data *)

Lemma randint_1_5 r :
  1 <= (randint 1 5 r).2 <= 5 /\ (randint 1 5 r).1 = avanca_rng r.
Proof.
  unfold randint. change (5 - 1 + 1) with 5. cbn [fst snd].
  pose proof (Z.mod_pos_bound (Z.of_nat (indice r (consumidos r))) 5).
  split; [lia | reflexivity].
Qed.

Lemma tem_compativel_teste p :
  1 <= categoria p <= 5 -> tem_compativel funcionarios_teste p.
Proof.
  intros Hc. unfold tem_compativel.
  assert (Hcases : categoria p = 1 \/ categoria p = 2 \/ categoria p = 3 \/
                   categoria p = 4 \/ categoria p = 5) by lia.
  destruct Hcases as [-> | [-> | [-> | [-> | ->]]]];
    apply Nat.ltb_lt; vm_compute; reflexivity.
Qed.

Lemma posicional_snoc ps p :
  posicional ps -> p_id p = Z.of_nat (length ps) -> posicional (ps ++ [p]).
Proof.
  intros Hps Hp i p' Hi.
  apply lookup_app_Some in Hi as [Hi | [Hge Hi]]; [by apply Hps |].
  apply list_lookup_singleton_Some in Hi as [Hi <-]. rewrite Hp.
  f_equal. lia.
Qed.

Lemma peso_limites (urg : Z) (tempo : Q) :
  1 <= urg <= 5 -> (1#2 <= tempo)%Q -> (tempo < 5)%Q ->
  (2 < inject_Z (urg * 10) / tempo)%Q /\ (inject_Z (urg * 10) / tempo <= 100)%Q.
Proof.
  intros Hu H1 H2.
  assert (Hlo : (inject_Z 10 <= inject_Z (urg * 10))%Q)
    by (rewrite <- Zle_Qle; lia).
  assert (Hhi : (inject_Z (urg * 10) <= inject_Z 50)%Q)
    by (rewrite <- Zle_Qle; lia).
  set (c := inject_Z (urg * 10)) in *.
  assert (Hc1 : (10 <= c)%Q) by exact Hlo.
  assert (Hc2 : (c <= 50)%Q) by exact Hhi.
  assert (Ht : (0 < tempo)%Q) by lra.
  split.
  - apply Qlt_shift_div_l; [done |]. lra.
  - apply Qle_shift_div_r; [done |]. lra.
Qed.

Lemma gerar_processos_ok n :
  forall acc r, oraculo_unitario r ->
  posicional acc -> Forall dado_ok acc ->
  exists r' ps, gerar_processos n (Z.of_nat (length acc)) acc r = (r', inr ps) /\
    uniforme r' = uniforme r /\ indice r' = indice r /\
    consumidos r' = (3 * n + consumidos r)%nat /\
    length ps = (length acc + n)%nat /\ posicional ps /\ Forall dado_ok ps.
Proof.
  induction n as [| n IH]; intros acc r Hr Hpos Hall.
  - exists r, acc. simpl. repeat split; (done || lia).
  - cbn [gerar_processos].
    destruct (randint_1_5 r) as [Hc Hr1].
    destruct (randint 1 5 r) as [r1 cat]. simpl in Hc, Hr1. subst r1.
    destruct (randint_1_5 (avanca_rng r)) as [Hu Hr2].
    destruct (randint 1 5 (avanca_rng r)) as [r2 urg]. simpl in Hu, Hr2.
    subst r2. unfold uniform.
    set (u := uniforme (avanca_rng (avanca_rng r))
                (consumidos (avanca_rng (avanca_rng r)))).
    set (tempo := ((1#2) + (5 - (1#2)) * u)%Q).
    destruct (Hr (S (S (consumidos r)))) as [Hu0 Hu1].
    change (uniforme r (S (S (consumidos r)))) with u in Hu0, Hu1.
    assert (Ht1 : (1#2 <= tempo)%Q) by (unfold tempo; lra).
    assert (Ht2 : (tempo < 5)%Q) by (unfold tempo; lra).
    destruct (Qeq_bool tempo 0) eqn:Hz.
    { apply Qeq_bool_iff in Hz. lra. }
    set (p := mkProcesso (Z.of_nat (length acc)) cat
                (inject_Z (urg * 10) / tempo) urg tempo).
    destruct (IH (acc ++ [p]) (avanca_rng (avanca_rng (avanca_rng r))))
      as (r' & ps & Hg & Hun & Hin & Hco & Hlen & Hps & Hok).
    + exact Hr.
    + by apply posicional_snoc.
    + apply Forall_app. split; [done |]. apply Forall_singleton.
      destruct (peso_limites urg tempo Hu Ht1 Ht2) as [Hp1 Hp2].
      unfold dado_ok. simpl. split; [lia |]. split; [lia |].
      split; [done |]. split; [done |]. split; [reflexivity |].
      split; [done |]. split; [done |]. by apply tem_compativel_teste.
    + rewrite length_app in Hg, Hlen. simpl in Hg, Hlen.
      replace (Z.of_nat (length acc + 1)) with (Z.of_nat (length acc) + 1) in Hg
        by lia.
      exists r', ps. split; [exact Hg |].
      split; [done |]. split; [done |].
      split; [rewrite Hco; simpl; lia |]. split; [lia | done].
Qed.

Lemma gerar_dados_teste_valor (r : Rng) :
  oraculo_unitario r ->
  exists r' ps, gerar_dados_teste r = (r', inr (funcionarios_teste, ps)) /\
    consumidos r' = (300 + consumidos r)%nat /\
    length ps = 100%nat /\ posicional ps /\ Forall dado_ok ps.
Proof.
  intros Hr. unfold gerar_dados_teste.
  destruct (gerar_processos_ok 100 [] r Hr)
    as (r' & ps & Hg & _ & _ & Hco & Hlen & Hps & Hok).
  - intros i p Hi. discriminate.
  - apply Forall_nil_2.
  - change (Z.of_nat (length (@nil Processo))) with 0 in Hg.
    rewrite Hg. exists r', ps. split; [done |].
    split; [exact Hco |]. split; [exact Hlen | done].
Qed.

(** X13: for every outcome of the random draws, [gerar_dados_teste]
    returns the nine workers and 100 items without raising (the duration is
    at least 0.5, so the division is defined), after exactly 300 draws.  The
    item at position [i] has id [i]; its category and urgency lie in 1..5,
    its duration in [0.5, 5), its weight is 10 * urgency / duration and lies
    in (2, 100]; and some worker is compatible with it. *)
Theorem gerar_dados_teste_ok (r : Rng) :
  oraculo_unitario r ->
  exists r' ps, gerar_dados_teste r = (r', inr (funcionarios_teste, ps)) /\
    consumidos r' = (300 + consumidos r)%nat /\
    length ps = 100%nat /\ posicional ps /\ Forall dado_ok ps.
Proof. exact (gerar_dados_teste_valor r). Qed.

Lemma gerar_dados_teste_ok_witness :
  exists r' ps,
    gerar_dados_teste (oraculo (fun _ => 1#2) (fun n => n))
      = (r', inr (funcionarios_teste, ps)) /\
    length ps = 100%nat /\ posicional ps.
Proof.
  destruct (gerar_dados_teste_ok (oraculo (fun _ => 1#2) (fun n => n)))
    as (r' & ps & Hg & _ & Hlen & Hps & _).
  - intros k. simpl. split; lra.
  - exists r', ps. split; [exact Hg |]. split; [exact Hlen | exact Hps].
Defined.

(** ** The driver *)

Lemma fold_adicionar_funcionario fs :
  forall a,
  fold_left (fun a f => adicionar_funcionario f a) fs a
  = mkAG (num_geracoes a) (tamanho_populacao a) (taxa_mutacao a)
         (taxa_crossover a) (funcionarios a ++ fs) (processos a)
         (melhor_solucao a) (melhor_fitness a).
Proof.
  induction fs as [| f fs IH]; intros a; simpl.
  - rewrite app_nil_r. by destruct a.
  - rewrite IH. simpl. by rewrite <- (assoc_L (++)).
Qed.

Lemma fold_adicionar_processo ps :
  forall a,
  fold_left (fun a p => adicionar_processo p a) ps a
  = mkAG (num_geracoes a) (tamanho_populacao a) (taxa_mutacao a)
         (taxa_crossover a) (funcionarios a) (processos a ++ ps)
         (melhor_solucao a) (melhor_fitness a).
Proof.
  induction ps as [| p ps IH]; intros a; simpl.
  - rewrite app_nil_r. by destruct a.
  - rewrite IH. simpl. by rewrite <- (assoc_L (++)).
Qed.

Lemma preparar_campos fs ps a :
  preparar fs ps a
  = mkAG (num_geracoes a) (tamanho_populacao a) (taxa_mutacao a)
         (taxa_crossover a) (funcionarios a ++ fs) (processos a ++ ps)
         (melhor_solucao a) (melhor_fitness a).
Proof.
  unfold preparar.
  by rewrite fold_adicionar_funcionario, fold_adicionar_processo.
Qed.

(** X14: filling an optimizer appends the workers and the items, in the
    order given, after those it already holds, and leaves the configuration
    and the tracker as they were; a fresh optimizer then holds exactly the
    lists given. *)
Theorem preparar_efeito (fs : list Funcionario) (ps : list Processo)
    (a : AlgoritmoGenetico) (g p : Z) (tm tc : Q) :
  preparar fs ps a
  = mkAG (num_geracoes a) (tamanho_populacao a) (taxa_mutacao a)
         (taxa_crossover a) (funcionarios a ++ fs) (processos a ++ ps)
         (melhor_solucao a) (melhor_fitness a) /\
  preparar fs ps (init g p tm tc) = mkAG g p tm tc fs ps None Inf.
Proof.
  split; [apply preparar_campos |]. by rewrite preparar_campos.
Qed.

Lemma soma_por_posicao_ok procs ids :
  (forall i, i ∈ ids -> 0 <= i < Z.of_nat (length procs)) ->
  forall acc, exists total, soma_por_posicao procs ids acc = inr total.
Proof.
  induction ids as [| i ids IH]; intros Hids acc; simpl; [by eexists |].
  destruct (py_index_valido procs i) as (p & _ & ->); [apply Hids; left |].
  apply IH. intros i' Hi'. apply Hids. by right.
Qed.

Lemma detalhes_ok procs ids :
  (forall i, i ∈ ids -> 0 <= i < Z.of_nat (length procs)) ->
  exists ds, detalhes procs ids = inr ds /\ ds.*1.*1.*1 = ids /\
    forall pid c u q, (pid, c, u, q) ∈ ds ->
      exists p, procs !! Z.to_nat pid = Some p /\
                c = categoria p /\ u = urgencia p /\ q = peso p.
Proof.
  induction ids as [| i ids IH]; intros Hids; simpl.
  - exists []. split; [done |]. split; [done |].
    intros pid c u q H. by apply elem_of_nil in H.
  - destruct (py_index_valido procs i) as (p & Hp & ->); [apply Hids; left |].
    destruct IH as (ds & -> & Hds & Hin).
    { intros i' Hi'. apply Hids. by right. }
    eexists. split; [reflexivity |]. split.
    + rewrite !fmap_cons. simpl. by rewrite Hds.
    + intros pid c u q [Heq | H]%elem_of_cons.
      * injection Heq as -> -> -> ->. by exists p.
      * by apply Hin.
Qed.

Lemma relatorio_ok fs procs cont :
  (forall fid ids, (fid, ids) ∈ cont ->
     fid ∈ f_id <$> fs /\
     forall i, i ∈ ids -> 0 <= i < Z.of_nat (length procs)) ->
  exists linhas, relatorio fs procs cont = inr linhas /\
    (fun l => (l_funcionario l, (l_processos l).*1.*1.*1)) <$> linhas = cont /\
    Forall (fun l => l_total l = length (l_processos l)) linhas.
Proof.
  induction cont as [| [fid ids] cont IH]; intros Hc; simpl.
  - exists []. split; [done |]. split; [done | apply Forall_nil_2].
  - destruct (Hc fid ids) as [Hfid Hids]; [left |].
    unfold py_next.
    destruct (List.find (fun f => bool_decide (f_id f = fid)) fs) as [f |] eqn:Hf.
    2:{ exfalso. apply list_elem_of_fmap in Hfid as (f & -> & Hin).
        apply list_elem_of_In in Hin. eapply find_none in Hf; [| exact Hin].
        by apply bool_decide_eq_false in Hf. }
    destruct (soma_por_posicao_ok procs ids Hids 0%Q) as [total ->].
    destruct (detalhes_ok procs ids Hids) as (ds & -> & Hds & _).
    destruct IH as (linhas & -> & Hl & Hall).
    { intros fid' ids' Hin. apply Hc. by right. }
    eexists. split; [reflexivity |]. split.
    + rewrite fmap_cons. simpl. by rewrite Hds, Hl.
    + apply Forall_cons. split; [| done]. simpl.
      by rewrite <- Hds, !length_fmap.
Qed.

Section MainSafety.
Variable set_iter : list Z -> list Z.
Hypothesis set_iter_elem : forall X i, i ∈ set_iter X -> i ∈ X.

(** X15: for every outcome of the random draws, [main] either raises
    [KeyError] or completes; no other exception escapes it.  When it
    completes, what it prints is the best solution held by the optimizer:
    one block per entry, with the entry's worker id, one of 1..9, its items
    in order, and their number. *)
Theorem main_seguro (r : Rng) :
  oraculo_unitario r ->
  match main set_iter r with
  | (w', inr linhas) =>
      exists s, melhor_solucao (self w') = Some s /\
        (fun l => (l_funcionario l, (l_processos l).*1.*1.*1)) <$> linhas
          = conteudo (heap w') s /\
        Forall (fun l => l_total l = length (l_processos l) /\
                         1 <= l_funcionario l <= 9) linhas
  | (w', inl e) => e = Exn KeyError
  end.
Proof.
  intros Hr. unfold main.
  destruct (gerar_dados_teste_valor r Hr) as (r1 & ps & -> & _ & Hlen & Hpos & _).
  rewrite preparar_campos. simpl.
  set (w := mkMundo _ [] r1).
  assert (Hok : mundo_ok w).
  { split; [discriminate |]. split; [exact Hpos |].
    intros l items i Hl. discriminate. }
  assert (Htr : tracker_ok w).
  { split; [reflexivity |]. intros s Hs. discriminate. }
  pose proof (executar_valido set_iter set_iter_elem w Hok Htr) as H.
  destruct (executar set_iter w) as [w' [e | res]].
  { rewrite H; [done | simpl; lia]. }
  destruct H as (Hest & Hok' & Hres & Hsome); [simpl; lia |].
  destruct Hsome as (s & q & -> & Hch & _); [simpl; lia |].
  destruct Hok' as (_ & Hpos' & Hh').
  assert (Hids : f_id <$> funcionarios (self w') = f_id <$> funcionarios_teste).
  { destruct Hest as (_ & _ & _ & _ & _ & Hf). by apply f_id_sem_carga in Hf. }
  destruct (relatorio_ok (funcionarios (self w')) (processos (self w'))
              (conteudo (heap w') s)) as (linhas & -> & Hl & Hall).
  { intros fid ids Hin. unfold conteudo in Hin.
    apply list_elem_of_fmap in Hin as ([k l] & [= -> ->] & Hin). simpl. split.
    - apply Hch. apply list_elem_of_fmap. by exists (k, l).
    - intros i Hi. by eapply itens_validos_deref. }
  exists s. split; [done |]. split; [done |].
  apply Forall_forall. intros l Hlin. split.
  - by apply (proj1 (Forall_forall _ _) Hall).
  - assert (Hk : l_funcionario l ∈ f_id <$> funcionarios_teste).
    { rewrite <- Hids. apply Hch.
      assert (Hin : (l_funcionario l, (l_processos l).*1.*1.*1)
                    ∈ conteudo (heap w') s).
      { rewrite <- Hl. apply list_elem_of_fmap. by exists l. }
      unfold conteudo in Hin.
      apply list_elem_of_fmap in Hin as ([k loc'] & [= Hk _] & Hin).
      simpl in Hk. rewrite Hk. apply list_elem_of_fmap. by exists (k, loc'). }
    change (f_id <$> funcionarios_teste) with [1; 2; 3; 4; 5; 6; 7; 8; 9] in Hk.
    repeat (apply elem_of_cons in Hk as [Hk | Hk]; [lia |]).
    by apply elem_of_nil in Hk.
Qed.

End MainSafety.

Lemma main_seguro_witness :
  match main ordem_crescente (oraculo (fun _ => 1#2) (fun n => n)) with
  | (w', inr linhas) =>
      exists s, melhor_solucao (self w') = Some s /\
        (fun l => (l_funcionario l, (l_processos l).*1.*1.*1)) <$> linhas
          = conteudo (heap w') s /\
        Forall (fun l => l_total l = length (l_processos l) /\
                         1 <= l_funcionario l <= 9) linhas
  | (w', inl e) => e = Exn KeyError
  end.
Proof.
  apply (main_seguro ordem_crescente ordem_crescente_elem
           (oraculo (fun _ => 1#2) (fun n => n))).
  intros k. simpl. split; lra.
Defined.

(** ** Exceptions of crossover *)

Lemma compativeis_pos_erro procs i fs e :
  compativeis_pos procs i fs = inl e ->
  e = IndexError /\ fs <> [] /\ py_index procs i = inl IndexError.
Proof.
  induction fs as [| f fs IH]; simpl; [done |].
  destruct (py_index procs i) as [e' | p] eqn:Hp.
  - intros [= <-]. pose proof (py_index_erro _ _ _ Hp) as ->. done.
  - destruct (compativeis_pos procs i fs) as [e' | rest]; [| done].
    intros [= <-]. destruct (IH eq_refl) as (-> & _ & H). done.
Qed.

Lemma sorteio_erro procs fs idx ids :
  forall n e, sorteio procs fs idx n ids = inl e ->
    e = IndexError /\ fs <> [] /\
    exists i, i ∈ ids /\ py_index procs i = inl IndexError.
Proof.
  induction ids as [| i ids IH]; intros n e; simpl; [done |].
  destruct (compativeis_pos procs i fs) as [e' | comp] eqn:Hc.
  - intros [= <-]. destruct (compativeis_pos_erro _ _ _ _ Hc) as (-> & Hne & Hp).
    split; [done |]. split; [done |]. exists i. split; [left | done].
  - destruct (comp !! _) as [f |].
    + destruct (sorteio procs fs idx (S n) ids) as [e' | r] eqn:Hs; [| done].
      intros [= <-]. destruct (IH _ _ Hs) as (-> & Hne & i' & Hi' & Hp).
      split; [done |]. split; [done |]. exists i'. split; [by right | done].
    + intros Hs. destruct (IH _ _ Hs) as (-> & Hne & i' & Hi' & Hp).
      split; [done |]. split; [done |]. exists i'. split; [by right | done].
Qed.

Section CrossoverErrors.
Variable set_iter : list Z -> list Z.
Hypothesis set_iter_elem : forall X i, i ∈ set_iter X -> i ∈ X.

(** X16: [crossover] raises nothing but [IndexError], and only when it
    recombines, with at least one worker, parents that hold an item id
    that is not an index of the item list. *)
Theorem crossover_excecoes (w w' : Mundo) (pai1 pai2 : list (Z * nat))
    (e : exn) :
  crossover set_iter pai1 pai2 w = (w', inl e) ->
  e = IndexError /\
  Qltb (taxa_crossover (self w))
       (uniforme (rng w) (consumidos (rng w))) = false /\
  funcionarios (self w) <> [] /\
  exists i, (i ∈ atribuidos (heap w) pai1 \/ i ∈ atribuidos (heap w) pai2) /\
    py_index (processos (self w)) i = inl IndexError.
Proof.
  intros Hc.
  destruct (Qltb (taxa_crossover (self w))
              (uniforme (rng w) (consumidos (rng w)))) eqn:Hr.
  { unfold crossover, bind, random, get_self in Hc. simpl in Hc.
    by rewrite Hr in Hc. }
  pose proof (crossover_sorteio set_iter w pai1 pai2 Hr) as H.
  destruct (sorteio _ _ _ _ _) as [e' | novos] eqn:Hs.
  - destruct H as [w'' H]. rewrite H in Hc. injection Hc as <- <-.
    destruct (sorteio_erro _ _ _ _ _ _ Hs) as (-> & Hne & i & Hi & Hp).
    split; [done |]. split; [done |]. split; [done |]. exists i.
    split; [| done]. apply set_iter_elem in Hi.
    apply elem_of_app in Hi as [Hi | Hi]; [by left | by right].
  - destruct H as (w'' & filho & H & _). rewrite H in Hc. done.
Qed.

End CrossoverErrors.

Lemma crossover_excecoes_witness :
  exists i, i ∈ atribuidos (heap w_indice_invalido) [(1, 0%nat)] /\
    py_index (processos (self w_indice_invalido)) i = inl IndexError.
Proof.
  destruct (crossover_excecoes ordem_crescente
              ordem_crescente_elem
              w_indice_invalido
              (crossover ordem_crescente [(1, 0%nat)] [(1, 0%nat)] w_indice_invalido).1
              [(1, 0%nat)] [(1, 0%nat)] IndexError)
    as (_ & _ & _ & i & [Hi | Hi] & Hp).
  - vm_compute. reflexivity.
  - exists i. split; [exact Hi | exact Hp].
  - exists i. split; [exact Hi | exact Hp].
Defined.

(** ** Selection *)




